(** * MacroMorphFX: scenes, morphing, macro mapping and the delay stage

    A shallow embedding of the numeric core of the plugin
    ([Source/SceneData.h], [Source/MacroEngine.h], [Source/DSP/DelayModule.h]
    and the scene handling of [Source/PluginProcessor.cpp]) together with
    the properties its design document states about it, followed by the
    factory presets of [Source/PresetData.h], the state persistence and
    the buffer steps of the processor, the pre-delay of
    [Source/DSP/ReverbModule.h], the parameter mapping of
    [Source/DSP/FilterModule.h] and the macro rows of
    [Source/PluginEditor.cpp], with properties read off the code.

    The C++ code computes on [float].  The embedding is written once over
    an arithmetic interface [FloatArith] and read at two instances:
    - [binary32]: IEEE-754 single precision, every operation rounded to
      nearest even, as specified by [SpecFloat] with [prec = 24] and
      [emax = 128]; this is the arithmetic of [float];
    - [exactReal]: the same expressions over the real numbers, that is
      the formulas the code denotes when rounding is ignored. *)

From Stdlib Require Import ZArith QArith Bool Reals Lra Lia.
From Stdlib Require Import Floats.SpecFloat.
From stdpp Require Import base list.

Local Open Scope Z_scope.

(** ** Arithmetic interface *)

Class FloatArith (F : Type) := {
  fadd : F -> F -> F;
  fsub : F -> F -> F;
  fmul : F -> F -> F;
  fdiv : F -> F -> F;
  fsqrt : F -> F;
  (** [operator<] and [operator<=] *)
  fltb : F -> F -> bool;
  fleb : F -> F -> bool;
  (** the value of an integer literal or of [static_cast<float> (int)] *)
  fofZ : Z -> F;
  (** [static_cast<int> (float)]: truncation toward zero *)
  ftoInt : F -> Z
}.

Declare Scope float_scope.
Delimit Scope float_scope with flt.
Infix "⊕" := fadd (at level 50, left associativity) : float_scope.
Infix "⊖" := fsub (at level 50, left associativity) : float_scope.
Infix "⊗" := fmul (at level 40, left associativity) : float_scope.
Infix "<." := fltb (at level 70, no associativity) : float_scope.
Infix "<=." := fleb (at level 70, no associativity) : float_scope.
Local Open Scope float_scope.

(** A decimal literal [n/d] written in the source, such as [0.001f] or
    [0.95f]: the nearest representable value of the quotient. *)
Definition flit {F} `{FloatArith F} (n d : Z) : F := fdiv (fofZ n) (fofZ d).

(** *** Single and double precision *)

(** The integer part of a finite value [(-1)^s * m * 2^e], rounded toward
    zero. *)
Definition truncZ (s : bool) (m : positive) (e : Z) : Z :=
  let a := match e with
           | Z0 => Zpos m
           | Zpos p => Zpos m * 2 ^ e
           | Zneg p => Zpos m / 2 ^ Zpos p
           end in
  if s then - a else a.

(** [static_cast<int>] of a floating-point value.  The cast is undefined
    in C++ for NaN, the infinities and values outside [int]; the model
    returns the value x86 conversions give there, [INT_MIN]. *)
Definition castToInt (x : spec_float) : Z :=
  match x with
  | S754_zero _ => 0
  | S754_finite s m e =>
      let z := truncZ s m e in
      if (z <? - 2 ^ 31) || (2 ^ 31 <=? z) then - 2 ^ 31 else z
  | _ => - 2 ^ 31
  end.

(** [float] *)
Module B32.
Definition prec : Z := 24.
Definition emax : Z := 128.
Definition ofZ (z : Z) : spec_float := binary_normalize prec emax z 0 false.
End B32.

(** [double] *)
Module B64.
Definition prec : Z := 53.
Definition emax : Z := 1024.
Definition ofZ (z : Z) : spec_float := binary_normalize prec emax z 0 false.
Definition mul : spec_float -> spec_float -> spec_float := SFmul prec emax.
Definition div : spec_float -> spec_float -> spec_float := SFdiv prec emax.

(** The promotion of a [float] to [double], which is exact. *)
Definition ofFloat (x : spec_float) : spec_float :=
  match x with
  | S754_finite s m e => binary_round prec emax s m e
  | _ => x
  end.

(** [static_cast<float> (double)]: rounding to single precision. *)
Definition toFloat (x : spec_float) : spec_float :=
  match x with
  | S754_finite s m e => binary_round B32.prec B32.emax s m e
  | _ => x
  end.
End B64.

#[export] Instance binary32 : FloatArith spec_float := {|
  fadd := SFadd B32.prec B32.emax;
  fsub := SFsub B32.prec B32.emax;
  fmul := SFmul B32.prec B32.emax;
  fdiv := SFdiv B32.prec B32.emax;
  fsqrt := SFsqrt B32.prec B32.emax;
  fltb := SFltb;
  fleb := SFleb;
  fofZ := B32.ofZ;
  ftoInt := castToInt
|}.

(** A [float] or [double] of the source; which of the two a value is
    shows in the operations applied to it. *)
Abbreviation float := spec_float (only parsing).

(** *** Exact arithmetic *)

Definition Rltb (x y : R) : bool := if Rlt_dec x y then true else false.

Definition Rleb (x y : R) : bool := if Rle_dec x y then true else false.

Definition Rtrunc (x : R) : Z :=
  if Rle_dec 0 x then up x - 1 else - (up (- x) - 1).

#[export] Instance exactReal : FloatArith R := {|
  fadd := Rplus;
  fsub := Rminus;
  fmul := Rmult;
  fdiv := Rdiv;
  fsqrt := sqrt;
  fltb := Rltb;
  fleb := Rleb;
  fofZ := IZR;
  ftoInt := Rtrunc
|}.

(** ** Library functions used by the source *)

(** [std::clamp (v, lo, hi)] on [int]. *)
Definition clampZ (v lo hi : Z) : Z :=
  if v <? lo then lo else if hi <? v then hi else v.

(** A counted loop [for (int i = 0; i < n; ++i) body (i)] over a state. *)
Definition forLoop {S : Type} (n : nat) (body : nat -> S -> S) (s : S) : S :=
  fold_left (fun acc i => body i acc) (seq 0 n) s.

Section Numeric.
Context {F : Type} `{FloatArith F}.

(** [std::clamp (v, lo, hi)]: [(v < lo) ? lo : (hi < v) ? hi : v]. *)
Definition clamp (v lo hi : F) : F :=
  if v <. lo then lo else if hi <. v then hi else v.

(** [std::min (a, b)]: [(b < a) ? b : a]. *)
Definition fmin (a b : F) : F := if b <. a then b else a.

(** Reading [arr[i]] from a fixed-size array; the source never reads
    outside the array, the model returns zero there. *)
Definition at_ (l : list F) (i : nat) : F := default (fofZ 0) (l !! i).
End Numeric.

(** ** [Source/SceneData.h] *)

(** The parameter identifiers [Params::ID::*] of [Source/Params.h], one
    constructor for each of its 25 identifier strings: the 14 parameter
    fields of a scene, in the order of the info table, followed by the
    scene selectors, the morph factor, the four macros, the mix, the
    input and output gain and the bypass. *)
Inductive ParamID :=
  | ID_filtMode | ID_filtCutoff | ID_filtReso
  | ID_driveAmt | ID_driveTone
  | ID_delaySync | ID_delayFb | ID_delayTone | ID_delayWidth | ID_delayPingP
  | ID_revSize | ID_revDamp | ID_revPreDelay | ID_revWidth
  | ID_sceneA | ID_sceneB | ID_morph
  | ID_macro1 | ID_macro2 | ID_macro3 | ID_macro4
  | ID_mix | ID_inputGainDb | ID_outputGainDb | ID_bypass.

#[export] Instance ParamID_eq_dec : EqDecision ParamID.
Proof. solve_decision. Defined.

Module SceneParam.
(** [enum Index] *)
Definition filtMode : Z := 0.
Definition filtCutoff : Z := 1.
Definition filtReso : Z := 2.
Definition driveAmt : Z := 3.
Definition driveTone : Z := 4.
Definition delaySync : Z := 5.
Definition delayFb : Z := 6.
Definition delayTone : Z := 7.
Definition delayWidth : Z := 8.
Definition delayPingP : Z := 9.
Definition revSize : Z := 10.
Definition revDamp : Z := 11.
Definition revPreDelay : Z := 12.
Definition revWidth : Z := 13.
Definition kCount : Z := 14.

Record Info {F : Type} := mkInfo {
  id : ParamID;
  minVal : F;
  maxVal : F;
  defaultVal : F;
  isDiscrete : bool
}.
Arguments Info : clear implicits.

Section Table.
Context {F : Type} `{FloatArith F}.

(** The canonical info table, in the order of [Index]. *)
Definition info : list (Info F) := [
  mkInfo F ID_filtMode    (fofZ 0)  (fofZ 2)     (fofZ 0)     true;
  mkInfo F ID_filtCutoff  (fofZ 20) (fofZ 20000) (fofZ 8000)  false;
  mkInfo F ID_filtReso    (fofZ 0)  (fofZ 1)     (flit 2 10)  false;
  mkInfo F ID_driveAmt    (fofZ 0)  (fofZ 1)     (fofZ 0)     false;
  mkInfo F ID_driveTone   (fofZ 0)  (fofZ 1)     (flit 5 10)  false;
  mkInfo F ID_delaySync   (fofZ 0)  (fofZ 7)     (fofZ 2)     true;
  mkInfo F ID_delayFb     (fofZ 0)  (flit 95 100) (flit 25 100) false;
  mkInfo F ID_delayTone   (fofZ 0)  (fofZ 1)     (flit 5 10)  false;
  mkInfo F ID_delayWidth  (fofZ 0)  (fofZ 1)     (flit 7 10)  false;
  mkInfo F ID_delayPingP  (fofZ 0)  (fofZ 1)     (fofZ 0)     true;
  mkInfo F ID_revSize     (fofZ 0)  (fofZ 1)     (flit 35 100) false;
  mkInfo F ID_revDamp     (fofZ 0)  (fofZ 1)     (flit 5 10)  false;
  mkInfo F ID_revPreDelay (fofZ 0)  (fofZ 200)   (fofZ 10)    false;
  mkInfo F ID_revWidth    (fofZ 0)  (fofZ 1)     (flit 8 10)  false
].

(** [info[i]] for [i] below [kCount]. *)
Definition infoAt (i : nat) : Info F :=
  default (mkInfo F ID_filtMode (fofZ 0) (fofZ 0) (fofZ 0) true) (info !! i).
End Table.
End SceneParam.

Definition kNumScenes : Z := 8.

(** [struct SceneParams { float values[SceneParam::kCount] {}; }] *)
Record SceneParams {F : Type} := mkSceneParams { values : list F }.
Arguments SceneParams : clear implicits.
Arguments mkSceneParams {F} _.

Section Scene.
Context {F : Type} `{FloatArith F}.

Definition nCount : nat := Z.to_nat SceneParam.kCount.

(** A value-initialised [SceneParams]: fourteen zeros. *)
Definition zeroScene : SceneParams F := mkSceneParams (replicate nCount (fofZ 0)).

(** [s.values[i]] and the assignment [s.values[i] = v]. *)
Definition getv (s : SceneParams F) (i : nat) : F := at_ (values s) i.
Definition setv (s : SceneParams F) (i : nat) (v : F) : SceneParams F :=
  mkSceneParams (<[i := v]> (values s)).

Definition createDefault : SceneParams F :=
  forLoop nCount
    (fun i s => setv s i (SceneParam.defaultVal (SceneParam.infoAt i)))
    zeroScene.

Definition morph (a b : SceneParams F) (t : F) : SceneParams F :=
  forLoop nCount
    (fun i result =>
       let inf := SceneParam.infoAt i in
       if SceneParam.isDiscrete inf
       then setv result i (if t <. flit 5 10 then getv a i else getv b i)
       else setv result i (getv a i ⊕ t ⊗ (getv b i ⊖ getv a i)))
    zeroScene.

Definition clampToRanges (s : SceneParams F) : SceneParams F :=
  forLoop nCount
    (fun i s =>
       let inf := SceneParam.infoAt i in
       setv s i (clamp (getv s i) (SceneParam.minVal inf) (SceneParam.maxVal inf)))
    s.

(** A value lies within the range of field [i]. *)
Definition inRangeOf (i : nat) (v : F) : bool :=
  let inf := SceneParam.infoAt i in
  (SceneParam.minVal inf <=. v) && (v <=. SceneParam.maxVal inf).

(** All fourteen values of a snapshot lie within their ranges. *)
Definition sceneInRange (s : SceneParams F) : bool :=
  (length (values s) =? nCount)%nat
  && forallb (fun i => inRangeOf i (getv s i)) (seq 0 nCount).
End Scene.

(** ** [Source/MacroEngine.h] *)

(** [enum class MacroCurve], with its trailing [kCount] enumerator. *)
Inductive MacroCurve := linear | exponential | logarithmic | sCurve | curve_kCount.

(** [static_cast<MacroCurve> (n)] *)
Definition curveOfInt (n : Z) : MacroCurve :=
  match n with
  | 0 => linear
  | 1 => exponential
  | 2 => logarithmic
  | 3 => sCurve
  | _ => curve_kCount
  end.

(** [static_cast<int> (MacroCurve::kCount)] *)
Definition curveCount : Z := 4.

Record MacroTarget {F : Type} := mkTarget {
  sceneParamIndex : Z;
  amount : F;
  curve : MacroCurve
}.
Arguments MacroTarget : clear implicits.
Arguments mkTarget {F} _ _ _.

Definition kNumMacros : Z := 4.

(** [class MacroEngine]: its only member is the array of target lists. *)
Record MacroEngine {F : Type} := mkEngine {
  mappings_ : list (list (MacroTarget F))
}.
Arguments MacroEngine : clear implicits.
Arguments mkEngine {F} _.

Section Macro.
Context {F : Type} `{FloatArith F}.

Definition applyMacroCurve (x : F) (c : MacroCurve) : F :=
  let x := clamp x (fofZ 0) (fofZ 1) in
  match c with
  | exponential => x ⊗ x
  | logarithmic => fsqrt x
  | sCurve => x ⊗ x ⊗ (fofZ 3 ⊖ fofZ 2 ⊗ x)
  | linear | curve_kCount => x
  end.

Definition setMappings (e : MacroEngine F) (macroIndex : Z)
    (targets : list (MacroTarget F)) : MacroEngine F :=
  if (0 <=? macroIndex) && (macroIndex <? kNumMacros)
  then mkEngine (<[Z.to_nat macroIndex := targets]> (mappings_ e))
  else e.

(** [mappings_[m]] *)
Definition getMappings (e : MacroEngine F) (macroIndex : nat) : list (MacroTarget F) :=
  default [] (mappings_ e !! macroIndex).

Definition clearAllMappings (e : MacroEngine F) : MacroEngine F :=
  mkEngine (map (fun _ => []) (mappings_ e)).

Definition getTargetCount (e : MacroEngine F) (macroIndex : Z) : Z :=
  if (macroIndex <? 0) || (kNumMacros <=? macroIndex) then 0
  else Z.of_nat (length (getMappings e (Z.to_nat macroIndex))).

(** The body of the inner loop of [apply]: one target of a macro whose
    raw value is [rawMacroVal]. *)
Definition applyTarget (rawMacroVal : F) (params : SceneParams F)
    (target : MacroTarget F) : SceneParams F :=
  let idx := sceneParamIndex target in
  if (idx <? 0) || (SceneParam.kCount <=? idx) then params
  else
    let i := Z.to_nat idx in
    let inf := SceneParam.infoAt i in
    if SceneParam.isDiscrete inf then params
    else
      let curvedVal := applyMacroCurve rawMacroVal (curve target) in
      let range := SceneParam.maxVal inf ⊖ SceneParam.minVal inf in
      let offset := curvedVal ⊗ amount target ⊗ range in
      setv params i
        (clamp (getv params i ⊕ offset)
               (SceneParam.minVal inf) (SceneParam.maxVal inf)).

(** The body of the outer loop of [apply]: macro [m]. *)
Definition applyMacro (e : MacroEngine F) (macroValues : list F)
    (m : nat) (params : SceneParams F) : SceneParams F :=
  let rawMacroVal := at_ macroValues m in
  if rawMacroVal <. flit 1 1000 then params
  else fold_left (applyTarget rawMacroVal) (getMappings e m) params.

Definition apply (e : MacroEngine F) (params : SceneParams F)
    (macroValues : list F) : SceneParams F :=
  forLoop (Z.to_nat kNumMacros) (applyMacro e macroValues) params.

Definition initDefaultMappings : MacroEngine F := mkEngine [
  [ mkTarget SceneParam.filtCutoff (flit 5 10) linear;
    mkTarget SceneParam.filtReso (flit 3 10) linear ];
  [ mkTarget SceneParam.driveAmt (flit 7 10) linear;
    mkTarget SceneParam.driveTone (flit (-3) 10) linear ];
  [ mkTarget SceneParam.delayFb (flit 4 10) linear;
    mkTarget SceneParam.revSize (flit 5 10) linear;
    mkTarget SceneParam.revPreDelay (flit 2 10) linear ];
  [ mkTarget SceneParam.delayWidth (flit 3 10) linear;
    mkTarget SceneParam.revWidth (flit 2 10) linear ]
].
End Macro.

(** ** The scene handling of [Source/PluginProcessor.cpp] *)

(** A persisted [<Scene>] element: its [index] attribute, if any, and
    for each parameter name the attribute of that name, if any.  An
    attribute value is taken after the cast of [getDoubleAttribute] to
    [float]. *)
Record SceneXml {F : Type} := mkSceneXml {
  sceneIndexAttr : option Z;
  sceneAttr : ParamID -> option F
}.
Arguments SceneXml : clear implicits.
Arguments mkSceneXml {F} _ _.

(** A persisted [<Target>] element.  [paramAttr] is the parameter its
    [param] attribute names, or [None] when the name is none of the
    identifiers. *)
Record TargetXml {F : Type} := mkTargetXml {
  paramAttr : option ParamID;
  amountAttr : F;
  curveAttr : option Z
}.
Arguments TargetXml : clear implicits.
Arguments mkTargetXml {F} _ _ _.

(** A persisted [<Macro>] element. *)
Record MacroXml {F : Type} := mkMacroXml {
  macroIndexAttr : option Z;
  macroTargets : list (TargetXml F)
}.
Arguments MacroXml : clear implicits.
Arguments mkMacroXml {F} _ _.

(** The document handed to [setStateInformation], after XML parsing. *)
Inductive Document {F : Type} :=
  | PresetDoc (apvtsXml : option (ParamID -> F))
              (scenesXml : option (list (SceneXml F)))
              (macrosXml : option (list (MacroXml F)))
  | LegacyDoc (apvtsState : ParamID -> F)
  | OtherDoc.
Arguments Document : clear implicits.

(** The members of [MacroMorphFXProcessor] that the scene pipeline uses;
    [apvts] gives the raw value of each automatable parameter. *)
Record Processor {F : Type} := mkProcessor {
  apvts : ParamID -> F;
  scenes_ : list (SceneParams F);
  macroEngine_ : MacroEngine F
}.
Arguments Processor : clear implicits.
Arguments mkProcessor {F} _ _ _.

Section ProcessorOps.
Context {F : Type} `{FloatArith F}.

Definition getRawParam (p : Processor F) (name : ParamID) : F := apvts p name.

(** [scenes_[i]] *)
Definition sceneAt (scenes : list (SceneParams F)) (i : nat) : SceneParams F :=
  default zeroScene (scenes !! i).

Definition withScenes (p : Processor F) (scenes : list (SceneParams F)) : Processor F :=
  mkProcessor (apvts p) scenes (macroEngine_ p).

Definition setSceneParam (p : Processor F) (sceneIndex paramIndex : Z) (value : F)
    : Processor F :=
  if (0 <=? sceneIndex) && (sceneIndex <? kNumScenes)
     && (0 <=? paramIndex) && (paramIndex <? SceneParam.kCount)
  then
    let i := Z.to_nat sceneIndex in
    withScenes p
      (<[i := setv (sceneAt (scenes_ p) i) (Z.to_nat paramIndex) value]> (scenes_ p))
  else p.

Definition storeScene (p : Processor F) (sceneIndex : Z) : Processor F :=
  if (sceneIndex <? 0) || (kNumScenes <=? sceneIndex) then p
  else
    let i := Z.to_nat sceneIndex in
    withScenes p
      (<[i := forLoop nCount
                (fun k scene =>
                   setv scene k (getRawParam p (SceneParam.id (SceneParam.infoAt k))))
                (sceneAt (scenes_ p) i)]> (scenes_ p)).

(** The scene selectors as [processBlock] and [storeCurrentToScene]
    read them. *)
Definition sceneAIdx (p : Processor F) : Z :=
  clampZ (ftoInt (getRawParam p ID_sceneA)) 0 (kNumScenes - 1).
Definition sceneBIdx (p : Processor F) : Z :=
  clampZ (ftoInt (getRawParam p ID_sceneB)) 0 (kNumScenes - 1).

(** Steps 1 and 2 of the scene pipeline of [processBlock], repeated
    verbatim in [storeCurrentToScene]: morph the two selected scenes,
    then apply the macro offsets. *)
Definition morphAndMacros (p : Processor F) : SceneParams F :=
  let morphVal := getRawParam p ID_morph in
  let morphed := morph (sceneAt (scenes_ p) (Z.to_nat (sceneAIdx p)))
                       (sceneAt (scenes_ p) (Z.to_nat (sceneBIdx p)))
                       morphVal in
  let macroValues := [ getRawParam p ID_macro1; getRawParam p ID_macro2;
                       getRawParam p ID_macro3; getRawParam p ID_macro4 ] in
  apply (macroEngine_ p) morphed macroValues.

Definition storeCurrentToScene (p : Processor F) (sceneIndex : Z) : Processor F :=
  if (sceneIndex <? 0) || (kNumScenes <=? sceneIndex) then p
  else withScenes p (<[Z.to_nat sceneIndex := morphAndMacros p]> (scenes_ p)).

(** *** [setStateInformation] *)

(** One [<Scene>] element of the [Scenes] section. *)
Definition restoreScene (scenes : list (SceneParams F)) (x : SceneXml F)
    : list (SceneParams F) :=
  let idx := default (-1) (sceneIndexAttr x) in
  if (idx <? 0) || (kNumScenes <=? idx) then scenes
  else
    let i := Z.to_nat idx in
    forLoop nCount
      (fun k scenes =>
         match sceneAttr x (SceneParam.id (SceneParam.infoAt k)) with
         | Some v => <[i := setv (sceneAt scenes i) k v]> scenes
         | None => scenes
         end)
      scenes.

(** The search for the index of a parameter name in the info table. *)
Definition findSceneParam (name : ParamID) : option nat :=
  fst <$> list_find (fun inf : SceneParam.Info F => SceneParam.id inf = name)
                    SceneParam.info.

(** One [<Target>] element, appended to the list being built. *)
Definition restoreTarget (targets : list (MacroTarget F)) (x : TargetXml F)
    : list (MacroTarget F) :=
  let curveInt := default 0 (curveAttr x) in
  let curve := curveOfInt (clampZ curveInt 0 (curveCount - 1)) in
  match paramAttr x with
  | Some name =>
      match findSceneParam name with
      | Some k => targets ++ [mkTarget (Z.of_nat k) (amountAttr x) curve]
      | None => targets
      end
  | None => targets
  end.

(** One [<Macro>] element of the [MacroMappings] section. *)
Definition restoreMacro (e : MacroEngine F) (x : MacroXml F) : MacroEngine F :=
  let mIdx := default (-1) (macroIndexAttr x) in
  if (mIdx <? 0) || (kNumMacros <=? mIdx) then e
  else setMappings e mIdx (fold_left restoreTarget (macroTargets x) []).

Definition setStateInformation (doc : option (Document F)) (p : Processor F)
    : Processor F :=
  match doc with
  | None => p
  | Some (PresetDoc apvtsXml scenesXml macrosXml) =>
      let apvts' := default (apvts p) apvtsXml in
      let scenes' :=
        match scenesXml with
        | Some l => fold_left restoreScene l (scenes_ p)
        | None => scenes_ p
        end in
      let engine' :=
        match macrosXml with
        | Some l => fold_left restoreMacro l (clearAllMappings (macroEngine_ p))
        | None => macroEngine_ p
        end in
      mkProcessor apvts' scenes' engine'
  | Some (LegacyDoc apvtsState) =>
      mkProcessor apvtsState (scenes_ p) (macroEngine_ p)
  | Some OtherDoc => p
  end.

(** The invariant of the scene bank: eight snapshots, each within the
    ranges of the info table. *)
Definition bankInRange (scenes : list (SceneParams F)) : bool :=
  (length scenes =? Z.to_nat kNumScenes)%nat && forallb sceneInRange scenes.
End ProcessorOps.

(** ** [Source/DSP/DelayModule.h] *)

(** The delay stage computes on [float], with the tempo arithmetic in
    [double]; it is embedded at single and double precision only. *)

(** The components of the JUCE library and of the C++ library whose code
    is not part of the plugin, taken as parameters: the state-variable
    filter of the feedback path, the linear value smoother of the delay
    time, and [std::pow]. *)
Class JuceDsp := {
  ToneFilter : Type;
  (** [prepare], [setType], [setCutoffFrequency], [setResonance] of
      [DelayModule::prepare], from the sample rate *)
  prepareTone : float -> ToneFilter;
  resetTone : ToneFilter -> ToneFilter;
  setCutoffFrequency : ToneFilter -> float -> ToneFilter;
  (** [processSample (channel, input)]: the output sample and the
      filter with its memory advanced by one sample *)
  processSample : ToneFilter -> nat -> float -> float * ToneFilter;
  SmoothedValue : Type;
  (** [reset (sampleRate, 0.05)] then [setCurrentAndTargetValue (v)] *)
  resetSmoothed : float -> float -> SmoothedValue;
  setTargetValue : SmoothedValue -> float -> SmoothedValue;
  getNextValue : SmoothedValue -> float * SmoothedValue;
  powf : float -> float -> float
}.

Record DelayModule `{JuceDsp} := mkDelay {
  sampleRate : float;
  numChannels : Z;
  bufSize_ : Z;
  delayLine : list (list float);
  writePos : list Z;
  fb : float;
  width : float;
  isPingPong : bool;
  toneLPF : list ToneFilter;
  smoothDelay_ : SmoothedValue
}.
Arguments mkDelay {_} _ _ _ _ _ _ _ _ _ _.

(** [std::floor] on a [float]. *)
Definition floorF (x : float) : float :=
  match x with
  | S754_finite s m e =>
      let z := match e with
               | Z0 => if s then Zneg m else Zpos m
               | Zpos p => (if s then Zneg m else Zpos m) * 2 ^ e
               | Zneg p => (if s then Zneg m else Zpos m) / 2 ^ Zpos p
               end in
      if z =? 0 then S754_zero s else B32.ofZ z
  | _ => x
  end.

Section Delay.
Context `{JuceDsp}.

(** Reading [arr[i]] from an array of [int]. *)
Definition atZ (l : list Z) (i : nat) : Z := default 0 (l !! i).

(** [prepare (spec)] on a newly constructed module, from
    [spec.sampleRate] and [spec.numChannels]; the members [prepare] does
    not assign keep their initialisers. *)
Definition prepare (specSampleRate : float) (specNumChannels : Z) : DelayModule :=
  let bufSize := castToInt (B64.mul specSampleRate (B64.ofZ 2)) in
  mkDelay specSampleRate specNumChannels bufSize
          [replicate (Z.to_nat bufSize) (fofZ 0); replicate (Z.to_nat bufSize) (fofZ 0)]
          [0; 0]
          (flit 25 100) (flit 7 10) false
          [prepareTone specSampleRate; prepareTone specSampleRate]
          (resetSmoothed specSampleRate (fofZ (bufSize / 4))).

Definition noteBeats : list float := [
  flit 1 8; flit 1 4; flit 1 2; fofZ 1; fofZ 2; fofZ 4; flit 3 4; flit 3 2
].

(** The delay time in samples that [setParameters] hands to the
    smoother: [beats * (60.0 / safeBpm) * sampleRate] in [double],
    cast to [float], clamped to the buffer. *)
Definition newDelayOf (d : DelayModule) (syncIndex : Z) (bpm : float) : float :=
  let idx := clampZ syncIndex 0 7 in
  let beats := at_ noteBeats (Z.to_nat idx) in
  let safeBpm := if SFltb (B64.ofZ 20) bpm then bpm else B64.ofZ 120 in
  let newDelay :=
    B64.toFloat
      (B64.mul (B64.mul (B64.ofFloat beats) (B64.div (B64.ofZ 60) safeBpm))
               (sampleRate d)) in
  clamp newDelay (fofZ 1) (fofZ (bufSize_ d - 1)).

Definition setParameters (d : DelayModule) (syncIndex : Z)
    (feedback tone01 width01 : float) (pingPong : bool) (bpm : float)
    : DelayModule :=
  let fb' := fmin feedback (flit 95 100) in
  let newDelay := newDelayOf d syncIndex bpm in
  let toneCutoff := fofZ 500 ⊗ powf (fofZ 40) tone01 in
  mkDelay (sampleRate d) (numChannels d) (bufSize_ d) (delayLine d) (writePos d)
          fb' width01 pingPong
          (forLoop 2 (fun ch lpf =>
                        match lpf !! ch with
                        | Some f => <[ch := setCutoffFrequency f toneCutoff]> lpf
                        | None => lpf
                        end) (toneLPF d))
          (setTargetValue (smoothDelay_ d) newDelay).

(** The fractional read of channel [ch], [currentDelay] samples behind
    the write cursor. *)
Definition readDelayed (d : DelayModule) (currentDelay : float) (ch : nat) : float :=
  let line := default [] (delayLine d !! ch) in
  let readPosF := fofZ (atZ (writePos d) ch) ⊖ currentDelay in
  let readPosF :=
    if readPosF <. fofZ 0 then readPosF ⊕ fofZ (bufSize_ d) else readPosF in
  let idx0 := castToInt (floorF readPosF) in
  let frac := readPosF ⊖ floorF readPosF in
  let idx0 := if idx0 <? 0 then idx0 + bufSize_ d else idx0 in
  let idx0 := if bufSize_ d <=? idx0 then idx0 - bufSize_ d else idx0 in
  let idx1 := if bufSize_ d <=? idx0 + 1 then 0 else idx0 + 1 in
  at_ line (Z.to_nat idx0) ⊗ (fofZ 1 ⊖ frac) ⊕ at_ line (Z.to_nat idx1) ⊗ frac.

(** The feedback sample of channel [ch] and the tone filter of the
    channel afterwards.  The filter is run on the channel's own delayed
    sample first; under ping-pong it is then run again on the other
    channel's delayed sample. *)
Definition feedbackOf (d : DelayModule) (delayed : list float) (channels : Z)
    (ch : nat) (lpf : ToneFilter) : float * ToneFilter :=
  let '(filteredFeedback, lpf1) := processSample lpf ch (at_ delayed ch) in
  if isPingPong d && (channels =? 2)
  then
    let otherCh := (1 - ch)%nat in
    let '(y, lpf2) := processSample lpf1 ch (at_ delayed otherCh) in
    (y ⊗ fb d, lpf2)
  else (filteredFeedback ⊗ fb d, lpf1).

(** The body of the second channel loop of [process], at sample [s] of
    the audio buffer [buffer] (one list of samples per channel). *)
Definition processChannel (delayed : list float) (channels : Z) (s : nat)
    (ch : nat) (st : DelayModule * list (list float))
    : DelayModule * list (list float) :=
  let '(d, buffer) := st in
  match toneLPF d !! ch with
  | None => st
  | Some lpf =>
      let data := default [] (buffer !! ch) in
      let '(feedbackSample, lpf') := feedbackOf d delayed channels ch lpf in
      let wp := atZ (writePos d) ch in
      let line' := <[Z.to_nat wp := at_ data s ⊕ feedbackSample]>
                     (default [] (delayLine d !! ch)) in
      let wetSample :=
        if (width d <. fofZ 1) && (channels =? 2)
        then
          let otherCh := (1 - ch)%nat in
          let monoDelay := (at_ delayed ch ⊕ at_ delayed otherCh) ⊗ flit 5 10 in
          monoDelay ⊕ width d ⊗ (at_ delayed ch ⊖ monoDelay)
        else at_ delayed ch in
      let data' := <[s := at_ data s ⊕ wetSample]> data in
      let wp' := if bufSize_ d <=? wp + 1 then 0 else wp + 1 in
      (mkDelay (sampleRate d) (numChannels d) (bufSize_ d)
               (<[ch := line']> (delayLine d))
               (<[ch := wp']> (writePos d))
               (fb d) (width d) (isPingPong d)
               (<[ch := lpf']> (toneLPF d))
               (smoothDelay_ d),
       <[ch := data']> buffer)
  end.

(** The body of the sample loop of [process]. *)
Definition processSampleAt (s : nat) (st : DelayModule * list (list float))
    : DelayModule * list (list float) :=
  let '(d, buffer) := st in
  let channels := Z.min (Z.of_nat (length buffer)) 2 in
  let '(currentDelay, smooth') := getNextValue (smoothDelay_ d) in
  let d1 := mkDelay (sampleRate d) (numChannels d) (bufSize_ d) (delayLine d)
                    (writePos d) (fb d) (width d) (isPingPong d) (toneLPF d)
                    smooth' in
  let delayed :=
    forLoop (Z.to_nat channels)
      (fun ch del => <[ch := readDelayed d1 currentDelay ch]> del)
      [fofZ 0; fofZ 0] in
  forLoop (Z.to_nat channels) (processChannel delayed channels s) (d1, buffer).

Definition process (d : DelayModule) (buffer : list (list float))
    : DelayModule * list (list float) :=
  let numSamples := length (default [] (buffer !! 0%nat)) in
  forLoop numSamples processSampleAt (d, buffer).
End Delay.

(** ** Definitions used by the statements *)

(** A [float] that is a number: neither NaN nor an infinity. *)
Definition isFiniteF (x : float) : bool :=
  match x with
  | S754_zero _ | S754_finite _ _ _ => true
  | _ => false
  end.

Definition isNaN (x : float) : bool :=
  match x with
  | S754_nan => true
  | _ => false
  end.

(** The four curve kinds of the design document and the functions it
    gives for them, over the reals. *)
Inductive CurveKind := Linear | Exponential | Logarithmic | SCurve.

Definition kindOf (k : CurveKind) : MacroCurve :=
  match k with
  | Linear => linear
  | Exponential => exponential
  | Logarithmic => logarithmic
  | SCurve => sCurve
  end.

Definition curveFn (k : CurveKind) (x : R) : R :=
  match k with
  | Linear => x
  | Exponential => x * x
  | Logarithmic => sqrt x
  | SCurve => 3 * (x * x) - 2 * (x * x * x)
  end%R.

(** The bank of eight default scenes. *)
Definition defaultBank {F : Type} `{FloatArith F} : list (SceneParams F) :=
  replicate (Z.to_nat kNumScenes) createDefault.

(** The rational number a finite [float] or [double] stands for. *)
Definition SF2Q (x : float) : Q :=
  match x with
  | S754_finite s m e =>
      Qred ((if s then Qopp else fun q => q) (inject_Z (Zpos m) * Qpower (2 # 1) e)%Q)
  | _ => 0%Q
  end.

(** The delay time of the design document, in exact arithmetic:
    [beats * (60 / bpm) * sampleRate] clamped to [1, capacity - 1], with
    120 in place of a tempo of 20 or less. *)
Definition specBeats : list Q := [1 # 8; 1 # 4; 1 # 2; 1; 2; 4; 3 # 4; 3 # 2]%Q.

Definition specDelaySamples (syncIndex : nat) (bpm sampleRateHz capacity : Q) : Q :=
  let bpm' := if Qle_bool bpm 20 then 120%Q else bpm in
  let raw := (nth syncIndex specBeats 0 * (60 / bpm') * sampleRateHz)%Q in
  Qred (if Qle_bool raw 1 then 1
        else if Qle_bool (capacity - 1) raw then capacity - 1 else raw)%Q.

(** Stand-ins for the library components, to run the delay stage on
    concrete inputs: a one-pole low-pass [y = s + (x - s) / 2] whose
    memory [s] is its last output, and a smoother that has settled on
    its value. *)
Definition onePoleDsp : JuceDsp := {|
  ToneFilter := float;
  prepareTone := fun _ => fofZ 0;
  resetTone := fun _ => fofZ 0;
  setCutoffFrequency := fun f _ => f;
  processSample := fun s _ x => let y := s ⊕ (x ⊖ s) ⊗ flit 1 2 in (y, y);
  SmoothedValue := float;
  resetSmoothed := fun _ v => v;
  setTargetValue := fun _ v => v;
  getNextValue := fun v => (v, v);
  powf := fun _ _ => fofZ 1
|}.

(** A processor holding the default bank, the default mappings and all
    host parameters at zero. *)
Definition defaultProcessor {F : Type} `{FloatArith F} : Processor F :=
  mkProcessor (fun _ => fofZ 0) defaultBank initDefaultMappings.

(** The [<Scene>] elements a document carries, if any. *)
Definition docScenes {F : Type} (doc : option (Document F)) : list (SceneXml F) :=
  match doc with
  | Some (PresetDoc _ (Some l) _) => l
  | _ => []
  end.

(** ** Further code of [Source/PluginProcessor.cpp] *)

(** [static_cast<int> (target.curve)] *)
Definition curveToInt (c : MacroCurve) : Z :=
  match c with
  | linear => 0
  | exponential => 1
  | logarithmic => 2
  | sCurve => 3
  | curve_kCount => 4
  end.

Section StateOut.
Context {F : Type} `{FloatArith F}.

(** The [<Scene>] element [getStateInformation] writes for scene [i]:
    the [index] attribute, then one attribute per row of the info table.
    The [double] written is the value of the [float]; the text form of
    an attribute is taken to carry it unchanged. *)
Definition sceneToXml (i : nat) (s : SceneParams F) : SceneXml F :=
  mkSceneXml (Some (Z.of_nat i))
    (forLoop nCount
       (fun k attrs name =>
          if decide (name = SceneParam.id (SceneParam.infoAt (F:=F) k))
          then Some (getv s k) else attrs name)
       (fun _ => None)).

(** The [<Target>] element written for a target.  The source indexes
    the info table with [target.sceneParamIndex] unchecked; outside the
    table the behaviour is undefined and the model reads [infoAt]'s
    filler row. *)
Definition targetToXml (tg : MacroTarget F) : TargetXml F :=
  mkTargetXml
    (Some (SceneParam.id (SceneParam.infoAt (F:=F) (Z.to_nat (sceneParamIndex tg)))))
    (amount tg)
    (Some (curveToInt (curve tg))).

Definition macroToXml (e : MacroEngine F) (m : nat) : MacroXml F :=
  mkMacroXml (Some (Z.of_nat m)) (map targetToXml (getMappings e m)).

(** The document [getStateInformation] produces: the parameter state,
    the eight scenes and the four macro mappings.  The parameter state
    is written by the library ([copyState], [createXml]); the document
    carries it as the values [setStateInformation] hands back to the
    library. *)
Definition getStateInformation (p : Processor F) : Document F :=
  PresetDoc
    (Some (apvts p))
    (Some (map (fun i => sceneToXml i (sceneAt (scenes_ p) i))
               (seq 0 (Z.to_nat kNumScenes))))
    (Some (map (macroToXml (macroEngine_ p)) (seq 0 (Z.to_nat kNumMacros)))).

(** [getScene (index)]: [scenes_[std::clamp (index, 0, kNumScenes - 1)]]. *)
Definition getScene (p : Processor F) (index : Z) : SceneParams F :=
  sceneAt (scenes_ p) (Z.to_nat (clampZ index 0 (kNumScenes - 1))).
End StateOut.

(** A [double] literal [n/d] of the source. *)
Definition dlit (n d : Z) : float := B64.div (B64.ofZ n) (B64.ofZ d).

(** [getSceneParamSmoothTimeSec], in seconds as a [double]. *)
Definition getSceneParamSmoothTimeSec (paramIndex : Z) : float :=
  match paramIndex with
  | 0 => B64.ofZ 0
  | 1 => dlit 20 1000
  | 2 => dlit 30 1000
  | 3 => dlit 30 1000
  | 4 => dlit 30 1000
  | 5 => B64.ofZ 0
  | 6 => dlit 50 1000
  | 7 => dlit 30 1000
  | 8 => dlit 30 1000
  | 9 => B64.ofZ 0
  | 10 => dlit 100 1000
  | 11 => dlit 30 1000
  | 12 => dlit 100 1000
  | 13 => dlit 30 1000
  | _ => B64.ofZ 0
  end.

(** ** [Source/PresetData.h] *)

Definition kNumFactoryPresets : Z := 8.

(** [struct FactoryMacroConfig]: a count and an array of four targets. *)
Record FactoryMacroConfig {F : Type} := mkMacroConfig {
  numTargets : Z;
  targets : list (MacroTarget F)
}.
Arguments FactoryMacroConfig : clear implicits.
Arguments mkMacroConfig {F} _ _.

Record FactoryPreset {F : Type} := mkPreset {
  presetScenes : list (SceneParams F);
  presetMacros : list (FactoryMacroConfig F)
}.
Arguments FactoryPreset : clear implicits.
Arguments mkPreset {F} _ _.

Section Presets.
Context {F : Type} `{FloatArith F}.

Definition transformScenes (scenes : list (SceneParams F)) (paramIdx : Z)
    (addAmount mulAmount : F) : list (SceneParams F) :=
  let i := Z.to_nat paramIdx in
  let inf := SceneParam.infoAt i in
  map (fun s =>
         setv s i (clamp (getv s i ⊗ mulAmount ⊕ addAmount)
                         (SceneParam.minVal inf) (SceneParam.maxVal inf)))
      scenes.

(** [s.values[idx] = v] for a field named by its [SceneParam::Index]. *)
Definition setField (s : SceneParams F) (idx : Z) (v : F) : SceneParams F :=
  setv s (Z.to_nat idx) v.

Definition makeBaseScenes : list (SceneParams F) :=
  let d := createDefault in
  [ d;
    setField (setField (setField (setField (setField d
      SceneParam.filtCutoff (fofZ 2000))
      SceneParam.filtReso (flit 5 10))
      SceneParam.driveAmt (flit 4 10))
      SceneParam.driveTone (flit 3 10))
      SceneParam.revSize (flit 7 10);
    setField (setField (setField (setField (setField d
      SceneParam.filtMode (fofZ 2))
      SceneParam.filtCutoff (fofZ 500))
      SceneParam.delaySync (fofZ 4))
      SceneParam.delayFb (flit 6 10))
      SceneParam.delayWidth (fofZ 1);
    setField (setField (setField (setField (setField d
      SceneParam.revSize (flit 85 100))
      SceneParam.revWidth (fofZ 1))
      SceneParam.revPreDelay (fofZ 50))
      SceneParam.delayWidth (fofZ 1))
      SceneParam.delayPingP (fofZ 1);
    setField (setField (setField (setField (setField d
      SceneParam.filtMode (fofZ 1))
      SceneParam.filtCutoff (fofZ 1200))
      SceneParam.filtReso (flit 7 10))
      SceneParam.driveAmt (flit 8 10))
      SceneParam.driveTone (flit 7 10);
    setField (setField (setField (setField (setField d
      SceneParam.delaySync (fofZ 3))
      SceneParam.delayFb (flit 7 10))
      SceneParam.delayTone (flit 25 100))
      SceneParam.delayPingP (fofZ 1))
      SceneParam.revSize (flit 5 10);
    setField (setField (setField (setField (setField d
      SceneParam.filtCutoff (fofZ 12000))
      SceneParam.revSize (flit 9 10))
      SceneParam.revDamp (flit 2 10))
      SceneParam.revWidth (fofZ 1))
      SceneParam.revPreDelay (fofZ 30);
    setField (setField (setField (setField (setField (setField d
      SceneParam.filtMode (fofZ 1))
      SceneParam.filtCutoff (fofZ 1500))
      SceneParam.filtReso (flit 6 10))
      SceneParam.driveAmt (flit 2 10))
      SceneParam.delayFb (fofZ 0))
      SceneParam.revSize (flit 1 10) ].

(** A value-initialised [MacroTarget] and the aggregate [{ index, amount }],
    whose curve is the member's default. *)
Definition noTarget : MacroTarget F := mkTarget 0 (fofZ 0) linear.
Definition tgt (idx : Z) (amt : F) : MacroTarget F := mkTarget idx amt linear.

(** [c.numTargets = n; c.targets[0] = t0; c.targets[1] = t1; ...]. *)
Definition setTargets (c : FactoryMacroConfig F) (n : Z) (ts : list (MacroTarget F))
    : FactoryMacroConfig F :=
  mkMacroConfig n
    (fold_left (fun acc kt => <[fst kt := snd kt]> acc)
               (imap (fun k t => (k, t)) ts) (targets c)).

Definition emptyMacroConfig : FactoryMacroConfig F :=
  mkMacroConfig 0 [noTarget; noTarget; noTarget; noTarget].

Definition makeDefaultMacros : list (FactoryMacroConfig F) :=
  [ setTargets emptyMacroConfig 2
      [tgt SceneParam.filtCutoff (flit 5 10); tgt SceneParam.filtReso (flit 3 10)];
    setTargets emptyMacroConfig 2
      [tgt SceneParam.driveAmt (flit 7 10); tgt SceneParam.driveTone (flit (-3) 10)];
    setTargets emptyMacroConfig 3
      [tgt SceneParam.delayFb (flit 4 10); tgt SceneParam.revSize (flit 5 10);
       tgt SceneParam.revPreDelay (flit 2 10)];
    setTargets emptyMacroConfig 2
      [tgt SceneParam.delayWidth (flit 3 10); tgt SceneParam.revWidth (flit 2 10)] ].

(** [macros[m].numTargets = n; macros[m].targets[...] = ...] on an array
    of configurations. *)
Definition setMacro (macros : list (FactoryMacroConfig F)) (m : nat) (n : Z)
    (ts : list (MacroTarget F)) : list (FactoryMacroConfig F) :=
  match macros !! m with
  | Some c => <[m := setTargets c n ts]> macros
  | None => macros
  end.

Definition createFactoryPresets : list (FactoryPreset F) :=
  let base := makeBaseScenes in
  let defaultMacros := makeDefaultMacros in
  let one := fofZ 1 in
  let zero := fofZ 0 in
  [ (* 0: Init *)
    mkPreset base defaultMacros;
    (* 1: Dark Ambience *)
    mkPreset
      (transformScenes (transformScenes (transformScenes (transformScenes
        (transformScenes base SceneParam.filtCutoff zero (flit 35 100))
        SceneParam.revSize (flit 3 10) one)
        SceneParam.revDamp (flit 15 100) one)
        SceneParam.driveTone zero (flit 5 10))
        SceneParam.delayTone zero (flit 5 10))
      (setMacro
         (setMacro defaultMacros 0 2
            [tgt SceneParam.filtCutoff (flit 8 10); tgt SceneParam.revDamp (flit (-3) 10)])
         2 2
         [tgt SceneParam.revSize (flit 6 10); tgt SceneParam.revPreDelay (flit 4 10)]);
    (* 2: Rhythmic Delay *)
    mkPreset
      (transformScenes (transformScenes
        (transformScenes base SceneParam.delayFb (flit 2 10) one)
        SceneParam.delayWidth (flit 15 100) one)
        SceneParam.revSize zero (flit 5 10))
      (setMacro defaultMacros 2 3
         [tgt SceneParam.delayFb (flit 5 10); tgt SceneParam.delayWidth (flit 3 10);
          tgt SceneParam.delayTone (flit (-4) 10)]);
    (* 3: Lo-Fi *)
    mkPreset
      (transformScenes (transformScenes
        (transformScenes base SceneParam.filtCutoff zero (flit 5 10))
        SceneParam.driveAmt (flit 25 100) one)
        SceneParam.filtReso (flit 1 10) one)
      (setMacro defaultMacros 1 3
         [tgt SceneParam.driveAmt (flit 5 10); tgt SceneParam.driveTone (flit (-4) 10);
          tgt SceneParam.filtCutoff (flit (-3) 10)]);
    (* 4: Shimmer Pad *)
    mkPreset
      (transformScenes (transformScenes (transformScenes (transformScenes
        (transformScenes base SceneParam.filtCutoff zero (flit 15 10))
        SceneParam.revSize (flit 4 10) one)
        SceneParam.revDamp zero (flit 3 10))
        SceneParam.revWidth (flit 2 10) one)
        SceneParam.driveAmt zero (flit 3 10))
      (setMacro defaultMacros 0 2
         [tgt SceneParam.filtCutoff (flit 4 10); tgt SceneParam.revSize (flit 3 10)]);
    (* 5: Dub Station *)
    mkPreset
      (transformScenes (transformScenes
        (transformScenes base SceneParam.delayFb (flit 25 100) one)
        SceneParam.delayTone zero (flit 4 10))
        SceneParam.revSize (flit 15 100) one)
      (setMacro defaultMacros 2 3
         [tgt SceneParam.delayFb (flit 3 10); tgt SceneParam.revSize (flit 4 10);
          tgt SceneParam.delayTone (flit (-3) 10)]);
    (* 6: Distortion Box *)
    mkPreset
      (transformScenes (transformScenes (transformScenes
        (transformScenes base SceneParam.driveAmt (flit 4 10) one)
        SceneParam.filtCutoff zero (flit 6 10))
        SceneParam.revSize zero (flit 3 10))
        SceneParam.delayFb zero (flit 5 10))
      (setMacro defaultMacros 1 2
         [tgt SceneParam.driveAmt (flit 4 10); tgt SceneParam.driveTone (flit 5 10)]);
    (* 7: Wide Stereo *)
    mkPreset
      (map (fun s =>
              if flit 1 10 <. getv s (Z.to_nat SceneParam.delayFb)
              then setField s SceneParam.delayPingP one else s)
         (transformScenes (transformScenes
           (transformScenes base SceneParam.delayWidth (flit 2 10) one)
           SceneParam.revWidth (flit 2 10) one)
           SceneParam.revPreDelay (fofZ 15) one))
      (setMacro defaultMacros 3 3
         [tgt SceneParam.delayWidth (flit 4 10); tgt SceneParam.revWidth (flit 3 10);
          tgt SceneParam.revPreDelay (flit 3 10)]) ].

(** [loadFactoryPresetData]: the scenes and the macro mappings of a
    factory preset, the host parameters untouched. *)
Definition loadFactoryPresetData (p : Processor F) (index : Z) : Processor F :=
  if (index <? 0) || (kNumFactoryPresets <=? index) then p
  else
    match createFactoryPresets !! Z.to_nat index with
    | None => p
    | Some preset =>
        let engine :=
          forLoop (Z.to_nat kNumMacros)
            (fun m e =>
               match presetMacros preset !! m with
               | Some mc =>
                   setMappings e (Z.of_nat m)
                     (take (Z.to_nat (numTargets mc)) (targets mc))
               | None => e
               end)
            (clearAllMappings (macroEngine_ p)) in
        mkProcessor (apvts p) (presetScenes preset) engine
    end.

(** The lambda [setParam] of [loadFactoryPreset]: the host parameter
    takes the raw value given. *)
Definition setParam (p : Processor F) (name : ParamID) (rawValue : F) : Processor F :=
  mkProcessor (fun n => if decide (n = name) then rawValue else apvts p n)
              (scenes_ p) (macroEngine_ p).

Definition loadFactoryPreset (p : Processor F) (index : Z) : Processor F :=
  let p := loadFactoryPresetData p index in
  let p := setParam p ID_morph (fofZ 0) in
  let p := setParam p ID_macro1 (fofZ 0) in
  let p := setParam p ID_macro2 (fofZ 0) in
  let p := setParam p ID_macro3 (fofZ 0) in
  let p := setParam p ID_macro4 (fofZ 0) in
  let p := setParam p ID_sceneA (fofZ 0) in
  let p := setParam p ID_sceneB (fofZ 1) in
  let p := setParam p ID_mix (fofZ 1) in
  let p := setParam p ID_inputGainDb (fofZ 0) in
  let p := setParam p ID_outputGainDb (fofZ 0) in
  setParam p ID_bypass (fofZ 0).

(** The constructor of the processor: the Init preset over an engine
    with its default mappings; the host parameters are given. *)
Definition newProcessor (hostParams : ParamID -> F) : Processor F :=
  loadFactoryPresetData
    (mkProcessor hostParams (replicate (Z.to_nat kNumScenes) zeroScene)
                 initDefaultMappings)
    0.
End Presets.

(** ** Steps of [processBlock] on the audio buffer *)

Section BufferSteps.
Context {F : Type} `{FloatArith F}.

(** [buffer[ch][s]] and the assignment to it, on a buffer held as one
    list of samples per channel. *)
Definition sampleAt (buffer : list (list F)) (ch s : nat) : F :=
  at_ (default [] (buffer !! ch)) s.

Definition setSample (buffer : list (list F)) (ch s : nat) (v : F) : list (list F) :=
  match buffer !! ch with
  | Some data => <[ch := <[s := v]> data]> buffer
  | None => buffer
  end.

(** Step 6, the dry/wet mix: [buffer] holds the processed signal and
    [dryBuffer] the saved input.  Like every numbered step it is reached
    only when [processBlock] has not returned at its head, which it does
    when the bypass has settled. *)
Definition mixStage (mixAmount : F) (totalNumInputChannels numSamples : nat)
    (dryBuffer buffer : list (list F)) : list (list F) :=
  if mixAmount <. fofZ 1
  then
    forLoop totalNumInputChannels
      (fun ch buf =>
         forLoop numSamples
           (fun s buf =>
              setSample buf ch s
                (sampleAt dryBuffer ch s
                 ⊕ mixAmount ⊗ (sampleAt buf ch s ⊖ sampleAt dryBuffer ch s)))
           buf)
      buffer
  else buffer.

(** Step 9, the output safety clamp, the last statement of
    [processBlock]; it is not reached either when [processBlock]
    returns at its head. *)
Definition safetyClamp (totalNumOutputChannels numSamples : nat)
    (buffer : list (list F)) : list (list F) :=
  forLoop totalNumOutputChannels
    (fun ch buf =>
       forLoop numSamples
         (fun s buf => setSample buf ch s (clamp (sampleAt buf ch s) (fofZ (-4)) (fofZ 4)))
         buf)
    buffer.
End BufferSteps.

(** ** Further code of [Source/DSP/DelayModule.h] *)

Section DelayMore.
Context `{JuceDsp}.

Definition reset (d : DelayModule) : DelayModule :=
  forLoop 2
    (fun ch d =>
       mkDelay (sampleRate d) (numChannels d) (bufSize_ d)
               (match delayLine d !! ch with
                | Some line => <[ch := replicate (length line) (fofZ 0)]> (delayLine d)
                | None => delayLine d
                end)
               (<[ch := 0]> (writePos d))
               (fb d) (width d) (isPingPong d)
               (match toneLPF d !! ch with
                | Some f => <[ch := resetTone f]> (toneLPF d)
                | None => toneLPF d
                end)
               (smoothDelay_ d))
    d.

(** The two read indices of [process], from the integer part of the
    read position: the wrap of [idx0] into the buffer and its successor
    [idx1]. *)
Definition readIndices (bufSize idx0 : Z) : Z * Z :=
  let idx0 := if idx0 <? 0 then idx0 + bufSize else idx0 in
  let idx0 := if bufSize <=? idx0 then idx0 - bufSize else idx0 in
  let idx1 := if bufSize <=? idx0 + 1 then 0 else idx0 + 1 in
  (idx0, idx1).

(** The wet sample of channel [ch] in [process]: the width blend of the
    delayed samples. *)
Definition wetSampleOf (d : DelayModule) (delayed : list float) (channels : Z)
    (ch : nat) : float :=
  if (width d <. fofZ 1) && (channels =? 2)
  then
    let otherCh := (1 - ch)%nat in
    let monoDelay := (at_ delayed ch ⊕ at_ delayed otherCh) ⊗ flit 5 10 in
    monoDelay ⊕ width d ⊗ (at_ delayed ch ⊖ monoDelay)
  else at_ delayed ch.

(** The arrays of the module have their two entries, the delay lines
    hold [bufSize_] samples each and the write cursors index them. *)
Definition delayShape (d : DelayModule) : Prop :=
  0 < bufSize_ d /\
  length (delayLine d) = 2%nat /\
  length (writePos d) = 2%nat /\
  length (toneLPF d) = 2%nat /\
  (forall ch line, delayLine d !! ch = Some line -> Z.of_nat (length line) = bufSize_ d) /\
  (forall ch wp, writePos d !! ch = Some wp -> 0 <= wp < bufSize_ d).
End DelayMore.

(** ** [Source/DSP/ReverbModule.h] *)

(** [juce::dsp::Reverb::Parameters] *)
Record ReverbParameters := mkReverbParameters {
  roomSize : float;
  damping : float;
  wetLevel : float;
  dryLevel : float;
  reverbWidth : float;
  freezeMode : float
}.

(** The reverb of the JUCE library, taken as a parameter. *)
Class JuceReverb := {
  Reverb : Type;
  reverbPrepare : float -> Z -> Reverb;
  reverbReset : Reverb -> Reverb;
  reverbSetParameters : Reverb -> ReverbParameters -> Reverb;
  reverbProcess : Reverb -> list (list float) -> Reverb * list (list float)
}.

Record ReverbModule `{JuceReverb} := mkReverb {
  reverbSampleRate : float;
  reverbNumChannels : Z;
  reverb : Reverb;
  preDelayBuffer : list (list float);
  preDelayWritePos : list Z;
  preDelaySamples : Z
}.
Arguments mkReverb {_} _ _ _ _ _ _.

(** The inner loop of the pre-delay of [process] on one channel: its
    circular buffer, its write cursor and its samples.  Each sample is
    written at the cursor, replaced by the sample [preDelay] positions
    back, and the cursor advances with wrap-around. *)
Definition preDelayChannel (preDelay : Z) (numSamples : nat)
    (st : list float * Z * list float) : list float * Z * list float :=
  forLoop numSamples
    (fun s st =>
       let '(buf, wp, data) := st in
       let buf' := <[Z.to_nat wp := at_ data s]> buf in
       let readPos := wp - preDelay in
       let readPos := if readPos <? 0 then readPos + Z.of_nat (length buf') else readPos in
       let data' := <[s := at_ buf' (Z.to_nat readPos)]> data in
       let wp' := wp + 1 in
       let wp' := if Z.of_nat (length buf') <=? wp' then 0 else wp' in
       (buf', wp', data'))
    st.

Section ReverbOps.
Context `{JuceReverb}.

(** [prepare (spec)] on a newly constructed module. *)
Definition reverbModulePrepare (specSampleRate : float) (specNumChannels : Z)
    : ReverbModule :=
  let maxPreDelaySamples := castToInt (B64.mul specSampleRate (dlit 2 10)) + 1 in
  mkReverb specSampleRate specNumChannels
           (reverbPrepare specSampleRate specNumChannels)
           [replicate (Z.to_nat maxPreDelaySamples) (fofZ 0);
            replicate (Z.to_nat maxPreDelaySamples) (fofZ 0)]
           [0; 0] 0.

Definition reverbModuleReset (r : ReverbModule) : ReverbModule :=
  mkReverb (reverbSampleRate r) (reverbNumChannels r) (reverbReset (reverb r))
           (forLoop 2
              (fun ch bufs =>
                 match bufs !! ch with
                 | Some b => <[ch := replicate (length b) (fofZ 0)]> bufs
                 | None => bufs
                 end) (preDelayBuffer r))
           (forLoop 2 (fun ch wps => <[ch := 0]> wps) (preDelayWritePos r))
           (preDelaySamples r).

Definition reverbModuleSetParameters (r : ReverbModule)
    (size01 damping01 preDelayMs width01 : float) : ReverbModule :=
  let params := mkReverbParameters size01 damping01 (fofZ 1) (fofZ 0) width01 (fofZ 0) in
  let pre :=
    castToInt (B64.mul (B64.mul (B64.ofFloat preDelayMs) (dlit 1 1000))
                       (reverbSampleRate r)) in
  let maxSamples := Z.of_nat (length (default [] (preDelayBuffer r !! 0%nat))) - 1 in
  mkReverb (reverbSampleRate r) (reverbNumChannels r)
           (reverbSetParameters (reverb r) params)
           (preDelayBuffer r) (preDelayWritePos r)
           (clampZ pre 0 maxSamples).

(** The pre-delay of [process], before the block goes through the
    reverb. *)
Definition preDelayStage (r : ReverbModule) (block : list (list float))
    : ReverbModule * list (list float) :=
  if 0 <? preDelaySamples r
  then
    let numSamples := length (default [] (block !! 0%nat)) in
    forLoop (Nat.min (length block) 2)
      (fun ch st =>
         let '(r, block) := st in
         let '(buf', wp', data') :=
           preDelayChannel (preDelaySamples r) numSamples
             (default [] (preDelayBuffer r !! ch),
              default 0 (preDelayWritePos r !! ch),
              default [] (block !! ch)) in
         (mkReverb (reverbSampleRate r) (reverbNumChannels r) (reverb r)
                   (<[ch := buf']> (preDelayBuffer r))
                   (<[ch := wp']> (preDelayWritePos r))
                   (preDelaySamples r),
          <[ch := data']> block))
      (r, block)
  else (r, block).

Definition reverbModuleProcess (r : ReverbModule) (block : list (list float))
    : ReverbModule * list (list float) :=
  let '(r1, block1) := preDelayStage r block in
  let '(rev', block2) := reverbProcess (reverb r1) block1 in
  (mkReverb (reverbSampleRate r1) (reverbNumChannels r1) rev'
            (preDelayBuffer r1) (preDelayWritePos r1) (preDelaySamples r1),
   block2).
End ReverbOps.

(** ** [Source/DSP/FilterModule.h] *)

(** [juce::dsp::StateVariableTPTFilterType] *)
Inductive FilterType := lowpass | bandpass | highpass.

(** What [FilterModule::setParameters] hands to the JUCE filter: the
    type, the cutoff and the resonance. *)
Record FilterSettings {F : Type} := mkFilterSettings {
  filterType : FilterType;
  filterCutoff : F;
  filterResonance : F
}.
Arguments FilterSettings : clear implicits.
Arguments mkFilterSettings {F} _ _ _.

Section FilterOps.
Context {F : Type} `{FloatArith F}.

Definition resoFlat : F := flit 707 1000.
Definition resoMax : F := flit 5 100.

Definition filterSetParameters (mode : Z) (cutoffHz reso01 : F) : FilterSettings F :=
  let type := match mode with
              | 0 => lowpass
              | 1 => bandpass
              | 2 => highpass
              | _ => lowpass
              end in
  let mappedReso := resoFlat ⊕ reso01 ⊗ (resoMax ⊖ resoFlat) in
  mkFilterSettings type cutoffHz mappedReso.
End FilterOps.

(** ** The macro configuration rows of [Source/PluginEditor.cpp] *)

(** [kMacroTargetOptions]: the field index of each entry. *)
Definition kMacroTargetOptions : list Z := [
  SceneParam.filtCutoff; SceneParam.filtReso; SceneParam.driveAmt;
  SceneParam.driveTone; SceneParam.delayFb; SceneParam.delayTone;
  SceneParam.delayWidth; SceneParam.revSize; SceneParam.revDamp;
  SceneParam.revPreDelay; SceneParam.revWidth
].

Definition kNumMacroTargetOptions : Z := 11.

(** The combo-box id of a field index: 2 .. 12, or 1 for "None". *)
Definition sceneParamToComboId (sceneParamIndex : Z) : Z :=
  match list_find (fun idx => idx = sceneParamIndex) kMacroTargetOptions with
  | Some (i, _) => Z.of_nat i + 2
  | None => 1
  end.

(** One row of [onMacroSlotChanged]: the target a slot contributes, if
    any, from the selected parameter id, the amount and the selected
    curve id. *)
Definition slotTarget {F : Type} (selectedId : Z) (amount : F) (curveId : Z)
    : option (MacroTarget F) :=
  if 2 <=? selectedId
  then
    let optionIdx := selectedId - 2 in
    if (0 <=? optionIdx) && (optionIdx <? kNumMacroTargetOptions)
    then
      let curve := curveOfInt (clampZ (curveId - 1) 0 (curveCount - 1)) in
      Some (mkTarget (default 0 (kMacroTargetOptions !! Z.to_nat optionIdx)) amount curve)
    else None
  else None.

(** [onMacroSlotChanged]: the targets of the rows, in row order, replace
    the macro's mapping. *)
Definition onMacroSlotChanged {F : Type} `{FloatArith F} (e : MacroEngine F)
    (macroIdx : Z) (slots : list (Z * F * Z)) : MacroEngine F :=
  setMappings e macroIdx
    (fold_left
       (fun targets slot =>
          let '(selectedId, amount, curveId) := slot in
          match slotTarget selectedId amount curveId with
          | Some t => targets ++ [t]
          | None => targets
          end)
       slots []).

(** ** Further definitions used by the statements *)

(** The shape the C++ types fix: a bank is an array of eight snapshots
    of fourteen values each, an engine an array of four target lists. *)
Definition bankShape {F : Type} (scenes : list (SceneParams F)) : bool :=
  (length scenes =? Z.to_nat kNumScenes)%nat
  && forallb (fun s => (length (values s) =? nCount)%nat) scenes.

Definition engineShape {F : Type} (e : MacroEngine F) : bool :=
  (length (mappings_ e) =? Z.to_nat kNumMacros)%nat.

(** A target whose field index lies in the info table and whose curve
    is one of the four kinds. *)
Definition targetValid {F : Type} (tg : MacroTarget F) : bool :=
  (0 <=? sceneParamIndex tg) && (sceneParamIndex tg <? SceneParam.kCount)
  && negb (curveToInt (curve tg) =? curveCount).

Definition engineValid {F : Type} (e : MacroEngine F) : bool :=
  engineShape e && forallb (forallb targetValid) (mappings_ e).

(** Two states of the delay module that agree on everything but the
    contents of the delay lines, the write cursors and the memories of
    the library components. *)
Definition sameSettings `{JuceDsp} (d d' : DelayModule) : Prop :=
  sampleRate d' = sampleRate d /\ numChannels d' = numChannels d /\
  bufSize_ d' = bufSize_ d /\ fb d' = fb d /\ width d' = width d /\
  isPingPong d' = isPingPong d.

(** Two audio buffers of the same layout: as many channels, each as
    long. *)
Definition sameLayout {A : Type} (b b' : list (list A)) : Prop :=
  length b' = length b /\
  forall ch, length (default [] (b' !! ch)) = length (default [] (b !! ch)).

(** The number of channels [process] works on. *)
Definition delayChannels {A : Type} (buffer : list (list A)) : nat :=
  Z.to_nat (Z.min (Z.of_nat (length buffer)) 2).

(** The signal a pre-delay channel has seen, by position [t] relative
    to the start of the block: from the start of the block on, the
    samples of the block; before it, what the circular buffer holds at
    [t] positions from the write cursor. *)
Definition preDelayHistory (buf : list float) (wp : Z) (data : list float) (t : Z)
    : float :=
  if 0 <=? t then at_ data (Z.to_nat t)
  else at_ buf (Z.to_nat ((wp + t) mod Z.of_nat (length buf))).

(** A stand-in for the reverb of the library that passes the block on
    unchanged, to run the pre-delay on concrete inputs. *)
Definition passThroughReverb : JuceReverb := {|
  Reverb := unit;
  reverbPrepare := fun _ _ => tt;
  reverbReset := fun r => r;
  reverbSetParameters := fun r _ => r;
  reverbProcess := fun r block => (r, block)
|}.

(** * Properties *)

(** ** Loops and arrays *)

Lemma forLoop_S {S : Type} (n : nat) (body : nat -> S -> S) (s : S) :
  forLoop (Datatypes.S n) body s = body n (forLoop n body s).
Proof.
  unfold forLoop. rewrite seq_S, fold_left_app. reflexivity.
Qed.

(** A loop establishes whatever its body maintains. *)
Lemma forLoop_invariant {S : Type} (P : nat -> S -> Prop) (n : nat)
    (body : nat -> S -> S) (s : S) :
  P 0%nat s ->
  (forall i acc, (i < n)%nat -> P i acc -> P (Datatypes.S i) (body i acc)) ->
  P n (forLoop n body s).
Proof.
  intros H0 Hstep. induction n as [|n IH].
  - exact H0.
  - rewrite forLoop_S. apply Hstep; [lia|]. apply IH.
    intros i acc Hi. apply Hstep. lia.
Qed.

Section ArrayFacts.
Context {F : Type} `{FloatArith F}.

Lemma setv_length (s : SceneParams F) (i : nat) (v : F) :
  length (values (setv s i v)) = length (values s).
Proof. unfold setv. simpl. apply length_insert. Qed.

Lemma getv_setv_eq (s : SceneParams F) (i : nat) (v : F) :
  (i < length (values s))%nat -> getv (setv s i v) i = v.
Proof.
  intros Hi. unfold getv, setv, at_. simpl.
  rewrite list_lookup_insert_eq by exact Hi. reflexivity.
Qed.

Lemma getv_setv_ne (s : SceneParams F) (i j : nat) (v : F) :
  i <> j -> getv (setv s i v) j = getv s j.
Proof.
  intros Hne. unfold getv, setv, at_. simpl.
  rewrite list_lookup_insert_ne by exact Hne. reflexivity.
Qed.

Lemma sceneInRange_spec (s : SceneParams F) :
  sceneInRange s = true <->
  length (values s) = nCount /\
  forall i, (i < nCount)%nat -> inRangeOf i (getv s i) = true.
Proof.
  unfold sceneInRange. rewrite andb_true_iff, Nat.eqb_eq, forallb_forall.
  split; intros [Hl Hr]; split; auto.
  - intros i Hi. apply Hr. apply in_seq. lia.
  - intros i Hi. apply Hr. apply in_seq in Hi. lia.
Qed.

Lemma bankInRange_spec (scenes : list (SceneParams F)) :
  bankInRange scenes = true <->
  length scenes = Z.to_nat kNumScenes /\
  forall s, In s scenes -> sceneInRange s = true.
Proof.
  unfold bankInRange. rewrite andb_true_iff, Nat.eqb_eq, forallb_forall.
  reflexivity.
Qed.
End ArrayFacts.

(** ** Comparison of floating-point values *)

Lemma SFcompare_finite_refl (s : bool) (m : positive) (e : Z) :
  SFcompare (S754_finite s m e) (S754_finite s m e) = Some Eq.
Proof.
  unfold SFcompare. destruct s; rewrite Z.compare_refl, Pos.compare_cont_refl;
    reflexivity.
Qed.

Lemma SFeqb_refl (x : float) : isNaN x = false -> SFeqb x x = true.
Proof.
  destruct x as [s|s| |s m e]; intros Hn; try discriminate.
  - reflexivity.
  - destruct s; reflexivity.
  - unfold SFeqb. rewrite SFcompare_finite_refl. reflexivity.
Qed.

Lemma SFltb_irrefl (x : float) : SFltb x x = false.
Proof.
  destruct x as [s|s| |s m e]; try reflexivity.
  - destruct s; reflexivity.
  - unfold SFltb. rewrite SFcompare_finite_refl. reflexivity.
Qed.

(** Swapping the operands of a comparison reverses its result. *)
Lemma SFcompare_swap (x y : float) (c : comparison) :
  SFcompare x y = Some c -> SFcompare y x = Some (CompOpp c).
Proof.
  destruct x as [sx|sx| |sx mx ex], y as [sy|sy| |sy my ey]; simpl;
    try discriminate;
    try (intros [= <-]; try destruct sx; try destruct sy; reflexivity).
  intros [= <-]. f_equal.
  rewrite (Z.compare_antisym ex ey).
  pose proof (Pos.compare_cont_antisym mx my Eq) as Hp. simpl in Hp.
  destruct sx, sy; simpl; try reflexivity;
    destruct (ex ?= ey); simpl; try reflexivity;
    rewrite <- Hp; rewrite ?CompOpp_involutive; reflexivity.
Qed.

Lemma SFleb_not_ltb (x y : float) : SFleb x y = true -> SFltb y x = false.
Proof.
  unfold SFleb, SFltb. destruct (SFcompare x y) as [c|] eqn:Hc; [|discriminate].
  rewrite (SFcompare_swap _ _ _ Hc). destruct c; simpl; congruence.
Qed.

Lemma SFltb_false_leb (x y : float) :
  isNaN x = false -> isNaN y = false -> SFltb y x = false -> SFleb x y = true.
Proof.
  intros Hx Hy. unfold SFleb, SFltb.
  destruct (SFcompare y x) as [c|] eqn:Hc.
  - rewrite (SFcompare_swap _ _ _ Hc). destruct c; simpl; congruence.
  - destruct x, y; simpl in *; discriminate.
Qed.







(** ** Morphing ([SceneParams::morph]) *)

Section MorphFacts.
Context {F : Type} `{FloatArith F}.

(** The loop of [morph] writes every slot once: the result is the list
    of the fourteen per-field values. *)
Lemma morph_values (a b : SceneParams F) (t : F) :
  values (morph a b t) =
  map (fun i =>
         if SceneParam.isDiscrete (SceneParam.infoAt (F:=F) i)
         then (if t <. flit 5 10 then getv a i else getv b i)
         else getv a i ⊕ t ⊗ (getv b i ⊖ getv a i))
      (seq 0 nCount).
Proof. reflexivity. Qed.

Lemma morph_getv (a b : SceneParams F) (t : F) (i : nat) :
  (i < nCount)%nat ->
  getv (morph a b t) i =
  if SceneParam.isDiscrete (SceneParam.infoAt (F:=F) i)
  then (if t <. flit 5 10 then getv a i else getv b i)
  else getv a i ⊕ t ⊗ (getv b i ⊖ getv a i).
Proof.
  intros Hi. unfold getv at 1, at_. rewrite morph_values.
  rewrite list_lookup_fmap, lookup_seq_lt by exact Hi. reflexivity.
Qed.

Lemma morph_length (a b : SceneParams F) (t : F) :
  length (values (morph a b t)) = nCount.
Proof. rewrite morph_values, length_map, length_seq. reflexivity. Qed.

(** The discrete fields are filter mode (0), delay sync (5) and the
    ping-pong flag (9). *)
Lemma discrete_fields (i : nat) :
  (i < nCount)%nat ->
  SceneParam.isDiscrete (SceneParam.infoAt (F:=F) i) = true ->
  (i = 0 \/ i = 5 \/ i = 9)%nat.
Proof.
  intros Hi.
  do 14 (destruct i as [|i]; [simpl; intros Hd; try discriminate Hd; lia|]).
  change (@nCount) with 14%nat in Hi. lia.
Qed.
End MorphFacts.

(** C2.  For every pair of scenes, every discrete field (filter mode,
    delay sync index, ping-pong flag) and every morph factor [t], in any
    arithmetic, [morph] returns the value of [a] when [t < 0.5] and the
    value of [b] otherwise; in single precision the tie [t = 0.5] gives
    the value of [b]. *)
Theorem morph_discrete_threshold :
  (forall (F : Type) (A : FloatArith F) (a b : SceneParams F) (t : F) (i : nat),
      (i < nCount)%nat ->
      SceneParam.isDiscrete (SceneParam.infoAt (F:=F) i) = true ->
      (i = 0 \/ i = 5 \/ i = 9)%nat /\
      getv (morph a b t) i = if t <. flit 5 10 then getv a i else getv b i)
  /\
  (forall (a b : SceneParams float) (i : nat),
      (i < nCount)%nat ->
      SceneParam.isDiscrete (SceneParam.infoAt (F:=float) i) = true ->
      getv (morph a b (flit 5 10)) i = getv b i).
Proof.
  split.
  - intros F A a b t i Hi Hd. split.
    + exact (discrete_fields i Hi Hd).
    + rewrite morph_getv by exact Hi. rewrite Hd. reflexivity.
  - intros a b i Hi Hd. rewrite morph_getv by exact Hi. rewrite Hd.
    reflexivity.
Qed.

Lemma morph_discrete_threshold_witness :
  let a : SceneParams float := setv createDefault 5 (fofZ 1) in
  let b : SceneParams float := setv createDefault 5 (fofZ 6) in
  ((5 < nCount)%nat /\
   SceneParam.isDiscrete (SceneParam.infoAt (F:=float) 5) = true) /\
  getv (morph a b (flit 49 100)) 5 = fofZ 1 /\
  getv (morph a b (flit 5 10)) 5 = fofZ 6.
Proof.
  intros a b.
  assert (Hi : (5 < nCount)%nat) by (vm_compute; lia).
  assert (Hd : SceneParam.isDiscrete (SceneParam.infoAt (F:=float) 5) = true)
    by reflexivity.
  split; [split; assumption|]. split.
  - rewrite (proj2 (proj1 morph_discrete_threshold float binary32 a b
                      (flit 49 100) 5%nat Hi Hd)).
    vm_compute. reflexivity.
  - rewrite (proj2 morph_discrete_threshold a b 5%nat Hi Hd).
    vm_compute. reflexivity.
Defined.

(** In single precision, adding [0 * d] to a number [x] gives back [x]
    whenever [d] is a number; only the sign of a zero can change. *)
Lemma b32_add_zero_times (x d : float) :
  isFiniteF x = true -> isFiniteF d = true ->
  SFeqb (x ⊕ fofZ 0 ⊗ d) x = true /\
  (x <> S754_zero true -> x ⊕ fofZ 0 ⊗ d = x).
Proof.
  intros Hx Hd.
  destruct x as [sx|sx| |sx mx ex]; try discriminate Hx;
    destruct d as [sd|sd| |sd md ed]; try discriminate Hd.
  - destruct sx, sd; simpl; split; try reflexivity; intros Hne;
      try reflexivity; exfalso; apply Hne; reflexivity.
  - destruct sx, sd; simpl; split; try reflexivity; intros Hne;
      try reflexivity; exfalso; apply Hne; reflexivity.
  - simpl. split; [|reflexivity].
    apply SFeqb_refl. reflexivity.
  - simpl. split; [|reflexivity].
    apply SFeqb_refl. reflexivity.
Qed.

(** In single precision, multiplying a value in canonical form by 1 is
    exact. *)
Lemma digits2_pos_shift23 (m : positive) :
  Zpos (digits2_pos (8388608 * m)) = Zpos (digits2_pos m) + 23.
Proof.
  change (8388608 * m)%positive
    with (m~0~0~0~0~0~0~0~0~0~0~0~0~0~0~0~0~0~0~0~0~0~0~0)%positive.
  cbn [digits2_pos]. lia.
Qed.

Lemma b32_one_times (d : float) :
  valid_binary B32.prec B32.emax d = true -> fofZ 1 ⊗ d = d.
Proof.
  destruct d as [s|s| |s m e]; intros Hv; try reflexivity.
  cbn [valid_binary] in Hv. unfold bounded, canonical_mantissa in Hv.
  apply andb_true_iff in Hv. destruct Hv as [Hcan Hbnd].
  apply Z.eqb_eq in Hcan.
  change (fofZ 1 ⊗ S754_finite s m e)
    with (binary_round_aux B32.prec B32.emax s (Zpos (8388608 * m)) (-23 + e) loc_Exact).
  unfold binary_round_aux, shr_fexp.
  cbn [Zdigits2]. rewrite digits2_pos_shift23.
  replace (Z.pos (digits2_pos m) + 23 + (-23 + e)) with (Z.pos (digits2_pos m) + e) by lia.
  rewrite Hcan.
  replace (e - (-23 + e)) with 23 by lia.
  change (8388608 * m)%positive
    with (m~0~0~0~0~0~0~0~0~0~0~0~0~0~0~0~0~0~0~0~0~0~0~0)%positive.
  cbn [shr shr_record_of_loc].
  assert (Hshift :
    SpecFloat.iter_pos shr_1 23
      {| shr_m := Z.pos (m~0~0~0~0~0~0~0~0~0~0~0~0~0~0~0~0~0~0~0~0~0~0~0);
         shr_r := false; shr_s := false |}
    = {| shr_m := Z.pos m; shr_r := false; shr_s := false |}) by reflexivity.
  rewrite Hshift.
  cbn [shr_m loc_of_shr_record round_nearest_even Zdigits2].
  replace (-23 + e + 23) with e by lia.
  rewrite Hcan. rewrite Z.sub_diag.
  cbn [shr shr_record_of_loc shr_m].
  rewrite Hbnd. reflexivity.
Qed.

(** At [t = 1] a continuous field of range 20 .. 20000 morphs from 20000
    to 20.3 without arriving: [20000 + 1 * (20.3 - 20000)] is not the
    single-precision value of 20.3. *)
Lemma morph_endpoint_one_counterexample :
  let a : SceneParams float := setv createDefault 1 (fofZ 20000) in
  let b : SceneParams float := setv createDefault 1 (flit 203 10) in
  sceneInRange a = true /\ sceneInRange b = true /\
  SceneParam.isDiscrete (SceneParam.infoAt (F:=float) 1) = false /\
  getv b 1 = S754_finite false 10643046 (-19) /\
  getv (morph a b (fofZ 1)) 1 = S754_finite false 10643456 (-19) /\
  SFeqb (getv (morph a b (fofZ 1)) 1) (getv b 1) = false /\
  getv (morph a b (fofZ 1)) 1 <> getv b 1.
Proof.
  vm_compute. repeat split; discriminate.
Qed.

(** C3, amended.  For every continuous field: in single precision,
    [morph (a, b, 0)] compares equal to the value of [a] whenever that
    value and the difference [b - a] are numbers, and is bit-identical
    to it unless it is a negative zero; [morph (a, b, 1)] is the rounded
    sum of [a] and the rounded difference [b - a] (the product by 1 is
    exact); in exact arithmetic both endpoints are exact. *)
Theorem morph_continuous_endpoints :
  (forall (a b : SceneParams float) (i : nat),
      (i < nCount)%nat ->
      SceneParam.isDiscrete (SceneParam.infoAt (F:=float) i) = false ->
      isFiniteF (getv a i) = true ->
      isFiniteF (getv b i ⊖ getv a i) = true ->
      SFeqb (getv (morph a b (fofZ 0)) i) (getv a i) = true /\
      (getv a i <> S754_zero true -> getv (morph a b (fofZ 0)) i = getv a i))
  /\
  (forall (a b : SceneParams float) (i : nat),
      (i < nCount)%nat ->
      SceneParam.isDiscrete (SceneParam.infoAt (F:=float) i) = false ->
      valid_binary B32.prec B32.emax (getv b i ⊖ getv a i) = true ->
      getv (morph a b (fofZ 1)) i = getv a i ⊕ (getv b i ⊖ getv a i))
  /\
  (forall (a b : SceneParams R) (i : nat),
      (i < nCount)%nat ->
      SceneParam.isDiscrete (SceneParam.infoAt (F:=R) i) = false ->
      getv (morph a b 0%R) i = getv a i /\
      getv (morph a b 1%R) i = getv b i).
Proof.
  split; [|split].
  - intros a b i Hi Hc Hx Hd. rewrite morph_getv by exact Hi. rewrite Hc.
    apply b32_add_zero_times; assumption.
  - intros a b i Hi Hc Hv. rewrite morph_getv by exact Hi. rewrite Hc.
    rewrite (b32_one_times _ Hv). reflexivity.
  - intros a b i Hi Hc. rewrite !morph_getv by exact Hi. rewrite Hc.
    simpl. split; ring.
Qed.

Lemma morph_continuous_endpoints_witness :
  let a : SceneParams float := setv createDefault 1 (fofZ 8000) in
  let b : SceneParams float := setv createDefault 1 (fofZ 200) in
  ((1 < nCount)%nat /\
   SceneParam.isDiscrete (SceneParam.infoAt (F:=float) 1) = false /\
   isFiniteF (getv a 1) = true /\
   isFiniteF (getv b 1 ⊖ getv a 1) = true /\
   valid_binary B32.prec B32.emax (getv b 1 ⊖ getv a 1) = true) /\
  getv (morph a b (fofZ 0)) 1 = fofZ 8000 /\
  getv (morph a b (fofZ 1)) 1 = fofZ 200.
Proof.
  intros a b.
  assert (Hi : (1 < nCount)%nat) by (vm_compute; lia).
  assert (Hc : SceneParam.isDiscrete (SceneParam.infoAt (F:=float) 1) = false)
    by reflexivity.
  assert (Hx : isFiniteF (getv a 1) = true) by reflexivity.
  assert (Hd : isFiniteF (getv b 1 ⊖ getv a 1) = true) by reflexivity.
  assert (Hv : valid_binary B32.prec B32.emax (getv b 1 ⊖ getv a 1) = true)
    by reflexivity.
  split; [repeat split; assumption|]. split.
  - rewrite (proj2 (proj1 morph_continuous_endpoints a b 1%nat Hi Hc Hx Hd)).
    + reflexivity.
    + discriminate.
  - rewrite (proj1 (proj2 morph_continuous_endpoints) a b 1%nat Hi Hc Hv).
    reflexivity.
Defined.

(** The cutoff scenario of the design document, in single precision:
    between 8000 Hz and 200 Hz the morph gives 8000 at 0, 200 at 1 and
    4100 at 0.5. *)
Example morph_cutoff_scenario :
  let a : SceneParams float := setv createDefault 1 (fofZ 8000) in
  let b : SceneParams float := setv createDefault 1 (fofZ 200) in
  getv (morph a b (fofZ 0)) 1 = fofZ 8000 /\
  getv (morph a b (fofZ 1)) 1 = fofZ 200 /\
  getv (morph a b (flit 5 10)) 1 = fofZ 4100.
Proof. vm_compute. repeat split; reflexivity. Qed.

(** ** Response curves ([applyMacroCurve]) *)

Section ExactClamp.
Local Open Scope R_scope.

Lemma Rltb_true (x y : R) : Rltb x y = true <-> x < y.
Proof. unfold Rltb. destruct (Rlt_dec x y); split; intros; try lra; discriminate. Qed.

Lemma Rltb_false (x y : R) : Rltb x y = false <-> y <= x.
Proof. unfold Rltb. destruct (Rlt_dec x y); split; intros; try lra; discriminate. Qed.

Lemma Rleb_true (x y : R) : Rleb x y = true <-> x <= y.
Proof. unfold Rleb. destruct (Rle_dec x y); split; intros; try lra; discriminate. Qed.

(** Over the reals [std::clamp] is the usual clamp. *)
Lemma Rclamp_cases (v lo hi : R) :
  (v < lo /\ clamp v lo hi = lo) \/
  (lo <= v /\ hi < v /\ clamp v lo hi = hi) \/
  (lo <= v /\ v <= hi /\ clamp v lo hi = v).
Proof.
  unfold clamp. simpl. unfold Rltb.
  destruct (Rlt_dec v lo); [left; split; [lra|reflexivity]|].
  destruct (Rlt_dec hi v); [right; left|right; right]; repeat split; lra.
Qed.

Lemma Rclamp_bounds (v lo hi : R) :
  lo <= hi -> lo <= clamp v lo hi <= hi.
Proof.
  intros Hle. destruct (Rclamp_cases v lo hi) as [[? ->]|[(? & ? & ->)|(? & ? & ->)]]; lra.
Qed.

End ExactClamp.




(** ** The macro engine ([MacroEngine::apply]) *)

Section ApplyFacts.
Context {F : Type} `{FloatArith F}.

(** The outer loop visits the four macros in order. *)
Lemma apply_unfold (e : MacroEngine F) (p : SceneParams F) (mv : list F) :
  apply e p mv =
  applyMacro e mv 3 (applyMacro e mv 2 (applyMacro e mv 1 (applyMacro e mv 0 p))).
Proof. reflexivity. Qed.

Lemma applyMacro_skip (e : MacroEngine F) (mv : list F) (m : nat) (p : SceneParams F) :
  (at_ mv m <. flit 1 1000) = true -> applyMacro e mv m p = p.
Proof. intros Hlt. unfold applyMacro. rewrite Hlt. reflexivity. Qed.

Lemma applyMacro_run (e : MacroEngine F) (mv : list F) (m : nat) (p : SceneParams F) :
  (at_ mv m <. flit 1 1000) = false ->
  applyMacro e mv m p = fold_left (applyTarget (at_ mv m)) (getMappings e m) p.
Proof. intros Hlt. unfold applyMacro. rewrite Hlt. reflexivity. Qed.

Lemma applyTarget_out_of_range (raw : F) (p : SceneParams F) (tg : MacroTarget F) :
  sceneParamIndex tg < 0 \/ SceneParam.kCount <= sceneParamIndex tg ->
  applyTarget raw p tg = p.
Proof.
  intros Hidx. unfold applyTarget.
  destruct (Z.ltb_spec (sceneParamIndex tg) 0) as [?|?]; [reflexivity|].
  destruct (Z.leb_spec SceneParam.kCount (sceneParamIndex tg)) as [?|?];
    [reflexivity|]. lia.
Qed.

Lemma applyTarget_discrete (raw : F) (p : SceneParams F) (tg : MacroTarget F) :
  SceneParam.isDiscrete (SceneParam.infoAt (F:=F) (Z.to_nat (sceneParamIndex tg))) = true ->
  applyTarget raw p tg = p.
Proof.
  intros Hd. unfold applyTarget. rewrite Hd.
  destruct ((sceneParamIndex tg <? 0) || (SceneParam.kCount <=? sceneParamIndex tg));
    reflexivity.
Qed.

Lemma applyTarget_continuous (raw : F) (p : SceneParams F) (tg : MacroTarget F) :
  0 <= sceneParamIndex tg < SceneParam.kCount ->
  SceneParam.isDiscrete (SceneParam.infoAt (F:=F) (Z.to_nat (sceneParamIndex tg))) = false ->
  applyTarget raw p tg =
  let i := Z.to_nat (sceneParamIndex tg) in
  let inf := SceneParam.infoAt i in
  setv p i
    (clamp (getv p i
            ⊕ applyMacroCurve raw (curve tg) ⊗ amount tg
               ⊗ (SceneParam.maxVal inf ⊖ SceneParam.minVal inf))
           (SceneParam.minVal inf) (SceneParam.maxVal inf)).
Proof.
  intros Hidx Hc. unfold applyTarget. rewrite Hc.
  destruct (Z.ltb_spec (sceneParamIndex tg) 0) as [?|?]; [lia|].
  destruct (Z.leb_spec SceneParam.kCount (sceneParamIndex tg)) as [?|?]; [lia|].
  reflexivity.
Qed.

Lemma applyTarget_length (raw : F) (p : SceneParams F) (tg : MacroTarget F) :
  length (values (applyTarget raw p tg)) = length (values p).
Proof.
  unfold applyTarget.
  destruct ((sceneParamIndex tg <? 0) || (SceneParam.kCount <=? sceneParamIndex tg));
    [reflexivity|].
  destruct (SceneParam.isDiscrete _); [reflexivity|]. apply setv_length.
Qed.
End ApplyFacts.

(** C5.  [apply] visits the macros in order; a macro that is not skipped
    folds its targets in list order, each target starting from the value
    left by the targets before it; a continuous target replaces its field
    by [clamp (current + curve (macroValue) * weight * (max - min), min, max)]
    and leaves every other field alone.  In single precision, a target on
    the cutoff with weight 0.5 and the exponential curve at macro value
    0.5 has curved value 0.25 and offset 0.25 * 0.5 * 19980 = 2497.5, and
    the new cutoff is the base plus 2497.5 clamped to [20, 20000]. *)
Theorem apply_target_formula :
  (forall (F : Type) (A : FloatArith F) (e : MacroEngine F) (p : SceneParams F)
          (mv : list F),
      apply e p mv =
      applyMacro e mv 3 (applyMacro e mv 2 (applyMacro e mv 1 (applyMacro e mv 0 p))))
  /\
  (forall (F : Type) (A : FloatArith F) (e : MacroEngine F) (mv : list F)
          (m : nat) (p : SceneParams F) (tg : MacroTarget F) (rest : list (MacroTarget F)),
      (at_ mv m <. flit 1 1000) = false ->
      getMappings e m = tg :: rest ->
      applyMacro e mv m p
      = fold_left (applyTarget (at_ mv m)) rest (applyTarget (at_ mv m) p tg))
  /\
  (forall (F : Type) (A : FloatArith F) (raw : F) (p : SceneParams F)
          (tg : MacroTarget F) (j : nat),
      0 <= sceneParamIndex tg < SceneParam.kCount ->
      SceneParam.isDiscrete (SceneParam.infoAt (F:=F) (Z.to_nat (sceneParamIndex tg))) = false ->
      length (values p) = nCount ->
      let i := Z.to_nat (sceneParamIndex tg) in
      let inf := SceneParam.infoAt i in
      getv (applyTarget raw p tg) i
      = clamp (getv p i
               ⊕ applyMacroCurve raw (curve tg) ⊗ amount tg
                  ⊗ (SceneParam.maxVal inf ⊖ SceneParam.minVal inf))
              (SceneParam.minVal inf) (SceneParam.maxVal inf)
      /\ (j <> i -> getv (applyTarget raw p tg) j = getv p j))
  /\
  (forall p : SceneParams float,
      length (values p) = nCount ->
      let e := mkEngine [[mkTarget SceneParam.filtCutoff (flit 5 10) exponential];
                         []; []; []] in
      applyMacroCurve (flit 5 10 : float) exponential = flit 25 100 /\
      (flit 25 100 : float) ⊗ flit 5 10 ⊗ (fofZ 20000 ⊖ fofZ 20) = flit 24975 10 /\
      getv (apply e p [flit 5 10; fofZ 0; fofZ 0; fofZ 0]) 1
      = clamp (getv p 1 ⊕ flit 24975 10) (fofZ 20) (fofZ 20000)).
Proof.
  split; [|split; [|split]].
  - intros. apply apply_unfold.
  - intros F A e mv m p tg rest Hlt Hm.
    rewrite applyMacro_run by exact Hlt. rewrite Hm. reflexivity.
  - intros F A raw p tg j Hidx Hc Hlen i inf.
    rewrite applyTarget_continuous by assumption. fold i. fold inf. split.
    + apply getv_setv_eq. rewrite Hlen. unfold i, nCount.
      apply Z2Nat.inj_lt; lia.
    + intros Hne. apply getv_setv_ne. congruence.
  - intros p Hlen e. split; [vm_compute; reflexivity|].
    split; [vm_compute; reflexivity|].
    rewrite apply_unfold.
    rewrite (applyMacro_skip e _ 3) by (vm_compute; reflexivity).
    rewrite (applyMacro_skip e _ 2) by (vm_compute; reflexivity).
    rewrite (applyMacro_skip e _ 1) by (vm_compute; reflexivity).
    rewrite applyMacro_run by (vm_compute; reflexivity).
    change (getMappings e 0) with [mkTarget SceneParam.filtCutoff (flit 5 10 : float) exponential].
    change (at_ [flit 5 10; fofZ 0; fofZ 0; fofZ 0] 0) with (flit 5 10 : float).
    cbv [fold_left].
    rewrite applyTarget_continuous by (simpl; first [reflexivity | unfold SceneParam.filtCutoff, SceneParam.kCount; lia]).
    cbv zeta.
    change (Z.to_nat (sceneParamIndex (mkTarget SceneParam.filtCutoff (flit 5 10 : float) exponential))) with 1%nat.
    rewrite getv_setv_eq by (rewrite Hlen; vm_compute; lia).
    f_equal; vm_compute; reflexivity.
Qed.

Lemma apply_target_formula_witness :
  let p : SceneParams float := createDefault in
  let p' : SceneParams float := setv createDefault 1 (fofZ 19000) in
  (length (values p) = nCount /\ length (values p') = nCount) /\
  getv (apply (mkEngine [[mkTarget SceneParam.filtCutoff (flit 5 10) exponential];
                         []; []; []])
              p [flit 5 10; fofZ 0; fofZ 0; fofZ 0]) 1 = flit 20995 2 /\
  getv (apply (mkEngine [[mkTarget SceneParam.filtCutoff (flit 5 10) exponential];
                         []; []; []])
              p' [flit 5 10; fofZ 0; fofZ 0; fofZ 0]) 1 = fofZ 20000.
Proof.
  intros p p'.
  assert (Hlen : length (values p) = nCount) by reflexivity.
  assert (Hlen' : length (values p') = nCount) by reflexivity.
  split; [split; assumption|]. split.
  - rewrite (proj2 (proj2 (proj2 (proj2 (proj2 apply_target_formula)) p Hlen))).
    vm_compute. reflexivity.
  - rewrite (proj2 (proj2 (proj2 (proj2 (proj2 apply_target_formula)) p' Hlen'))).
    vm_compute. reflexivity.
Defined.

(** Two targets on one field accumulate: the second starts from the
    clamped value the first has left. *)
Lemma applyTarget_running_value {F : Type} `{FloatArith F}
    (raw : F) (p : SceneParams F) (t1 t2 : MacroTarget F) :
  0 <= sceneParamIndex t1 < SceneParam.kCount ->
  sceneParamIndex t2 = sceneParamIndex t1 ->
  SceneParam.isDiscrete (SceneParam.infoAt (F:=F) (Z.to_nat (sceneParamIndex t1))) = false ->
  length (values p) = nCount ->
  let i := Z.to_nat (sceneParamIndex t1) in
  let inf := SceneParam.infoAt i in
  let v1 := clamp (getv p i
                   ⊕ applyMacroCurve raw (curve t1) ⊗ amount t1
                      ⊗ (SceneParam.maxVal inf ⊖ SceneParam.minVal inf))
                  (SceneParam.minVal inf) (SceneParam.maxVal inf) in
  getv (fold_left (applyTarget raw) [t1; t2] p) i
  = clamp (v1
           ⊕ applyMacroCurve raw (curve t2) ⊗ amount t2
              ⊗ (SceneParam.maxVal inf ⊖ SceneParam.minVal inf))
          (SceneParam.minVal inf) (SceneParam.maxVal inf).
Proof.
  intros Hidx Heq Hc Hlen i inf v1. simpl.
  assert (Hi : (i < nCount)%nat).
  { unfold i, nCount. apply Z2Nat.inj_lt; lia. }
  rewrite (applyTarget_continuous raw _ t2) by (rewrite Heq; assumption).
  rewrite Heq. fold i. cbv zeta. fold inf.
  rewrite getv_setv_eq by (rewrite applyTarget_length, Hlen; exact Hi).
  rewrite applyTarget_continuous by assumption. fold i. cbv zeta. fold inf.
  rewrite getv_setv_eq by (rewrite Hlen; exact Hi).
  reflexivity.
Qed.

(** C6.  With all four macro values equal to zero, [apply] returns the
    state it was given, bit for bit, whatever the mappings are; in any
    arithmetic a macro whose value is below 0.001 leaves the state as it
    is, and when all four are below 0.001 so does the whole call. *)
Theorem apply_zero_macros_noop :
  (forall (e : MacroEngine float) (p : SceneParams float),
      apply e p [fofZ 0; fofZ 0; fofZ 0; fofZ 0] = p)
  /\
  (forall (F : Type) (A : FloatArith F) (e : MacroEngine F) (mv : list F)
          (m : nat) (p : SceneParams F),
      (at_ mv m <. flit 1 1000) = true -> applyMacro e mv m p = p)
  /\
  (forall (F : Type) (A : FloatArith F) (e : MacroEngine F) (mv : list F)
          (p : SceneParams F),
      (forall m, (m < Z.to_nat kNumMacros)%nat -> (at_ mv m <. flit 1 1000) = true) ->
      apply e p mv = p).
Proof.
  assert (Hall : forall (F : Type) (A : FloatArith F) (e : MacroEngine F)
                        (mv : list F) (p : SceneParams F),
             (forall m, (m < Z.to_nat kNumMacros)%nat ->
                        (at_ mv m <. flit 1 1000) = true) ->
             apply e p mv = p).
  { intros F A e mv p Hsmall. unfold apply.
    apply (forLoop_invariant (fun _ acc => acc = p)).
    - reflexivity.
    - intros i acc Hi ->. apply applyMacro_skip. apply Hsmall. exact Hi. }
  split; [|split].
  - intros e p. apply Hall. intros m Hm.
    change (Z.to_nat kNumMacros) with 4%nat in Hm.
    do 4 (destruct m as [|m]; [vm_compute; reflexivity|]). lia.
  - intros. apply applyMacro_skip. assumption.
  - exact Hall.
Qed.

Lemma apply_zero_macros_noop_witness :
  let mv : list float := [flit 1 2000; fofZ 0; fofZ 0; fofZ 0] in
  (at_ mv 0 <. flit 1 1000) = true /\
  applyMacro initDefaultMappings mv 0 createDefault = createDefault.
Proof.
  intros mv.
  assert (Hlt : (at_ mv 0 <. flit 1 1000) = true) by reflexivity.
  split; [exact Hlt|].
  exact (proj1 (proj2 apply_zero_macros_noop) float binary32
           initDefaultMappings mv 0%nat createDefault Hlt).
Defined.

(** ** The delay stage ([DelayModule]) *)

(** In single precision a clamped value is never below the lower bound
    nor above the upper one, whatever the input, NaN included. *)
Lemma b32_clamp_not_outside (v lo hi : float) :
  SFltb hi lo = false ->
  SFltb (clamp v lo hi) lo = false /\ SFltb hi (clamp v lo hi) = false.
Proof.
  intros Hle. unfold clamp. simpl.
  destruct (SFltb v lo) eqn:Hlo.
  - split; [apply SFltb_irrefl | exact Hle].
  - destruct (SFltb hi v) eqn:Hhi.
    + split; [exact Hle | apply SFltb_irrefl].
    + split; assumption.
Qed.

Lemma b32_fmin_not_above (a b : float) : SFltb b (fmin a b) = false.
Proof.
  unfold fmin. simpl. destruct (SFltb b a) eqn:Hba.
  - apply SFltb_irrefl.
  - exact Hba.
Qed.

Section DelayFacts.
Context `{JuceDsp}.

Lemma processChannel_fb (delayed : list float) (channels : Z) (s ch : nat)
    (st : DelayModule * list (list float)) :
  fb (fst (processChannel delayed channels s ch st)) = fb (fst st).
Proof.
  destruct st as [d buffer]. unfold processChannel.
  destruct (toneLPF d !! ch) as [lpf|]; [|reflexivity].
  destruct (feedbackOf d delayed channels ch lpf) as [fs lpf']. reflexivity.
Qed.

Lemma processSampleAt_fb (s : nat) (st : DelayModule * list (list float)) :
  fb (fst (processSampleAt s st)) = fb (fst st).
Proof.
  destruct st as [d buffer]. unfold processSampleAt.
  destruct (getNextValue (smoothDelay_ d)) as [currentDelay smooth'].
  match goal with
  | |- fb (fst (forLoop ?n ?body ?init)) = _ =>
      apply (forLoop_invariant (fun _ acc => fb (fst acc) = fb d) n body init)
  end.
  - reflexivity.
  - intros i acc _ Hacc. rewrite processChannel_fb. exact Hacc.
Qed.

Lemma process_fb (d : DelayModule) (buffer : list (list float)) :
  fb (fst (process d buffer)) = fb d.
Proof.
  unfold process.
  match goal with
  | |- fb (fst (forLoop ?n ?body ?init)) = _ =>
      apply (forLoop_invariant (fun _ acc => fb (fst acc) = fb d) n body init)
  end.
  - reflexivity.
  - intros i acc _ Hacc. rewrite processSampleAt_fb. exact Hacc.
Qed.

(** C7.  After [setParameters], whatever feedback was requested, the
    stored coefficient is not above 0.95 (it is at most 0.95 unless the
    request was NaN); [process] never changes it, and every feedback
    sample is a filter output multiplied by it. *)
Theorem delay_feedback_cap (d : DelayModule) (syncIndex : Z)
    (feedback tone01 width01 : float) (pingPong : bool) (bpm : float) :
  let d' := setParameters d syncIndex feedback tone01 width01 pingPong bpm in
  SFltb (flit 95 100) (fb d') = false
  /\ (isNaN feedback = false -> SFleb (fb d') (flit 95 100) = true)
  /\ (forall buffer, fb (fst (process d' buffer)) = fb d')
  /\ (forall delayed channels ch lpf,
         exists y, fst (feedbackOf d' delayed channels ch lpf) = y ⊗ fb d').
Proof.
  intros d'.
  assert (Hfb : fb d' = fmin feedback (flit 95 100)) by reflexivity.
  split; [|split; [|split]].
  - rewrite Hfb. apply b32_fmin_not_above.
  - intros Hnan. apply SFltb_false_leb.
    + rewrite Hfb. unfold fmin. simpl.
      destruct (SFltb _ feedback); [reflexivity | exact Hnan].
    + reflexivity.
    + rewrite Hfb. apply b32_fmin_not_above.
  - intros buffer. apply process_fb.
  - intros delayed channels ch lpf. unfold feedbackOf.
    destruct (processSample lpf ch (at_ delayed ch)) as [y1 lpf1].
    destruct (isPingPong d' && (channels =? 2)).
    + destruct (processSample lpf1 ch (at_ delayed (1 - ch))) as [y2 lpf2].
      exists y2. reflexivity.
    + exists y1. reflexivity.
Qed.

Lemma newDelayOf_low_bpm (d : DelayModule) (syncIndex : Z) (bpm : float) :
  SFleb bpm (B64.ofZ 20) = true ->
  newDelayOf d syncIndex bpm = newDelayOf d syncIndex (B64.ofZ 120).
Proof.
  intros Hle. unfold newDelayOf.
  rewrite (SFleb_not_ltb _ _ Hle).
  replace (SFltb (B64.ofZ 20) (B64.ofZ 120)) with true by reflexivity.
  reflexivity.
Qed.

(** C8.  [setParameters] hands the smoother the delay time
    [beats * (60.0 / safeBpm) * sampleRate], computed in double precision,
    rounded to single and clamped to [1, bufSize - 1]; the beats of the
    eight sync indices are exactly 1/8, 1/4, 1/2, 1, 2, 4, 3/4 and 3/2; a
    tempo of 20 or less gives the result of 120; the clamped value is
    neither below 1 nor above [bufSize - 1]; and after [prepare] at
    48000 Hz (buffer of 96000 samples) the eight sync indices at 120 BPM
    give exactly the delay times of the design formula, 24000 samples
    for sync index 3. *)
Theorem setParameters_delay_time :
  (forall (d : DelayModule) (syncIndex : Z) (feedback tone01 width01 : float)
          (pingPong : bool) (bpm : float),
      smoothDelay_ (setParameters d syncIndex feedback tone01 width01 pingPong bpm)
      = setTargetValue (smoothDelay_ d) (newDelayOf d syncIndex bpm)
      /\ newDelayOf d syncIndex bpm
         = clamp
             (B64.toFloat
                (B64.mul
                   (B64.mul (B64.ofFloat (at_ noteBeats (Z.to_nat (clampZ syncIndex 0 7))))
                            (B64.div (B64.ofZ 60)
                                     (if SFltb (B64.ofZ 20) bpm then bpm else B64.ofZ 120)))
                   (sampleRate d)))
             (fofZ 1) (fofZ (bufSize_ d - 1)))
  /\ map SF2Q noteBeats = specBeats
  /\ (forall (d : DelayModule) (syncIndex : Z) (bpm : float),
         SFleb bpm (B64.ofZ 20) = true ->
         newDelayOf d syncIndex bpm = newDelayOf d syncIndex (B64.ofZ 120))
  /\ (forall (d : DelayModule) (syncIndex : Z) (bpm : float),
         SFltb (fofZ (bufSize_ d - 1)) (fofZ 1) = false ->
         SFltb (newDelayOf d syncIndex bpm) (fofZ 1) = false /\
         SFltb (fofZ (bufSize_ d - 1)) (newDelayOf d syncIndex bpm) = false)
  /\ (let d := prepare (B64.ofZ 48000) 2 in
      bufSize_ d = 96000 /\
      newDelayOf d 3 (B64.ofZ 120) = fofZ 24000 /\
      map (fun i => SF2Q (newDelayOf d (Z.of_nat i) (B64.ofZ 120))) (seq 0 8)
      = map (fun i => specDelaySamples i 120 48000 96000) (seq 0 8) /\
      map (fun i => SF2Q (newDelayOf d (Z.of_nat i) (B64.ofZ 15))) (seq 0 8)
      = map (fun i => specDelaySamples i 15 48000 96000) (seq 0 8)).
Proof.
  split; [|split; [|split; [|split]]].
  - intros. split; reflexivity.
  - vm_compute. reflexivity.
  - exact newDelayOf_low_bpm.
  - intros d syncIndex bpm Hcap. unfold newDelayOf.
    apply b32_clamp_not_outside. exact Hcap.
  - cbv zeta. repeat split; vm_compute; reflexivity.
Qed.
End DelayFacts.

Lemma delay_feedback_cap_witness :
  let d := @setParameters onePoleDsp (@prepare onePoleDsp (B64.ofZ 48000) 2) 3
             (fofZ 2) (flit 1 2) (fofZ 1) false (B64.ofZ 120) in
  isNaN (fofZ 2) = false /\
  @fb onePoleDsp d = flit 95 100 /\
  SFleb (@fb onePoleDsp d) (flit 95 100) = true.
Proof.
  intros d.
  assert (Hn : isNaN (fofZ 2) = false) by reflexivity.
  split; [exact Hn|]. split; [reflexivity|].
  exact (proj1 (proj2 (@delay_feedback_cap onePoleDsp
           (@prepare onePoleDsp (B64.ofZ 48000) 2) 3
           (fofZ 2) (flit 1 2) (fofZ 1) false (B64.ofZ 120))) Hn).
Defined.

Lemma setParameters_delay_time_witness :
  let d := @prepare onePoleDsp (B64.ofZ 48000) 2 in
  (SFleb (B64.ofZ 10) (B64.ofZ 20) = true /\
   SFltb (fofZ (@bufSize_ onePoleDsp d - 1)) (fofZ 1) = false) /\
  @newDelayOf onePoleDsp d 3 (B64.ofZ 10) = fofZ 24000 /\
  SFltb (fofZ 95999) (@newDelayOf onePoleDsp d 5 (B64.ofZ 120)) = false.
Proof.
  intros d.
  assert (Hb : SFleb (B64.ofZ 10) (B64.ofZ 20) = true) by reflexivity.
  assert (Hc : SFltb (fofZ (@bufSize_ onePoleDsp d - 1)) (fofZ 1) = false)
    by reflexivity.
  split; [split; assumption|]. split.
  - rewrite (proj1 (proj2 (proj2 (@setParameters_delay_time onePoleDsp))) d 3 _ Hb).
    vm_compute. reflexivity.
  - exact (proj2 (proj1 (proj2 (proj2 (proj2 (@setParameters_delay_time onePoleDsp))))
                    d 5 (B64.ofZ 120) Hc)).
Defined.

(** What the second channel loop of [process] writes into the delay
    line of channel [ch]: the input sample plus the feedback sample, at
    the write cursor. *)
Lemma processChannel_writes `{JuceDsp} (delayed : list float) (channels : Z)
    (s ch : nat) (d : DelayModule) (buffer : list (list float)) (lpf : ToneFilter)
    (line : list float) :
  toneLPF d !! ch = Some lpf ->
  delayLine d !! ch = Some line ->
  delayLine (fst (processChannel delayed channels s ch (d, buffer))) !! ch
  = Some (<[Z.to_nat (atZ (writePos d) ch)
            := at_ (default [] (buffer !! ch)) s
               ⊕ fst (feedbackOf d delayed channels ch lpf)]> line).
Proof.
  intros Hlpf Hline. unfold processChannel. rewrite Hlpf.
  destruct (feedbackOf d delayed channels ch lpf) as [fs lpf'] eqn:Hf.
  simpl. rewrite Hline. simpl.
  apply list_lookup_insert_eq. apply lookup_lt_Some with line. exact Hline.
Qed.

(** C9, as the code behaves.  The feedback sample is produced by running
    the channel's tone filter on the channel's own delayed sample and,
    under ping-pong with two channels, running the same filter a second
    time on the other channel's delayed sample: the sample fed back has
    passed a filter whose memory the own-channel sample has already
    moved.  With a one-pole low-pass at rest, feedback 0.5 and a unit
    impulse on the left input, the sample after the impulse has the
    delayed samples (1, 0); filtering the right channel's 0 once would
    write 0 into the left delay line, the code writes 1/8. *)
Theorem pingpong_runs_tone_filter_twice :
  (forall (J : JuceDsp) (d : DelayModule) (delayed : list float) (channels : Z)
          (ch : nat) (lpf : ToneFilter),
      feedbackOf d delayed channels ch lpf =
      let '(y1, lpf1) := processSample lpf ch (at_ delayed ch) in
      if isPingPong d && (channels =? 2)
      then let '(y2, lpf2) := processSample lpf1 ch (at_ delayed (1 - ch)) in
           (y2 ⊗ fb d, lpf2)
      else (y1 ⊗ fb d, lpf1))
  /\
  (let d0 := @setParameters onePoleDsp (@prepare onePoleDsp (B64.ofZ 8) 2) 0
               (flit 1 2) (flit 1 2) (fofZ 1) true (B64.ofZ 120) in
   let buffer : list (list float) :=
     [[fofZ 1; fofZ 0; fofZ 0]; [fofZ 0; fofZ 0; fofZ 0]] in
   let st1 := @processSampleAt onePoleDsp 0 (d0, buffer) in
   let d1 := fst st1 in
   let delayed := [@readDelayed onePoleDsp d1 (fofZ 1) 0;
                   @readDelayed onePoleDsp d1 (fofZ 1) 1] in
   let st2 := @processSampleAt onePoleDsp 1 st1 in
   @isPingPong onePoleDsp d1 = true /\
   @fb onePoleDsp d1 = flit 1 2 /\
   @smoothDelay_ onePoleDsp d1 = fofZ 1 /\
   @writePos onePoleDsp d1 = [1; 1] /\
   @toneLPF onePoleDsp d1 = [fofZ 0; fofZ 0] /\
   delayed = [fofZ 1; fofZ 0] /\
   at_ (default [] (snd st1 !! 0%nat)) 1
   ⊕ fst (@processSample onePoleDsp (fofZ 0) 0 (at_ delayed 1)) ⊗ @fb onePoleDsp d1
   = fofZ 0 /\
   at_ (default [] (@delayLine onePoleDsp (fst st2) !! 0%nat)) 1 = flit 1 8 /\
   at_ (default [] (@delayLine onePoleDsp (fst st2) !! 1%nat)) 1 = flit 1 4).
Proof.
  split.
  - intros J d delayed channels ch lpf. reflexivity.
  - vm_compute. repeat split; reflexivity.
Qed.

(** With ping-pong off the tone filter runs once per sample, on the
    channel's own delayed sample. *)
Lemma feedbackOf_no_pingpong `{JuceDsp} (d : DelayModule) (delayed : list float)
    (channels : Z) (ch : nat) (lpf : ToneFilter) :
  isPingPong d = false ->
  feedbackOf d delayed channels ch lpf =
  (fst (processSample lpf ch (at_ delayed ch)) ⊗ fb d,
   snd (processSample lpf ch (at_ delayed ch))).
Proof.
  intros Hpp. unfold feedbackOf. rewrite Hpp. simpl.
  destruct (processSample lpf ch (at_ delayed ch)). reflexivity.
Qed.

(** ** Out-of-range indices *)

Lemma clampZ_bounds (v lo hi : Z) : lo <= hi -> lo <= clampZ v lo hi <= hi.
Proof.
  intros Hle. unfold clampZ.
  destruct (Z.ltb_spec v lo); [lia|]. destruct (Z.ltb_spec hi v); lia.
Qed.

Lemma clampZ_id (v lo hi : Z) : lo <= v <= hi -> clampZ v lo hi = v.
Proof.
  intros Hv. unfold clampZ.
  destruct (Z.ltb_spec v lo); [lia|]. destruct (Z.ltb_spec hi v); lia.
Qed.

Lemma curveOfInt_clamped (n : Z) :
  curveOfInt (clampZ n 0 (curveCount - 1)) <> curve_kCount.
Proof.
  pose proof (clampZ_bounds n 0 (curveCount - 1)) as Hb.
  unfold curveCount in *.
  assert (Hc : clampZ n 0 (4 - 1) = 0 \/ clampZ n 0 (4 - 1) = 1 \/
               clampZ n 0 (4 - 1) = 2 \/ clampZ n 0 (4 - 1) = 3) by lia.
  destruct Hc as [-> |[-> |[-> | ->]]]; discriminate.
Qed.

Lemma findSceneParam_range {F : Type} `{FloatArith F} (name : ParamID) (k : nat) :
  findSceneParam (F:=F) name = Some k -> 0 <= Z.of_nat k < SceneParam.kCount.
Proof.
  unfold findSceneParam. intros Hf.
  destruct (list_find _ _) as [[i inf]|] eqn:Hl; [|discriminate].
  simpl in Hf. injection Hf as <-.
  apply list_find_Some in Hl. destruct Hl as (Hl & _ & _).
  apply lookup_lt_Some in Hl. simpl in Hl. unfold SceneParam.kCount. lia.
Qed.

(** A macro target with index 14 is neither clamped to 13 nor given a
    default field: [apply] passes over it, whereas every continuous
    field, 13 included, would have moved; likewise [setSceneParam] on
    scene 8 writes nothing, where each of the scenes 0 .. 7 would have
    been written. *)
Lemma out_of_range_index_counterexample :
  let p : SceneParams float := createDefault in
  let tg := fun idx : Z => mkTarget idx (flit 1 2 : float) linear in
  let P : Processor float := defaultProcessor in
  applyTarget (fofZ 1) p (tg 14) = p /\
  clampZ 14 0 (SceneParam.kCount - 1) = 13 /\
  applyTarget (fofZ 1) p (tg 13) <> p /\
  forallb (fun j : nat =>
             SceneParam.isDiscrete (SceneParam.infoAt (F:=float) j)
             || negb (SFeqb (getv (applyTarget (fofZ 1) p (tg (Z.of_nat j))) j)
                            (getv p j)))
          (seq 0 nCount) = true /\
  scenes_ (setSceneParam P 8 1 (fofZ 100)) = scenes_ P /\
  forallb (fun j : nat =>
             negb (SFeqb (getv (sceneAt (scenes_ (setSceneParam P (Z.of_nat j) 1 (fofZ 100))) j) 1)
                         (getv (sceneAt (scenes_ P) j) 1)))
          (seq 0 (Z.to_nat kNumScenes)) = true.
Proof.
  vm_compute. repeat split; try reflexivity. discriminate.
Qed.

(** C10, amended.  The scene selectors A and B are clamped to 0 .. 7
    before use; a persisted curve kind is clamped to the four kinds, a
    missing one is linear, and a restored target carries a field index
    within 0 .. 13; but a macro target whose field index is outside
    0 .. 13 is skipped by [apply], and an out-of-range scene, parameter
    or macro index makes [setSceneParam], [storeScene],
    [storeCurrentToScene], [setMappings] and the restoration of a
    persisted scene or macro element do nothing. *)
Theorem out_of_range_indices :
  forall (F : Type) (A : FloatArith F),
  (forall p : Processor F,
      0 <= sceneAIdx p <= kNumScenes - 1 /\ 0 <= sceneBIdx p <= kNumScenes - 1 /\
      (0 <= ftoInt (getRawParam p ID_sceneA) <= kNumScenes - 1 ->
       sceneAIdx p = ftoInt (getRawParam p ID_sceneA)))
  /\
  (forall (targets : list (MacroTarget F)) (x : TargetXml F),
      restoreTarget targets x = targets \/
      exists k c,
        restoreTarget targets x = targets ++ [mkTarget k (amountAttr x) c] /\
        0 <= k < SceneParam.kCount /\
        c = curveOfInt (clampZ (default 0 (curveAttr x)) 0 (curveCount - 1)) /\
        c <> curve_kCount /\
        (curveAttr x = None -> c = linear) /\
        (forall n, curveAttr x = Some n -> n < 0 -> c = linear) /\
        (forall n, curveAttr x = Some n -> curveCount <= n -> c = sCurve))
  /\
  (forall (raw : F) (p : SceneParams F) (tg : MacroTarget F),
      sceneParamIndex tg < 0 \/ SceneParam.kCount <= sceneParamIndex tg ->
      applyTarget raw p tg = p)
  /\
  (forall (p : Processor F) (sceneIndex paramIndex : Z) (v : F),
      sceneIndex < 0 \/ kNumScenes <= sceneIndex \/
      paramIndex < 0 \/ SceneParam.kCount <= paramIndex ->
      setSceneParam p sceneIndex paramIndex v = p)
  /\
  (forall (p : Processor F) (sceneIndex : Z),
      sceneIndex < 0 \/ kNumScenes <= sceneIndex ->
      storeScene p sceneIndex = p /\ storeCurrentToScene p sceneIndex = p)
  /\
  (forall (e : MacroEngine F) (macroIndex : Z) (targets : list (MacroTarget F)),
      macroIndex < 0 \/ kNumMacros <= macroIndex ->
      setMappings e macroIndex targets = e)
  /\
  (forall (scenes : list (SceneParams F)) (x : SceneXml F) (n : Z),
      sceneIndexAttr x = Some n -> n < 0 \/ kNumScenes <= n ->
      restoreScene scenes x = scenes)
  /\
  (forall (e : MacroEngine F) (x : MacroXml F) (n : Z),
      macroIndexAttr x = Some n -> n < 0 \/ kNumMacros <= n ->
      restoreMacro e x = e).
Proof.
  intros F A. repeat apply conj.
  - intros p. unfold sceneAIdx, sceneBIdx, kNumScenes.
    pose proof (clampZ_bounds (ftoInt (getRawParam p ID_sceneA)) 0 (8 - 1)).
    pose proof (clampZ_bounds (ftoInt (getRawParam p ID_sceneB)) 0 (8 - 1)).
    repeat split; try lia. intros Hv. apply clampZ_id. exact Hv.
  - intros targets x. unfold restoreTarget.
    destruct (paramAttr x) as [name|]; [|left; reflexivity].
    destruct (findSceneParam name) as [k|] eqn:Hk; [|left; reflexivity].
    right. exists (Z.of_nat k). eexists. split; [reflexivity|].
    split; [exact (findSceneParam_range name k Hk)|].
    split; [reflexivity|]. split; [apply curveOfInt_clamped|].
    split; [|split].
    + intros ->. reflexivity.
    + intros n -> Hn. simpl. unfold clampZ.
      destruct (Z.ltb_spec n 0); [reflexivity | lia].
    + intros n -> Hn. simpl. unfold clampZ, curveCount in *.
      destruct (Z.ltb_spec n 0); [lia|].
      destruct (Z.ltb_spec (4 - 1) n); [reflexivity | lia].
  - intros raw p tg Hidx. apply applyTarget_out_of_range. exact Hidx.
  - intros p sceneIndex paramIndex v Hidx. unfold setSceneParam.
    destruct (Z.leb_spec 0 sceneIndex); simpl; [|reflexivity].
    destruct (Z.ltb_spec sceneIndex kNumScenes); simpl; [|reflexivity].
    destruct (Z.leb_spec 0 paramIndex); simpl; [|reflexivity].
    destruct (Z.ltb_spec paramIndex SceneParam.kCount); simpl; [|reflexivity].
    lia.
  - intros p sceneIndex Hidx. unfold storeScene, storeCurrentToScene.
    destruct (Z.ltb_spec sceneIndex 0); simpl; [split; reflexivity|].
    destruct (Z.leb_spec kNumScenes sceneIndex); simpl; [split; reflexivity|].
    lia.
  - intros e macroIndex targets Hidx. unfold setMappings.
    destruct (Z.leb_spec 0 macroIndex); simpl; [|reflexivity].
    destruct (Z.ltb_spec macroIndex kNumMacros); simpl; [|reflexivity].
    lia.
  - intros scenes x n Hn Hidx. unfold restoreScene. rewrite Hn. simpl.
    destruct (Z.ltb_spec n 0); simpl; [reflexivity|].
    destruct (Z.leb_spec kNumScenes n); simpl; [reflexivity|]. lia.
  - intros e x n Hn Hidx. unfold restoreMacro. rewrite Hn. simpl.
    destruct (Z.ltb_spec n 0); simpl; [reflexivity|].
    destruct (Z.leb_spec kNumMacros n); simpl; [reflexivity|]. lia.
Qed.

Lemma out_of_range_indices_witness :
  let tg := mkTarget 14 (flit 1 2 : float) linear in
  (sceneParamIndex tg < 0 \/ SceneParam.kCount <= sceneParamIndex tg) /\
  applyTarget (fofZ 1) createDefault tg = createDefault.
Proof.
  intros tg.
  assert (Hidx : sceneParamIndex tg < 0 \/ SceneParam.kCount <= sceneParamIndex tg)
    by (right; vm_compute; discriminate).
  split; [exact Hidx|].
  exact (proj1 (proj2 (proj2 (out_of_range_indices float binary32)))
           (fofZ 1) createDefault tg Hidx).
Defined.

(** ** The range invariant of the scene bank *)

Section BankFacts.
Context {F : Type} `{FloatArith F}.

Lemma sceneInRange_setv (s : SceneParams F) (k : nat) (v : F) :
  sceneInRange s = true ->
  ((k < nCount)%nat -> inRangeOf k v = true) ->
  sceneInRange (setv s k v) = true.
Proof.
  intros Hs Hv. apply sceneInRange_spec in Hs. destruct Hs as [Hlen Hall].
  apply sceneInRange_spec. split.
  - rewrite setv_length. exact Hlen.
  - intros i Hi. destruct (decide (k = i)) as [->|Hne].
    + rewrite getv_setv_eq by (rewrite Hlen; exact Hi). apply Hv. exact Hi.
    + rewrite getv_setv_ne by exact Hne. apply Hall. exact Hi.
Qed.

Lemma bankInRange_sceneAt (scenes : list (SceneParams F)) (i : nat) :
  bankInRange scenes = true ->
  (i < Z.to_nat kNumScenes)%nat ->
  sceneInRange (sceneAt scenes i) = true.
Proof.
  intros Hb Hi. apply bankInRange_spec in Hb. destruct Hb as [Hlen Hall].
  unfold sceneAt. destruct (scenes !! i) as [s|] eqn:Hs.
  - simpl. apply Hall. apply list_elem_of_In. eapply list_elem_of_lookup_2. exact Hs.
  - apply lookup_ge_None in Hs. lia.
Qed.

Lemma bankInRange_insert (scenes : list (SceneParams F)) (i : nat) (s : SceneParams F) :
  bankInRange scenes = true ->
  sceneInRange s = true ->
  bankInRange (<[i := s]> scenes) = true.
Proof.
  intros Hb Hs. apply bankInRange_spec in Hb. destruct Hb as [Hlen Hall].
  apply bankInRange_spec. split.
  - rewrite length_insert. exact Hlen.
  - intros s' Hin. apply list_elem_of_In in Hin.
    apply list_elem_of_lookup in Hin. destruct Hin as [j Hj].
    destruct (decide (i = j)) as [->|Hne].
    + assert (Hlt : (j < length scenes)%nat).
      { apply lookup_lt_Some in Hj. rewrite length_insert in Hj. exact Hj. }
      rewrite list_lookup_insert_eq in Hj by exact Hlt.
      injection Hj as <-. exact Hs.
    + rewrite list_lookup_insert_ne in Hj by exact Hne.
      apply Hall. apply list_elem_of_In. eapply list_elem_of_lookup_2. exact Hj.
Qed.

Lemma setSceneParam_preserves (p : Processor F) (sceneIndex paramIndex : Z) (v : F) :
  bankInRange (scenes_ p) = true ->
  (0 <= paramIndex < SceneParam.kCount -> inRangeOf (Z.to_nat paramIndex) v = true) ->
  bankInRange (scenes_ (setSceneParam p sceneIndex paramIndex v)) = true.
Proof.
  intros Hb Hv. unfold setSceneParam.
  destruct (Z.leb_spec 0 sceneIndex); simpl; [|exact Hb].
  destruct (Z.ltb_spec sceneIndex kNumScenes); simpl; [|exact Hb].
  destruct (Z.leb_spec 0 paramIndex); simpl; [|exact Hb].
  destruct (Z.ltb_spec paramIndex SceneParam.kCount); simpl; [|exact Hb].
  apply bankInRange_insert; [exact Hb|].
  apply sceneInRange_setv.
  - apply bankInRange_sceneAt; [exact Hb|]. apply Z2Nat.inj_lt; lia.
  - intros _. apply Hv. lia.
Qed.

Lemma storeScene_preserves (p : Processor F) (sceneIndex : Z) :
  bankInRange (scenes_ p) = true ->
  (forall k, (k < nCount)%nat ->
             inRangeOf k (getRawParam p (SceneParam.id (SceneParam.infoAt (F:=F) k))) = true) ->
  bankInRange (scenes_ (storeScene p sceneIndex)) = true.
Proof.
  intros Hb Hv. unfold storeScene.
  destruct (Z.ltb_spec sceneIndex 0); simpl; [exact Hb|].
  destruct (Z.leb_spec kNumScenes sceneIndex); simpl; [exact Hb|].
  apply bankInRange_insert; [exact Hb|].
  apply (forLoop_invariant (fun _ scene => sceneInRange scene = true)).
  - apply bankInRange_sceneAt; [exact Hb|]. apply Z2Nat.inj_lt; lia.
  - intros k scene Hk Hscene. apply sceneInRange_setv; [exact Hscene|].
    intros _. apply Hv. exact Hk.
Qed.

Lemma restoreScene_preserves (scenes : list (SceneParams F)) (x : SceneXml F) :
  bankInRange scenes = true ->
  (forall k v, (k < nCount)%nat ->
               sceneAttr x (SceneParam.id (SceneParam.infoAt (F:=F) k)) = Some v ->
               inRangeOf k v = true) ->
  bankInRange (restoreScene scenes x) = true.
Proof.
  intros Hb Hv. unfold restoreScene.
  destruct (Z.ltb_spec (default (-1) (sceneIndexAttr x)) 0); simpl; [exact Hb|].
  destruct (Z.leb_spec kNumScenes (default (-1) (sceneIndexAttr x))); simpl;
    [exact Hb|].
  apply (forLoop_invariant (fun _ acc => bankInRange acc = true)).
  - exact Hb.
  - intros k acc Hk Hacc.
    destruct (sceneAttr x (SceneParam.id (SceneParam.infoAt k))) as [v|] eqn:Hattr;
      [|exact Hacc].
    apply bankInRange_insert; [exact Hacc|].
    apply sceneInRange_setv.
    + apply bankInRange_sceneAt; [exact Hacc|]. apply Z2Nat.inj_lt; lia.
    + intros _. apply (Hv k v Hk Hattr).
Qed.

Lemma setStateInformation_preserves (doc : option (Document F)) (p : Processor F) :
  bankInRange (scenes_ p) = true ->
  (forall x, In x (docScenes doc) ->
     forall k v, (k < nCount)%nat ->
                 sceneAttr x (SceneParam.id (SceneParam.infoAt (F:=F) k)) = Some v ->
                 inRangeOf k v = true) ->
  bankInRange (scenes_ (setStateInformation doc p)) = true.
Proof.
  intros Hb Hv. unfold setStateInformation.
  destruct doc as [[apvtsXml scenesXml macrosXml|apvtsState|]|]; simpl; try exact Hb.
  destruct scenesXml as [l|]; [|exact Hb]. simpl in Hv.
  revert Hb. generalize (scenes_ p) as scenes.
  induction l as [|x l IH]; intros scenes Hb; simpl; [exact Hb|].
  apply IH.
  - intros y Hy. apply Hv. right. exact Hy.
  - apply restoreScene_preserves; [exact Hb|]. apply Hv. left. reflexivity.
Qed.

(** [setSceneParam] stores the value it is given as it is. *)
Lemma setSceneParam_stores (p : Processor F) (sceneIndex paramIndex : Z) (v : F) :
  bankInRange (scenes_ p) = true ->
  0 <= sceneIndex < kNumScenes ->
  0 <= paramIndex < SceneParam.kCount ->
  getv (sceneAt (scenes_ (setSceneParam p sceneIndex paramIndex v)) (Z.to_nat sceneIndex))
       (Z.to_nat paramIndex) = v.
Proof.
  intros Hb Hs Hp. unfold setSceneParam.
  destruct (Z.leb_spec 0 sceneIndex); simpl; [|lia].
  destruct (Z.ltb_spec sceneIndex kNumScenes); simpl; [|lia].
  destruct (Z.leb_spec 0 paramIndex); simpl; [|lia].
  destruct (Z.ltb_spec paramIndex SceneParam.kCount); simpl; [|lia].
  assert (Hi : (Z.to_nat sceneIndex < Z.to_nat kNumScenes)%nat)
    by (apply Z2Nat.inj_lt; lia).
  pose proof (bankInRange_sceneAt _ _ Hb Hi) as Hsc.
  apply sceneInRange_spec in Hsc. destruct Hsc as [Hlen _].
  apply bankInRange_spec in Hb. destruct Hb as [Hblen _].
  unfold sceneAt at 1. rewrite list_lookup_insert_eq by (rewrite Hblen; exact Hi).
  simpl. apply getv_setv_eq. rewrite Hlen. unfold nCount.
  apply Z2Nat.inj_lt; lia.
Qed.
End BankFacts.

Section ExactRange.
Local Open Scope R_scope.

Lemma R_inRangeOf (i : nat) (v : R) :
  inRangeOf i v = true <->
  SceneParam.minVal (SceneParam.infoAt i) <= v <= SceneParam.maxVal (SceneParam.infoAt i).
Proof.
  unfold inRangeOf. simpl. rewrite andb_true_iff, !Rleb_true. reflexivity.
Qed.

(** Every row of the table has its minimum below its maximum. *)
Lemma R_range_nonempty (i : nat) :
  (i < nCount)%nat ->
  SceneParam.minVal (SceneParam.infoAt (F:=R) i)
  <= SceneParam.maxVal (SceneParam.infoAt (F:=R) i).
Proof.
  intros Hi.
  do 14 (destruct i as [|i]; [simpl; lra|]).
  change (@nCount) with 14%nat in Hi. lia.
Qed.

(** Morphing two snapshots that are within range, with a factor in
    [0, 1], gives a snapshot within range. *)
Lemma R_morph_inRange (a b : SceneParams R) (t : R) :
  sceneInRange a = true -> sceneInRange b = true -> 0 <= t <= 1 ->
  sceneInRange (morph a b t) = true.
Proof.
  intros Ha Hb Ht.
  apply sceneInRange_spec in Ha. destruct Ha as [_ Ha].
  apply sceneInRange_spec in Hb. destruct Hb as [_ Hb].
  apply sceneInRange_spec. split; [apply morph_length|].
  intros i Hi. rewrite morph_getv by exact Hi.
  specialize (Ha i Hi). specialize (Hb i Hi).
  destruct (SceneParam.isDiscrete (SceneParam.infoAt i)).
  - destruct (t <. flit 5 10); assumption.
  - apply R_inRangeOf in Ha. apply R_inRangeOf in Hb. apply R_inRangeOf.
    simpl. split; nra.
Qed.

Lemma R_applyTarget_inRange (raw : R) (p : SceneParams R) (tg : MacroTarget R) :
  sceneInRange p = true -> sceneInRange (applyTarget raw p tg) = true.
Proof.
  intros Hp. unfold applyTarget.
  destruct ((sceneParamIndex tg <? 0)%Z || (SceneParam.kCount <=? sceneParamIndex tg)%Z);
    [exact Hp|].
  destruct (SceneParam.isDiscrete _); [exact Hp|].
  apply sceneInRange_setv; [exact Hp|].
  intros Hk. apply R_inRangeOf. apply Rclamp_bounds.
  apply R_range_nonempty. exact Hk.
Qed.

Lemma R_apply_inRange (e : MacroEngine R) (p : SceneParams R) (mv : list R) :
  sceneInRange p = true -> sceneInRange (apply e p mv) = true.
Proof.
  intros Hp. unfold apply.
  apply (forLoop_invariant (fun _ acc => sceneInRange acc = true)); [exact Hp|].
  intros m acc _ Hacc. unfold applyMacro.
  destruct (at_ mv m <. flit 1 1000); [exact Hacc|].
  revert acc Hacc. induction (getMappings e m) as [|tg l IH]; intros acc Hacc.
  - exact Hacc.
  - simpl. apply IH. apply R_applyTarget_inRange. exact Hacc.
Qed.

Lemma R_storeCurrentToScene_preserves (p : Processor R) (sceneIndex : Z) :
  bankInRange (scenes_ p) = true ->
  0 <= getRawParam p ID_morph <= 1 ->
  bankInRange (scenes_ (storeCurrentToScene p sceneIndex)) = true.
Proof.
  intros Hb Ht. unfold storeCurrentToScene.
  destruct (Z.ltb_spec sceneIndex 0); simpl; [exact Hb|].
  destruct (Z.leb_spec kNumScenes sceneIndex); simpl; [exact Hb|].
  apply bankInRange_insert; [exact Hb|].
  unfold morphAndMacros. apply R_apply_inRange. apply R_morph_inRange.
  - apply bankInRange_sceneAt; [exact Hb|].
    pose proof (clampZ_bounds (ftoInt (getRawParam p ID_sceneA)) 0 (kNumScenes - 1)) as Hc.
    unfold sceneAIdx. unfold kNumScenes in Hc |- *.
    apply Z2Nat.inj_lt; lia.
  - apply bankInRange_sceneAt; [exact Hb|].
    pose proof (clampZ_bounds (ftoInt (getRawParam p ID_sceneB)) 0 (kNumScenes - 1)) as Hc.
    unfold sceneBIdx. unfold kNumScenes in Hc |- *.
    apply Z2Nat.inj_lt; lia.
  - exact Ht.
Qed.
Lemma R_createDefault_inRange : sceneInRange (createDefault (F:=R)) = true.
Proof.
  apply sceneInRange_spec. split; [reflexivity|].
  intros i Hi.
  do 14 (destruct i as [|i]; [apply R_inRangeOf; cbv; lra|]).
  change (@nCount) with 14%nat in Hi. lia.
Qed.

Lemma R_defaultBank_inRange : bankInRange (defaultBank (F:=R)) = true.
Proof.
  apply bankInRange_spec. split; [reflexivity|].
  intros s Hin. simpl in Hin.
  repeat (destruct Hin as [<-|Hin]; [apply R_createDefault_inRange|]).
  destruct Hin.
Qed.
End ExactRange.

(** The operations that write a scene slot do not clamp.  On the default
    bank, which is within range: [setSceneParam] stores a cutoff of
    99999 Hz as it is; a persisted scene with resonance 5 is restored as
    it is; and in single precision [storeCurrentToScene] at morph 1,
    with all macros at zero, between a delay feedback of 0.09 and one of
    0.95 stores [0.09 + 1 * (0.95 - 0.09)], which is one unit in the last
    place above the maximum 0.95. *)
Lemma scene_bank_range_counterexample :
  let P : Processor float := defaultProcessor in
  let doc : option (Document float) :=
    Some (PresetDoc None
            (Some [mkSceneXml (Some 0)
                     (fun name => if decide (name = ID_filtReso)
                                  then Some (fofZ 5) else None)])
            None) in
  let Q : Processor float :=
    mkProcessor
      (fun name => match name with
                   | ID_sceneB | ID_morph => fofZ 1
                   | _ => fofZ 0
                   end)
      (<[0%nat := setv createDefault 6 (flit 9 100)]>
         (<[1%nat := setv createDefault 6 (flit 95 100)]> defaultBank))
      initDefaultMappings in
  bankInRange (scenes_ P) = true /\
  bankInRange (scenes_ (setSceneParam P 0 SceneParam.filtCutoff (fofZ 99999))) = false /\
  getv (sceneAt (scenes_ (setSceneParam P 0 SceneParam.filtCutoff (fofZ 99999))) 0) 1
  = fofZ 99999 /\
  bankInRange (scenes_ (setStateInformation doc P)) = false /\
  bankInRange (scenes_ Q) = true /\
  getv (sceneAt (scenes_ (storeCurrentToScene Q 2)) 2) 6
  = S754_finite false 15938356 (-24) /\
  (flit 95 100 : float) = S754_finite false 15938355 (-24) /\
  bankInRange (scenes_ (storeCurrentToScene Q 2)) = false.
Proof.
  vm_compute. repeat split; reflexivity.
Qed.

(** C1, amended.  The operations that write a scene slot store what
    they are given: each keeps the bank within range when its inputs are
    within range.  [setSceneParam] stores its value unchanged and keeps
    the invariant when the value lies in the range of the addressed
    field; [storeScene] keeps it when the fourteen host parameter values
    lie in their ranges; [setStateInformation] keeps it when every scene
    attribute present in the document lies in the range of its field;
    [storeCurrentToScene] keeps it, in exact arithmetic, when the morph
    factor lies in [0, 1]. *)
Theorem scene_bank_range_preserved :
  (forall (F : Type) (A : FloatArith F) (p : Processor F)
          (sceneIndex paramIndex : Z) (v : F),
      bankInRange (scenes_ p) = true ->
      (0 <= paramIndex < SceneParam.kCount -> inRangeOf (Z.to_nat paramIndex) v = true) ->
      bankInRange (scenes_ (setSceneParam p sceneIndex paramIndex v)) = true)
  /\
  (forall (F : Type) (A : FloatArith F) (p : Processor F)
          (sceneIndex paramIndex : Z) (v : F),
      bankInRange (scenes_ p) = true ->
      0 <= sceneIndex < kNumScenes ->
      0 <= paramIndex < SceneParam.kCount ->
      getv (sceneAt (scenes_ (setSceneParam p sceneIndex paramIndex v))
                    (Z.to_nat sceneIndex))
           (Z.to_nat paramIndex) = v)
  /\
  (forall (F : Type) (A : FloatArith F) (p : Processor F) (sceneIndex : Z),
      bankInRange (scenes_ p) = true ->
      (forall k, (k < nCount)%nat ->
         inRangeOf k (getRawParam p (SceneParam.id (SceneParam.infoAt (F:=F) k))) = true) ->
      bankInRange (scenes_ (storeScene p sceneIndex)) = true)
  /\
  (forall (F : Type) (A : FloatArith F) (doc : option (Document F)) (p : Processor F),
      bankInRange (scenes_ p) = true ->
      (forall x, In x (docScenes doc) ->
         forall k v, (k < nCount)%nat ->
           sceneAttr x (SceneParam.id (SceneParam.infoAt (F:=F) k)) = Some v ->
           inRangeOf k v = true) ->
      bankInRange (scenes_ (setStateInformation doc p)) = true)
  /\
  (forall (p : Processor R) (sceneIndex : Z),
      bankInRange (scenes_ p) = true ->
      (0 <= getRawParam p ID_morph <= 1)%R ->
      bankInRange (scenes_ (storeCurrentToScene p sceneIndex)) = true).
Proof.
  split; [|split; [|split; [|split]]].
  - intros F A. apply setSceneParam_preserves.
  - intros F A. apply setSceneParam_stores.
  - intros F A. apply storeScene_preserves.
  - intros F A. apply setStateInformation_preserves.
  - exact R_storeCurrentToScene_preserves.
Qed.

Lemma scene_bank_range_preserved_witness :
  let P : Processor float := defaultProcessor in
  let PR : Processor R :=
    mkProcessor (fun name => match name with
                             | ID_morph => (1 / 2)%R
                             | ID_macro1 => 1%R
                             | _ => 0%R
                             end)
                defaultBank initDefaultMappings in
  (bankInRange (scenes_ P) = true /\
   (0 <= 1 < SceneParam.kCount ->
    inRangeOf (F:=float) (Z.to_nat 1) (fofZ 440) = true)) /\
  bankInRange (scenes_ (setSceneParam P 3 1 (fofZ 440))) = true /\
  (bankInRange (scenes_ PR) = true /\ (0 <= getRawParam PR ID_morph <= 1)%R) /\
  bankInRange (scenes_ (storeCurrentToScene PR 2)) = true.
Proof.
  intros P PR.
  assert (Hb : bankInRange (scenes_ P) = true) by reflexivity.
  assert (Hv : 0 <= 1 < SceneParam.kCount ->
               inRangeOf (F:=float) (Z.to_nat 1) (fofZ 440) = true)
    by (intros _; reflexivity).
  assert (HbR : bankInRange (scenes_ PR) = true) by exact R_defaultBank_inRange.
  assert (HtR : (0 <= getRawParam PR ID_morph <= 1)%R) by (simpl; lra).
  split; [split; assumption|]. split.
  - exact (proj1 scene_bank_range_preserved float binary32 P 3 1 (fofZ 440) Hb Hv).
  - split; [split; assumption|].
    exact (proj2 (proj2 (proj2 (proj2 scene_bank_range_preserved))) PR 2 HbR HtR).
Defined.

(** ** Further properties of the macro engine *)

Section EngineFacts.
Context {F : Type} `{FloatArith F}.

(** Writing a slot changes that slot at most. *)
Lemma getv_setv_cases (s : SceneParams F) (i j : nat) (v : F) :
  getv (setv s i v) j = getv s j \/ (j = i /\ getv (setv s i v) j = v).
Proof.
  destruct (decide (i = j)) as [->|Hne].
  - destruct (decide (j < length (values s))%nat) as [Hlt|Hge].
    + right. split; [reflexivity|]. apply getv_setv_eq. exact Hlt.
    + left. unfold getv, setv, at_. simpl.
      rewrite list_insert_ge by lia. reflexivity.
  - left. apply getv_setv_ne. exact Hne.
Qed.

(** A target leaves alone every field it does not address, and every
    discrete field. *)
Lemma applyTarget_other (raw : F) (p : SceneParams F) (tg : MacroTarget F) (j : nat) :
  sceneParamIndex tg <> Z.of_nat j
  \/ SceneParam.isDiscrete (SceneParam.infoAt (F:=F) j) = true ->
  getv (applyTarget raw p tg) j = getv p j.
Proof.
  intros Hj. unfold applyTarget.
  destruct (Z.ltb_spec (sceneParamIndex tg) 0) as [?|Hge]; [reflexivity|].
  destruct (Z.leb_spec SceneParam.kCount (sceneParamIndex tg)) as [?|Hlt];
    [reflexivity|]. simpl.
  destruct (SceneParam.isDiscrete (SceneParam.infoAt (Z.to_nat (sceneParamIndex tg))))
    eqn:Hd; [reflexivity|].
  apply getv_setv_ne. intros Heq. destruct Hj as [Hne|Hdj].
  - apply Hne. rewrite <- Heq. rewrite Z2Nat.id by lia. reflexivity.
  - rewrite Heq in Hd. congruence.
Qed.

Lemma fold_applyTarget_other (raw : F) (l : list (MacroTarget F)) (p : SceneParams F)
    (j : nat) :
  (forall tg, In tg l ->
     sceneParamIndex tg <> Z.of_nat j
     \/ SceneParam.isDiscrete (SceneParam.infoAt (F:=F) j) = true) ->
  getv (fold_left (applyTarget raw) l p) j = getv p j.
Proof.
  revert p. induction l as [|tg l IH]; intros p Hl; [reflexivity|].
  simpl. rewrite IH.
  - apply applyTarget_other. apply Hl. left. reflexivity.
  - intros tg' Hin. apply Hl. right. exact Hin.
Qed.

Lemma apply_other (e : MacroEngine F) (p : SceneParams F) (mv : list F) (j : nat) :
  (forall m tg, (m < Z.to_nat kNumMacros)%nat ->
     (at_ mv m <. flit 1 1000) = false ->
     In tg (getMappings e m) ->
     sceneParamIndex tg <> Z.of_nat j
     \/ SceneParam.isDiscrete (SceneParam.infoAt (F:=F) j) = true) ->
  getv (apply e p mv) j = getv p j.
Proof.
  intros Hall. unfold apply.
  apply (forLoop_invariant (fun _ acc => getv acc j = getv p j)); [reflexivity|].
  intros m acc Hm Hacc. unfold applyMacro.
  destruct (at_ mv m <. flit 1 1000) eqn:Hlt; [exact Hacc|].
  rewrite fold_applyTarget_other; [exact Hacc|].
  intros tg Hin. exact (Hall m tg Hm Hlt Hin).
Qed.

Lemma fold_applyTarget_length (raw : F) (l : list (MacroTarget F)) (p : SceneParams F) :
  length (values (fold_left (applyTarget raw) l p)) = length (values p).
Proof.
  revert p. induction l as [|tg l IH]; intros p; [reflexivity|].
  simpl. rewrite IH. apply applyTarget_length.
Qed.

Lemma apply_length (e : MacroEngine F) (p : SceneParams F) (mv : list F) :
  length (values (apply e p mv)) = length (values p).
Proof.
  unfold apply.
  apply (forLoop_invariant (fun _ acc => length (values acc) = length (values p)));
    [reflexivity|].
  intros m acc _ Hacc. unfold applyMacro.
  destruct (at_ mv m <. flit 1 1000); [exact Hacc|].
  rewrite fold_applyTarget_length. exact Hacc.
Qed.

Lemma getMappings_setMappings_eq (e : MacroEngine F) (m : Z) (ts : list (MacroTarget F)) :
  length (mappings_ e) = Z.to_nat kNumMacros -> 0 <= m < kNumMacros ->
  getMappings (setMappings e m ts) (Z.to_nat m) = ts.
Proof.
  intros Hlen Hm. unfold setMappings, getMappings.
  destruct (Z.leb_spec 0 m); [|lia].
  destruct (Z.ltb_spec m kNumMacros); [|lia]. simpl.
  rewrite list_lookup_insert_eq; [reflexivity|].
  rewrite Hlen. apply Z2Nat.inj_lt; lia.
Qed.

Lemma getMappings_setMappings_ne (e : MacroEngine F) (m : Z) (ts : list (MacroTarget F))
    (m' : nat) :
  m' <> Z.to_nat m ->
  getMappings (setMappings e m ts) m' = getMappings e m'.
Proof.
  intros Hne. unfold setMappings, getMappings.
  destruct ((0 <=? m) && (m <? kNumMacros)); [|reflexivity]. simpl.
  rewrite list_lookup_insert_ne by congruence. reflexivity.
Qed.

Lemma getMappings_clearAllMappings (e : MacroEngine F) (m : nat) :
  getMappings (clearAllMappings e) m = [].
Proof.
  unfold getMappings, clearAllMappings. simpl.
  rewrite list_lookup_fmap. destruct (mappings_ e !! m); reflexivity.
Qed.

Lemma setMappings_length (e : MacroEngine F) (m : Z) (ts : list (MacroTarget F)) :
  length (mappings_ (setMappings e m ts)) = length (mappings_ e).
Proof.
  unfold setMappings. destruct ((0 <=? m) && (m <? kNumMacros)); [|reflexivity].
  simpl. apply length_insert.
Qed.
End EngineFacts.

(** X1.  In any arithmetic and for every mapping and every macro
    values, [apply] returns a snapshot of the same size in which every
    discrete field (filter mode, delay sync, ping-pong) has the value it
    had: macros never move a discrete field. *)
Theorem apply_leaves_discrete_fields {F : Type} `{FloatArith F}
    (e : MacroEngine F) (p : SceneParams F) (mv : list F) :
  length (values (apply e p mv)) = length (values p) /\
  forall j, SceneParam.isDiscrete (SceneParam.infoAt (F:=F) j) = true ->
            getv (apply e p mv) j = getv p j.
Proof.
  split; [apply apply_length|].
  intros j Hd. apply apply_other. intros. right. exact Hd.
Qed.

Lemma apply_leaves_discrete_fields_witness :
  let mv : list float := [fofZ 1; fofZ 1; fofZ 1; fofZ 1] in
  let e : MacroEngine float :=
    mkEngine [[mkTarget SceneParam.delaySync (fofZ 1) linear;
               mkTarget SceneParam.delayFb (fofZ 1) linear]; []; []; []] in
  SceneParam.isDiscrete (SceneParam.infoAt (F:=float) 5) = true /\
  getv (apply e createDefault mv) 5 = fofZ 2 /\
  getv (apply e createDefault mv) 6 = flit 95 100.
Proof.
  intros mv e.
  assert (Hd : SceneParam.isDiscrete (SceneParam.infoAt (F:=float) 5) = true)
    by reflexivity.
  split; [exact Hd|]. split.
  - rewrite (proj2 (apply_leaves_discrete_fields e createDefault mv) 5%nat Hd).
    reflexivity.
  - vm_compute. reflexivity.
Defined.

(** X2.  A field that no target of a macro at work addresses comes out
    of [apply] as it went in; the macros below 0.001 do not count. *)
Theorem apply_leaves_untargeted_fields {F : Type} `{FloatArith F}
    (e : MacroEngine F) (p : SceneParams F) (mv : list F) (j : nat) :
  (forall m tg, (m < Z.to_nat kNumMacros)%nat ->
     (at_ mv m <. flit 1 1000) = false ->
     In tg (getMappings e m) -> sceneParamIndex tg <> Z.of_nat j) ->
  getv (apply e p mv) j = getv p j.
Proof.
  intros Hall. apply apply_other. intros m tg Hm Hlt Hin. left.
  exact (Hall m tg Hm Hlt Hin).
Qed.

Lemma apply_leaves_untargeted_fields_witness :
  let mv : list float := [fofZ 1; fofZ 0; fofZ 0; fofZ 0] in
  let e : MacroEngine float := initDefaultMappings in
  (forall m tg, (m < Z.to_nat kNumMacros)%nat ->
     (at_ mv m <. flit 1 1000) = false ->
     In tg (getMappings e m) -> sceneParamIndex tg <> Z.of_nat 3) /\
  getv (apply e createDefault mv) 3 = fofZ 0 /\
  getv (apply e createDefault mv) 1 = fofZ 17990.
Proof.
  intros mv e.
  assert (Hall : forall m tg, (m < Z.to_nat kNumMacros)%nat ->
            (at_ mv m <. flit 1 1000) = false ->
            In tg (getMappings e m) -> sceneParamIndex tg <> Z.of_nat 3).
  { intros m tg Hm. change (Z.to_nat kNumMacros) with 4%nat in Hm.
    destruct m as [|[|[|[|m]]]]; try lia; try (vm_compute; discriminate).
    intros _ Hin. simpl in Hin.
    destruct Hin as [<-|[<-|[]]]; vm_compute; discriminate. }
  split; [exact Hall|]. split.
  - rewrite (apply_leaves_untargeted_fields e createDefault mv 3 Hall). reflexivity.
  - vm_compute. reflexivity.
Defined.

(** Every row of the table has its minimum not above its maximum, also
    in single precision. *)
Lemma b32_range_nonempty (i : nat) :
  SFltb (SceneParam.maxVal (SceneParam.infoAt (F:=float) i))
        (SceneParam.minVal (SceneParam.infoAt (F:=float) i)) = false.
Proof.
  do 14 (destruct i as [|i]; [reflexivity|]). reflexivity.
Qed.

Lemma b32_applyTarget_not_outside (raw : float) (p : SceneParams float)
    (tg : MacroTarget float) (j : nat) :
  SFltb (getv p j) (SceneParam.minVal (SceneParam.infoAt j)) = false /\
  SFltb (SceneParam.maxVal (SceneParam.infoAt j)) (getv p j) = false ->
  SFltb (getv (applyTarget raw p tg) j) (SceneParam.minVal (SceneParam.infoAt j)) = false /\
  SFltb (SceneParam.maxVal (SceneParam.infoAt j)) (getv (applyTarget raw p tg) j) = false.
Proof.
  intros Hp. unfold applyTarget.
  destruct ((sceneParamIndex tg <? 0) || (SceneParam.kCount <=? sceneParamIndex tg));
    [exact Hp|].
  destruct (SceneParam.isDiscrete _); [exact Hp|].
  match goal with
  | |- context [setv p ?i ?v] =>
      destruct (getv_setv_cases p i j v) as [-> | [-> ->]]; [exact Hp|]
  end.
  apply (b32_clamp_not_outside _ _ _ (b32_range_nonempty _)).
Qed.

(** X3.  In single precision, for every mapping, every macro values and
    every target weights (NaN and the infinities included): a field that
    is neither below its minimum nor above its maximum before [apply] is
    neither below its minimum nor above its maximum after it. *)
Theorem apply_never_leaves_range (e : MacroEngine float) (p : SceneParams float)
    (mv : list float) (j : nat) :
  SFltb (getv p j) (SceneParam.minVal (SceneParam.infoAt j)) = false /\
  SFltb (SceneParam.maxVal (SceneParam.infoAt j)) (getv p j) = false ->
  SFltb (getv (apply e p mv) j) (SceneParam.minVal (SceneParam.infoAt j)) = false /\
  SFltb (SceneParam.maxVal (SceneParam.infoAt j)) (getv (apply e p mv) j) = false.
Proof.
  intros Hp. unfold apply.
  apply (forLoop_invariant
           (fun _ acc =>
              SFltb (getv acc j) (SceneParam.minVal (SceneParam.infoAt j)) = false /\
              SFltb (SceneParam.maxVal (SceneParam.infoAt j)) (getv acc j) = false));
    [exact Hp|].
  intros m acc _ Hacc. unfold applyMacro.
  destruct (at_ mv m <. flit 1 1000); [exact Hacc|].
  revert acc Hacc. induction (getMappings e m) as [|tg l IH]; intros acc Hacc.
  - exact Hacc.
  - simpl. apply IH. apply b32_applyTarget_not_outside. exact Hacc.
Qed.

Lemma apply_never_leaves_range_witness :
  let p : SceneParams float := setv createDefault 6 (flit 9 10) in
  let mv : list float := [fofZ 0; fofZ 0; fofZ 1; fofZ 0] in
  (SFltb (getv p 6) (SceneParam.minVal (SceneParam.infoAt 6)) = false /\
   SFltb (SceneParam.maxVal (SceneParam.infoAt 6)) (getv p 6) = false) /\
  SFltb (SceneParam.maxVal (SceneParam.infoAt 6))
        (getv (apply initDefaultMappings p mv) 6) = false.
Proof.
  intros p mv.
  assert (Hp : SFltb (getv p 6) (SceneParam.minVal (SceneParam.infoAt 6)) = false /\
               SFltb (SceneParam.maxVal (SceneParam.infoAt 6)) (getv p 6) = false)
    by (split; reflexivity).
  split; [exact Hp|].
  exact (proj2 (apply_never_leaves_range initDefaultMappings p mv 6 Hp)).
Defined.

Section ExactEngine.
Local Open Scope R_scope.

(** Over the reals every response curve, also the fall-through of the
    [switch], maps into [0, 1]. *)
Lemma R_applyMacroCurve_unit (x : R) (c : MacroCurve) :
  0 <= applyMacroCurve x c <= 1.
Proof.
  unfold applyMacroCurve.
  pose proof (Rclamp_bounds x 0 1 ltac:(lra)) as Hy.
  change (fofZ 0) with 0 in *. change (fofZ 1) with 1 in *.
  set (y := clamp x 0 1) in *.
  destruct c; simpl; try exact Hy.
  - split; nra.
  - split; [apply sqrt_pos|].
    pose proof (sqrt_le_1_alt y 1 ltac:(lra)) as Hs. rewrite sqrt_1 in Hs. exact Hs.
  - change (fofZ 3) with 3. change (fofZ 2) with 2.
    assert (H3 : 0 <= y * y) by nra.
    assert (H4 : 0 <= (1 - y) * (1 - y)) by nra.
    split.
    + apply Rmult_le_pos; lra.
    + assert (H5 : 0 <= (1 - y) * (1 - y) * (1 + 2 * y))
        by (apply Rmult_le_pos; lra).
      replace (y * y * (3 - 2 * y)) with (1 - (1 - y) * (1 - y) * (1 + 2 * y)) by ring.
      lra.
Qed.
End ExactEngine.

(** X4.  In exact arithmetic a target moves its field in the direction
    of its weight and by no more than the weight times the width of the
    range: for a field within its range and a target on it, a weight of
    zero or more gives a value between the old one and the old one plus
    [amount * (max - min)], a weight of zero or less one between the old
    one plus [amount * (max - min)] and the old one. *)
Theorem applyTarget_offset_bound (raw : R) (p : SceneParams R) (tg : MacroTarget R) :
  0 <= sceneParamIndex tg < SceneParam.kCount ->
  SceneParam.isDiscrete (SceneParam.infoAt (F:=R) (Z.to_nat (sceneParamIndex tg))) = false ->
  length (values p) = nCount ->
  let i := Z.to_nat (sceneParamIndex tg) in
  let lo := SceneParam.minVal (SceneParam.infoAt (F:=R) i) in
  let hi := SceneParam.maxVal (SceneParam.infoAt (F:=R) i) in
  inRangeOf i (getv p i) = true ->
  ((0 <= amount tg)%R ->
   (getv p i <= getv (applyTarget raw p tg) i <= getv p i + amount tg * (hi - lo))%R) /\
  ((amount tg <= 0)%R ->
   (getv p i + amount tg * (hi - lo) <= getv (applyTarget raw p tg) i <= getv p i)%R).
Proof.
  intros Hidx Hc Hlen i lo hi Hin.
  assert (Hi : (i < nCount)%nat).
  { unfold i, nCount. apply Z2Nat.inj_lt; unfold SceneParam.kCount in *; lia. }
  rewrite applyTarget_continuous by assumption. cbv zeta. fold i. fold lo. fold hi.
  rewrite getv_setv_eq by (rewrite Hlen; exact Hi).
  apply R_inRangeOf in Hin. fold lo in Hin. fold hi in Hin.
  pose proof (R_applyMacroCurve_unit raw (curve tg)) as Hcv.
  set (c := applyMacroCurve raw (curve tg)) in *.
  set (v := getv p i) in *.
  change (c ⊗ amount tg ⊗ (hi ⊖ lo)) with (c * amount tg * (hi - lo))%R.
  change (v ⊕ c * amount tg * (hi - lo))%R with (v + c * amount tg * (hi - lo))%R.
  assert (Hw : (0 <= hi - lo)%R) by lra.
  split; intros Ha.
  - assert (H1 : (0 <= amount tg * (hi - lo))%R) by (apply Rmult_le_pos; lra).
    assert (H2 : (0 <= c * (amount tg * (hi - lo)))%R) by (apply Rmult_le_pos; lra).
    assert (H3 : (0 <= (1 - c) * (amount tg * (hi - lo)))%R)
      by (apply Rmult_le_pos; lra).
    destruct (Rclamp_cases (v + c * amount tg * (hi - lo)) lo hi)
      as [[? ->]|[(? & ? & ->)|(? & ? & ->)]]; lra.
  - assert (H1 : (0 <= (- amount tg) * (hi - lo))%R) by (apply Rmult_le_pos; lra).
    assert (H2 : (0 <= c * ((- amount tg) * (hi - lo)))%R) by (apply Rmult_le_pos; lra).
    assert (H3 : (0 <= (1 - c) * ((- amount tg) * (hi - lo)))%R)
      by (apply Rmult_le_pos; lra).
    destruct (Rclamp_cases (v + c * amount tg * (hi - lo)) lo hi)
      as [[? ->]|[(? & ? & ->)|(? & ? & ->)]]; lra.
Qed.

Lemma applyTarget_offset_bound_witness :
  let tg : MacroTarget R := mkTarget SceneParam.filtReso (1 / 2)%R sCurve in
  (0 <= sceneParamIndex tg < SceneParam.kCount /\
   SceneParam.isDiscrete (SceneParam.infoAt (F:=R) (Z.to_nat (sceneParamIndex tg))) = false /\
   length (values (createDefault (F:=R))) = nCount /\
   inRangeOf 2 (getv (createDefault (F:=R)) 2) = true /\
   (0 <= amount tg)%R) /\
  (getv createDefault 2 <= getv (applyTarget (3 / 4)%R createDefault tg) 2
   <= getv createDefault 2 + 1 / 2 * (1 - 0))%R.
Proof.
  intros tg.
  assert (Hidx : 0 <= sceneParamIndex tg < SceneParam.kCount) by (simpl; unfold SceneParam.filtReso, SceneParam.kCount; lia).
  assert (Hc : SceneParam.isDiscrete
                 (SceneParam.infoAt (F:=R) (Z.to_nat (sceneParamIndex tg))) = false)
    by reflexivity.
  assert (Hlen : length (values (createDefault (F:=R))) = nCount) by reflexivity.
  assert (Hin : inRangeOf 2 (getv (createDefault (F:=R)) 2) = true).
  { apply R_inRangeOf. cbv. lra. }
  assert (Ha : (0 <= amount tg)%R) by (simpl; lra).
  split; [repeat split; try assumption; apply Hidx|].
  exact (proj1 (applyTarget_offset_bound (3 / 4)%R createDefault tg Hidx Hc Hlen Hin) Ha).
Defined.

(** X5.  [setMappings] and [getMappings] round-trip: on an engine with
    its four lists and for a macro index within 0 .. 3, the list stored
    is the list read back, [getTargetCount] is its length, and the lists
    of the other macros are as they were.  After [clearAllMappings]
    every macro has no target and [apply] returns the snapshot it is
    given, whatever the macro values. *)
Theorem mappings_round_trip {F : Type} `{FloatArith F}
    (e : MacroEngine F) (m : Z) (ts : list (MacroTarget F)) :
  length (mappings_ e) = Z.to_nat kNumMacros ->
  0 <= m < kNumMacros ->
  getMappings (setMappings e m ts) (Z.to_nat m) = ts /\
  getTargetCount (setMappings e m ts) m = Z.of_nat (length ts) /\
  (forall m', m' <> Z.to_nat m ->
     getMappings (setMappings e m ts) m' = getMappings e m') /\
  (forall m', getTargetCount (clearAllMappings e) m' = 0) /\
  (forall p mv, apply (clearAllMappings e) p mv = p).
Proof.
  intros Hlen Hm.
  pose proof (getMappings_setMappings_eq e m ts Hlen Hm) as Heq.
  split; [exact Heq|]. split; [|split; [|split]].
  - unfold getTargetCount.
    destruct (Z.ltb_spec m 0); [lia|].
    destruct (Z.leb_spec kNumMacros m); [lia|]. simpl. rewrite Heq. reflexivity.
  - intros m' Hne. apply getMappings_setMappings_ne. exact Hne.
  - intros m'. unfold getTargetCount.
    destruct ((m' <? 0) || (kNumMacros <=? m')); [reflexivity|].
    rewrite getMappings_clearAllMappings. reflexivity.
  - intros p mv. unfold apply.
    apply (forLoop_invariant (fun _ acc => acc = p)); [reflexivity|].
    intros k acc _ ->. unfold applyMacro.
    rewrite getMappings_clearAllMappings.
    destruct (at_ mv k <. flit 1 1000); reflexivity.
Qed.

Lemma mappings_round_trip_witness :
  let e : MacroEngine float := initDefaultMappings in
  let ts : list (MacroTarget float) := [mkTarget 7 (flit 1 4) sCurve] in
  (length (mappings_ e) = Z.to_nat kNumMacros /\ 0 <= 2 < kNumMacros) /\
  getMappings (setMappings e 2 ts) 2 = ts /\
  getTargetCount (setMappings e 2 ts) 2 = 1.
Proof.
  intros e ts.
  assert (Hlen : length (mappings_ e) = Z.to_nat kNumMacros) by reflexivity.
  assert (Hm : 0 <= 2 < kNumMacros) by (unfold kNumMacros; lia).
  split; [split; assumption|].
  pose proof (mappings_round_trip e 2 ts Hlen Hm) as Hrt.
  split; [exact (proj1 Hrt) | exact (proj1 (proj2 Hrt))].
Defined.

(** ** Further properties of [Source/SceneData.h] *)

Section ClampFacts.
Context {F : Type} `{FloatArith F}.

(** The loop of [clampToRanges] clamps each of the first fourteen slots
    to the range of its row and nothing else. *)
Lemma clampToRanges_loop (s : SceneParams F) (n i : nat) :
  values (forLoop n
            (fun i s =>
               let inf := SceneParam.infoAt i in
               setv s i (clamp (getv s i) (SceneParam.minVal inf) (SceneParam.maxVal inf)))
            s) !! i
  = (fun v => if (i <? n)%nat
              then clamp v (SceneParam.minVal (SceneParam.infoAt i))
                           (SceneParam.maxVal (SceneParam.infoAt i))
              else v) <$> (values s !! i).
Proof.
  induction n as [|n IH].
  - unfold forLoop. simpl. destruct (values s !! i); reflexivity.
  - rewrite forLoop_S. cbv zeta.
    set (acc := forLoop n _ s) in *.
    unfold setv at 1. simpl values.
    destruct (decide (n = i)) as [->|Hne].
    + replace (i <? Datatypes.S i)%nat with true by (symmetry; apply Nat.ltb_lt; lia).
      replace (i <? i)%nat with false in IH by (symmetry; apply Nat.ltb_ge; lia).
      destruct (values s !! i) as [v|] eqn:Hv.
      * simpl in IH |- *.
        rewrite list_lookup_insert_eq by (apply lookup_lt_Some with v; exact IH).
        unfold getv, at_. rewrite IH. reflexivity.
      * simpl in IH |- *. apply lookup_ge_None.
        rewrite length_insert. apply lookup_ge_None. exact IH.
    + rewrite list_lookup_insert_ne by exact Hne. rewrite IH.
      replace (i <? Datatypes.S n)%nat with (i <? n)%nat; [reflexivity|].
      destruct (Nat.ltb_spec i n), (Nat.ltb_spec i (Datatypes.S n)); try reflexivity; lia.
Qed.

Lemma clampToRanges_lookup (s : SceneParams F) (i : nat) :
  values (clampToRanges s) !! i
  = (fun v => if (i <? nCount)%nat
              then clamp v (SceneParam.minVal (SceneParam.infoAt i))
                           (SceneParam.maxVal (SceneParam.infoAt i))
              else v) <$> (values s !! i).
Proof. apply clampToRanges_loop. Qed.

Lemma clampToRanges_length (s : SceneParams F) :
  length (values (clampToRanges s)) = length (values s).
Proof.
  unfold clampToRanges.
  apply (forLoop_invariant (fun _ acc => length (values acc) = length (values s)));
    [reflexivity|].
  intros i acc _ Hacc. cbv zeta. rewrite setv_length. exact Hacc.
Qed.

Lemma clampToRanges_getv (s : SceneParams F) (i : nat) :
  (i < nCount)%nat -> (i < length (values s))%nat ->
  getv (clampToRanges s) i
  = clamp (getv s i) (SceneParam.minVal (SceneParam.infoAt i))
                     (SceneParam.maxVal (SceneParam.infoAt i)).
Proof.
  intros Hi Hlen. unfold getv, at_. rewrite clampToRanges_lookup.
  apply lookup_lt_is_Some_2 in Hlen. destruct Hlen as [v ->]. simpl.
  replace (i <? nCount)%nat with true by (symmetry; apply Nat.ltb_lt; exact Hi).
  reflexivity.
Qed.

(** A snapshot is its list of values. *)
Lemma SceneParams_eq (s1 s2 : SceneParams F) :
  (forall i, values s1 !! i = values s2 !! i) -> s1 = s2.
Proof.
  destruct s1 as [l1], s2 as [l2]. simpl. intros Hl. f_equal.
  apply list_eq. exact Hl.
Qed.
End ClampFacts.

Lemma b32_clamp_isNaN (v lo hi : float) :
  isNaN v = false -> isNaN lo = false -> isNaN hi = false ->
  isNaN (clamp v lo hi) = false.
Proof.
  intros Hv Hlo Hhi. unfold clamp. simpl.
  destruct (SFltb v lo); [exact Hlo|]. destruct (SFltb hi v); assumption.
Qed.

(** [std::clamp] passes NaN on. *)
Lemma b32_clamp_nan (lo hi : float) : clamp S754_nan lo hi = S754_nan.
Proof.
  unfold clamp. simpl.
  replace (SFltb S754_nan lo) with false by (destruct lo; reflexivity).
  replace (SFltb hi S754_nan) with false by (destruct hi; reflexivity).
  reflexivity.
Qed.

Lemma b32_table_not_nan (i : nat) :
  isNaN (SceneParam.minVal (SceneParam.infoAt (F:=float) i)) = false /\
  isNaN (SceneParam.maxVal (SceneParam.infoAt (F:=float) i)) = false.
Proof.
  do 14 (destruct i as [|i]; [split; reflexivity|]). split; reflexivity.
Qed.

(** In single precision a value within a range is the clamp of itself. *)
Lemma b32_clamp_id (v lo hi : float) :
  SFleb lo v = true -> SFleb v hi = true -> clamp v lo hi = v.
Proof.
  intros Hlo Hhi. unfold clamp. simpl.
  rewrite (SFleb_not_ltb _ _ Hlo), (SFleb_not_ltb _ _ Hhi). reflexivity.
Qed.

Lemma b32_clamp_idempotent (v lo hi : float) :
  SFltb hi lo = false -> clamp (clamp v lo hi) lo hi = clamp v lo hi.
Proof.
  intros Hle. unfold clamp. simpl.
  destruct (SFltb v lo) eqn:Hlo.
  - rewrite SFltb_irrefl, Hle. reflexivity.
  - destruct (SFltb hi v) eqn:Hhi.
    + rewrite Hle, SFltb_irrefl. reflexivity.
    + rewrite Hlo, Hhi. reflexivity.
Qed.

(** X6.  In single precision [clampToRanges] keeps the size of the
    snapshot and leaves no field below its minimum or above its maximum,
    whatever the field held; a field that held a number (anything but
    NaN) is within its range afterwards, so a snapshot of fourteen
    numbers is within range after the call; a field that held NaN still
    holds NaN. *)
Theorem clampToRanges_within_range (s : SceneParams float) :
  length (values (clampToRanges s)) = length (values s) /\
  (forall i, (i < nCount)%nat -> (i < length (values s))%nat ->
     SFltb (getv (clampToRanges s) i) (SceneParam.minVal (SceneParam.infoAt i)) = false /\
     SFltb (SceneParam.maxVal (SceneParam.infoAt i)) (getv (clampToRanges s) i) = false /\
     (isNaN (getv s i) = false -> inRangeOf i (getv (clampToRanges s) i) = true) /\
     (isNaN (getv s i) = true -> isNaN (getv (clampToRanges s) i) = true)) /\
  (length (values s) = nCount ->
   (forall i, (i < nCount)%nat -> isNaN (getv s i) = false) ->
   sceneInRange (clampToRanges s) = true).
Proof.
  assert (Hfield : forall i, (i < nCount)%nat -> (i < length (values s))%nat ->
     SFltb (getv (clampToRanges s) i) (SceneParam.minVal (SceneParam.infoAt i)) = false /\
     SFltb (SceneParam.maxVal (SceneParam.infoAt i)) (getv (clampToRanges s) i) = false /\
     (isNaN (getv s i) = false -> inRangeOf i (getv (clampToRanges s) i) = true) /\
     (isNaN (getv s i) = true -> isNaN (getv (clampToRanges s) i) = true)).
  { intros i Hi Hlen. rewrite clampToRanges_getv by assumption.
    pose proof (b32_clamp_not_outside (getv s i) _ _ (b32_range_nonempty i)) as [Hlo Hhi].
    pose proof (b32_table_not_nan i) as [Hnlo Hnhi].
    split; [exact Hlo|]. split; [exact Hhi|]. split.
    - intros Hn. unfold inRangeOf. cbv zeta. apply andb_true_iff.
      pose proof (b32_clamp_isNaN _ _ _ Hn Hnlo Hnhi) as Hnc.
      split; apply SFltb_false_leb; assumption.
    - intros Hn. destruct (getv s i); try discriminate Hn.
      rewrite b32_clamp_nan. reflexivity. }
  split; [apply clampToRanges_length|]. split; [exact Hfield|].
  intros Hlen Hnum. apply sceneInRange_spec. split.
  - rewrite clampToRanges_length. exact Hlen.
  - intros i Hi.
    apply (proj1 (proj2 (proj2 (Hfield i Hi ltac:(rewrite Hlen; exact Hi))))).
    apply Hnum. exact Hi.
Qed.

Lemma clampToRanges_within_range_witness :
  let s : SceneParams float :=
    setv (setv createDefault 1 (fofZ 99999)) 12 (fofZ (-3)) in
  ((1 < nCount)%nat /\ (1 < length (values s))%nat /\ isNaN (getv s 1) = false) /\
  inRangeOf 1 (getv (clampToRanges s) 1) = true /\
  getv (clampToRanges s) 1 = fofZ 20000 /\
  getv (clampToRanges s) 12 = fofZ 0.
Proof.
  intros s.
  assert (Hi : (1 < nCount)%nat) by (vm_compute; lia).
  assert (Hl : (1 < length (values s))%nat) by (vm_compute; lia).
  assert (Hn : isNaN (getv s 1) = false) by reflexivity.
  split; [repeat split; assumption|]. split.
  - exact (proj1 (proj2 (proj2 (proj1 (proj2 (clampToRanges_within_range s))
                                  1%nat Hi Hl))) Hn).
  - split; vm_compute; reflexivity.
Defined.

(** X7.  In single precision [clampToRanges] changes nothing in a
    snapshot that is within range, and calling it twice is the same as
    calling it once, for every snapshot. *)
Theorem clampToRanges_idempotent (s : SceneParams float) :
  (sceneInRange s = true -> clampToRanges s = s) /\
  clampToRanges (clampToRanges s) = clampToRanges s.
Proof.
  split.
  - intros Hs. apply sceneInRange_spec in Hs. destruct Hs as [Hlen Hall].
    apply SceneParams_eq. intros i. rewrite clampToRanges_lookup.
    destruct (values s !! i) as [v|] eqn:Hv; [|reflexivity]. simpl.
    destruct (Nat.ltb_spec i nCount) as [Hi|Hi]; [|reflexivity].
    specialize (Hall i Hi). unfold inRangeOf, getv, at_ in Hall.
    rewrite Hv in Hall. simpl in Hall. apply andb_true_iff in Hall.
    destruct Hall as [Hlo Hhi]. f_equal. apply b32_clamp_id; assumption.
  - apply SceneParams_eq. intros i. rewrite !clampToRanges_lookup.
    destruct (values s !! i) as [v|]; [|reflexivity]. simpl.
    destruct (i <? nCount)%nat; [|reflexivity].
    f_equal. apply b32_clamp_idempotent. apply b32_range_nonempty.
Qed.

Lemma clampToRanges_idempotent_witness :
  sceneInRange (createDefault (F:=float)) = true /\
  clampToRanges (createDefault (F:=float)) = createDefault.
Proof.
  assert (Hs : sceneInRange (createDefault (F:=float)) = true) by reflexivity.
  split; [exact Hs|].
  exact (proj1 (clampToRanges_idempotent createDefault) Hs).
Defined.

(** In single precision a number minus itself is the positive zero. *)
Lemma b32_sub_diag (x : float) : isFiniteF x = true -> x ⊖ x = S754_zero false.
Proof.
  destruct x as [s|s| |s m e]; intros Hx; try discriminate Hx.
  - destruct s; reflexivity.
  - simpl. unfold SFsub. rewrite Z.min_id, Z.sub_diag. reflexivity.
Qed.

Lemma b32_add_times_zero (x t : float) :
  isFiniteF x = true -> isFiniteF t = true ->
  SFeqb (x ⊕ t ⊗ S754_zero false) x = true /\
  (x <> S754_zero true -> x ⊕ t ⊗ S754_zero false = x).
Proof.
  intros Hx Ht.
  destruct x as [sx|sx| |sx mx ex]; try discriminate Hx;
    destruct t as [st|st| |st mt et]; try discriminate Ht.
  - destruct sx, st; simpl; split; try reflexivity; intros Hne;
      try reflexivity; exfalso; apply Hne; reflexivity.
  - destruct sx, st; simpl; split; try reflexivity; intros Hne;
      try reflexivity; exfalso; apply Hne; reflexivity.
  - simpl. split; [|reflexivity]. apply SFeqb_refl. reflexivity.
  - simpl. split; [|reflexivity]. apply SFeqb_refl. reflexivity.
Qed.

(** X8.  Morphing a scene with itself gives that scene back at every
    morph factor: a discrete field exactly, in any arithmetic; a
    continuous field, in single precision, as a value that compares
    equal to the original and is bit-identical to it unless it is a
    negative zero, provided the value and the factor are numbers; and in
    exact arithmetic the whole snapshot is returned. *)
Theorem morph_same_scene :
  (forall (F : Type) (A : FloatArith F) (a : SceneParams F) (t : F) (i : nat),
      (i < nCount)%nat ->
      SceneParam.isDiscrete (SceneParam.infoAt (F:=F) i) = true ->
      getv (morph a a t) i = getv a i)
  /\
  (forall (a : SceneParams float) (t : float) (i : nat),
      (i < nCount)%nat ->
      isFiniteF t = true -> isFiniteF (getv a i) = true ->
      SFeqb (getv (morph a a t) i) (getv a i) = true /\
      (getv a i <> S754_zero true -> getv (morph a a t) i = getv a i))
  /\
  (forall (a : SceneParams R) (t : R),
      length (values a) = nCount -> morph a a t = a).
Proof.
  split; [|split].
  - intros F A a t i Hi Hd. rewrite morph_getv by exact Hi. rewrite Hd.
    destruct (t <. flit 5 10); reflexivity.
  - intros a t i Hi Ht Hx. rewrite morph_getv by exact Hi.
    destruct (SceneParam.isDiscrete (SceneParam.infoAt i)).
    + destruct (t <. flit 5 10);
        (split; [apply SFeqb_refl; destruct (getv a i); try discriminate Hx; reflexivity
                | intros _; reflexivity]).
    + rewrite (b32_sub_diag _ Hx). apply b32_add_times_zero; assumption.
  - intros a t Hlen. apply SceneParams_eq. intros i.
    rewrite morph_values, list_lookup_fmap.
    destruct (Nat.lt_ge_cases i nCount) as [Hi|Hi].
    + rewrite lookup_seq_lt by exact Hi. simpl.
      assert (Hl : (i < length (values a))%nat) by (rewrite Hlen; exact Hi).
      apply lookup_lt_is_Some_2 in Hl. destruct Hl as [v Hv].
      unfold getv, at_. rewrite Hv. simpl. f_equal.
      destruct (SceneParam.isDiscrete (SceneParam.infoAt i)).
      * destruct (Rltb t _); reflexivity.
      * ring.
    + rewrite lookup_seq_ge by exact Hi. simpl. symmetry.
      apply lookup_ge_None. rewrite Hlen. exact Hi.
Qed.

Lemma morph_same_scene_witness :
  let a : SceneParams float := createDefault in
  ((1 < nCount)%nat /\ isFiniteF (flit 37 100) = true /\ isFiniteF (getv a 1) = true) /\
  getv (morph a a (flit 37 100)) 1 = fofZ 8000.
Proof.
  intros a.
  assert (Hi : (1 < nCount)%nat) by (vm_compute; lia).
  assert (Ht : isFiniteF (flit 37 100) = true) by reflexivity.
  assert (Hx : isFiniteF (getv a 1) = true) by reflexivity.
  split; [repeat split; assumption|].
  rewrite (proj2 (proj1 (proj2 morph_same_scene) a (flit 37 100) 1%nat Hi Ht Hx)).
  - reflexivity.
  - discriminate.
Defined.

(** ** Saving and restoring the state *)

Lemma insert_take_drop_step {A : Type} (l1 l2 : list A) (n : nat) (x : A) :
  l1 !! n = Some x -> (n < length l2)%nat ->
  <[n := x]> (take n l1 ++ drop n l2) = take (S n) l1 ++ drop (S n) l2.
Proof.
  intros Hx Hn.
  assert (Hlt : (n < length l1)%nat) by (apply lookup_lt_Some with x; exact Hx).
  rewrite insert_app_r_alt by (rewrite length_take; lia).
  rewrite length_take. replace (n - n `min` length l1)%nat with 0%nat by lia.
  apply lookup_lt_is_Some_2 in Hn. destruct Hn as [y Hy].
  rewrite (drop_S l2 y n Hy). simpl.
  rewrite (take_S_r l1 n x Hx). rewrite <- app_assoc. reflexivity.
Qed.

Section StateFacts.
Context {F : Type} `{FloatArith F}.

Lemma bankShape_spec (scenes : list (SceneParams F)) :
  bankShape scenes = true <->
  length scenes = Z.to_nat kNumScenes /\
  forall i s, scenes !! i = Some s -> length (values s) = nCount.
Proof.
  unfold bankShape. rewrite andb_true_iff, Nat.eqb_eq, forallb_forall.
  split; intros [Hl Hs]; split; auto.
  - intros i s Hi. apply Nat.eqb_eq. apply Hs. apply list_elem_of_In.
    eapply list_elem_of_lookup_2. exact Hi.
  - intros s Hin. apply list_elem_of_In in Hin. apply list_elem_of_lookup in Hin.
    destruct Hin as [i Hi]. apply Nat.eqb_eq. eapply Hs. exact Hi.
Qed.

(** The attribute written for a row is the value of its field. *)
Lemma sceneToXml_attr (i : nat) (s : SceneParams F) (k : nat) :
  (k < nCount)%nat ->
  sceneAttr (sceneToXml i s) (SceneParam.id (SceneParam.infoAt (F:=F) k))
  = Some (getv s k).
Proof.
  intros Hk.
  do 14 (destruct k as [|k]; [reflexivity|]).
  change (@nCount) with 14%nat in Hk. lia.
Qed.

(** Restoring the element written for a snapshot puts that snapshot in
    its slot. *)
Lemma restoreScene_sceneToXml (scenes : list (SceneParams F)) (i : nat)
    (s : SceneParams F) :
  (i < Z.to_nat kNumScenes)%nat -> (i < length scenes)%nat ->
  length (values (sceneAt scenes i)) = nCount ->
  length (values s) = nCount ->
  restoreScene scenes (sceneToXml i s) = <[i := s]> scenes.
Proof.
  intros Hi Hlen Hold Hs. unfold restoreScene.
  change (sceneIndexAttr (sceneToXml i s)) with (Some (Z.of_nat i)).
  change (default (-1) (Some (Z.of_nat i))) with (Z.of_nat i).
  change (Z.to_nat kNumScenes) with 8%nat in Hi. unfold kNumScenes.
  destruct (Z.ltb_spec (Z.of_nat i) 0); [lia|].
  destruct (Z.leb_spec 8 (Z.of_nat i)); [lia|]. simpl orb. cbv iota.
  rewrite Nat2Z.id.
  set (old := sceneAt scenes i) in *.
  assert (Hinv :
    forLoop nCount
      (fun k scenes0 =>
         match sceneAttr (sceneToXml i s) (SceneParam.id (SceneParam.infoAt k)) with
         | Some v => <[i := setv (sceneAt scenes0 i) k v]> scenes0
         | None => scenes0
         end) scenes
    = <[i := mkSceneParams (take nCount (values s) ++ drop nCount (values old))]> scenes).
  { apply (forLoop_invariant
             (fun n acc =>
                acc = <[i := mkSceneParams (take n (values s) ++ drop n (values old))]>
                        scenes)).
    - simpl. rewrite drop_0. unfold old, sceneAt.
      apply lookup_lt_is_Some_2 in Hlen. destruct Hlen as [o Ho]. rewrite Ho. simpl.
      destruct o as [vo]. simpl. symmetry. apply list_insert_id. exact Ho.
    - intros k acc Hk ->. rewrite sceneToXml_attr by exact Hk.
      unfold sceneAt at 1. rewrite list_lookup_insert_eq by exact Hlen. simpl.
      rewrite list_insert_insert_eq. f_equal. unfold setv. simpl. f_equal.
      apply insert_take_drop_step.
      + unfold getv, at_.
        assert (Hl : (k < length (values s))%nat) by (rewrite Hs; exact Hk).
        apply lookup_lt_is_Some_2 in Hl. destruct Hl as [v Hv]. rewrite Hv. reflexivity.
      + rewrite Hold. exact Hk. }
  rewrite Hinv. f_equal.
  rewrite take_ge by (rewrite Hs; lia). rewrite drop_ge by (rewrite Hold; lia).
  rewrite app_nil_r. destruct s. reflexivity.
Qed.

Lemma restoreScenes_all (ps qs : list (SceneParams F)) (n : nat) :
  bankShape ps = true -> bankShape qs = true ->
  (n <= Z.to_nat kNumScenes)%nat ->
  fold_left restoreScene
    (map (fun i => sceneToXml i (sceneAt ps i)) (seq 0 n)) qs
  = take n ps ++ drop n qs.
Proof.
  intros Hp Hq. apply bankShape_spec in Hp. apply bankShape_spec in Hq.
  destruct Hp as [Hpl Hps]. destruct Hq as [Hql Hqs].
  induction n as [|n IH]; intros Hn.
  - simpl. rewrite drop_0. reflexivity.
  - rewrite seq_S, map_app, fold_left_app. simpl. rewrite IH by lia.
    assert (Hpn : (n < length ps)%nat) by lia.
    assert (Hqn : (n < length qs)%nat) by lia.
    apply lookup_lt_is_Some_2 in Hpn. destruct Hpn as [sp Hsp].
    apply lookup_lt_is_Some_2 in Hqn. destruct Hqn as [sq Hsq].
    assert (Hat : sceneAt (take n ps ++ drop n qs) n = sq).
    { unfold sceneAt. rewrite lookup_app_r by (rewrite length_take; lia).
      rewrite length_take. replace (n - n `min` length ps)%nat with 0%nat by lia.
      rewrite lookup_drop. rewrite Nat.add_0_r, Hsq. reflexivity. }
    assert (Hsa : sceneAt ps n = sp) by (unfold sceneAt; rewrite Hsp; reflexivity).
    rewrite Hsa.
    rewrite restoreScene_sceneToXml.
    + apply insert_take_drop_step; [exact Hsp|lia].
    + lia.
    + rewrite length_app, length_take, length_drop. lia.
    + rewrite Hat. eapply Hqs. exact Hsq.
    + eapply Hps. exact Hsp.
Qed.

(** The name written for a field is found again at the index of the
    field. *)
Lemma findSceneParam_id (k : nat) :
  (k < nCount)%nat ->
  findSceneParam (F:=F) (SceneParam.id (SceneParam.infoAt (F:=F) k)) = Some k.
Proof.
  intros Hk.
  do 14 (destruct k as [|k]; [reflexivity|]).
  change (@nCount) with 14%nat in Hk. lia.
Qed.

Lemma restoreTarget_targetToXml (acc : list (MacroTarget F)) (tg : MacroTarget F) :
  targetValid tg = true ->
  restoreTarget acc (targetToXml tg) = acc ++ [tg].
Proof.
  unfold targetValid. rewrite !andb_true_iff, negb_true_iff.
  intros [[Hlo Hhi] Hc]. apply Z.leb_le in Hlo. apply Z.ltb_lt in Hhi.
  unfold restoreTarget, targetToXml. simpl.
  rewrite findSceneParam_id
    by (unfold nCount; apply Z2Nat.inj_lt; unfold SceneParam.kCount in *; lia).
  rewrite Z2Nat.id by lia.
  destruct tg as [idx amt c]. simpl in *. f_equal. f_equal.
  destruct c; try reflexivity. discriminate Hc.
Qed.

Lemma restoreTargets_all (ts acc : list (MacroTarget F)) :
  forallb targetValid ts = true ->
  fold_left restoreTarget (map targetToXml ts) acc = acc ++ ts.
Proof.
  revert acc. induction ts as [|tg ts IH]; intros acc Hv; simpl.
  - rewrite app_nil_r. reflexivity.
  - simpl in Hv. apply andb_true_iff in Hv. destruct Hv as [Htg Hts].
    rewrite restoreTarget_targetToXml by exact Htg.
    rewrite IH by exact Hts. rewrite <- app_assoc. reflexivity.
Qed.

Lemma restoreMacros_all (pe qe : MacroEngine F) :
  engineValid pe = true -> engineShape qe = true ->
  fold_left restoreMacro (map (macroToXml pe) (seq 0 (Z.to_nat kNumMacros)))
            (clearAllMappings qe) = pe.
Proof.
  unfold engineValid, engineShape. rewrite andb_true_iff, !Nat.eqb_eq.
  intros [Hpl Hpv] Hql.
  destruct pe as [pm], qe as [qm]. simpl in *.
  destruct pm as [|p0 [|p1 [|p2 [|p3 [|p4 pm]]]]]; try discriminate Hpl.
  destruct qm as [|q0 [|q1 [|q2 [|q3 [|q4 qm]]]]]; try discriminate Hql.
  simpl in Hpv. rewrite !andb_true_iff in Hpv.
  destruct Hpv as (H0 & H1 & H2 & H3 & _).
  simpl. unfold restoreMacro, macroToXml, getMappings. simpl.
  rewrite !restoreTargets_all by assumption. reflexivity.
Qed.
End StateFacts.

(** X9.  Saving and restoring round-trip for the scenes and the macro
    mappings: the document written by [getStateInformation] for a
    processor whose bank has its eight snapshots of fourteen values and
    whose targets address fields of the table with one of the four
    curves, handed to [setStateInformation] on any processor of the same
    shape, leaves that processor with the eight scenes and the four
    macro mappings of the first one.  (An attribute is taken to carry
    its value through the text form unchanged.  The host parameter
    section is written and read back by the library and is not part of
    the statement.) *)
Theorem state_round_trip {F : Type} `{FloatArith F} (p q : Processor F) :
  bankShape (scenes_ p) = true ->
  engineValid (macroEngine_ p) = true ->
  bankShape (scenes_ q) = true ->
  engineShape (macroEngine_ q) = true ->
  scenes_ (setStateInformation (Some (getStateInformation p)) q) = scenes_ p /\
  macroEngine_ (setStateInformation (Some (getStateInformation p)) q) = macroEngine_ p.
Proof.
  intros Hp He Hq Hqe. unfold setStateInformation, getStateInformation.
  cbn [scenes_ macroEngine_].
  rewrite (restoreScenes_all (scenes_ p) (scenes_ q) _ Hp Hq (Nat.le_refl _)).
  rewrite (restoreMacros_all _ _ He Hqe).
  apply bankShape_spec in Hp. apply bankShape_spec in Hq.
  rewrite take_ge by lia. rewrite drop_ge by lia. rewrite app_nil_r.
  split; reflexivity.
Qed.

Lemma state_round_trip_witness :
  let p : Processor float :=
    setSceneParam (loadFactoryPresetData defaultProcessor 3) 2 1 (fofZ 440) in
  let q : Processor float := defaultProcessor in
  (bankShape (scenes_ p) = true /\ engineValid (macroEngine_ p) = true /\
   bankShape (scenes_ q) = true /\ engineShape (macroEngine_ q) = true) /\
  scenes_ p <> scenes_ q /\ macroEngine_ p <> macroEngine_ q /\
  scenes_ (setStateInformation (Some (getStateInformation p)) q) = scenes_ p /\
  macroEngine_ (setStateInformation (Some (getStateInformation p)) q) = macroEngine_ p.
Proof.
  intros p q.
  assert (Hp : bankShape (scenes_ p) = true) by (vm_compute; reflexivity).
  assert (He : engineValid (macroEngine_ p) = true) by (vm_compute; reflexivity).
  assert (Hq : bankShape (scenes_ q) = true) by (vm_compute; reflexivity).
  assert (Hqe : engineShape (macroEngine_ q) = true) by (vm_compute; reflexivity).
  split; [repeat split; assumption|].
  split; [vm_compute; discriminate|]. split; [vm_compute; discriminate|].
  exact (state_round_trip p q Hp He Hq Hqe).
Defined.

Section RestoreFacts.
Context {F : Type} `{FloatArith F}.

Lemma sceneAt_insert_ne (scenes : list (SceneParams F)) (i j : nat) (s : SceneParams F) :
  i <> j -> sceneAt (<[i := s]> scenes) j = sceneAt scenes j.
Proof.
  intros Hne. unfold sceneAt. rewrite list_lookup_insert_ne by exact Hne. reflexivity.
Qed.

Lemma sceneAt_insert_eq (scenes : list (SceneParams F)) (i : nat) (s : SceneParams F) :
  (i < length scenes)%nat -> sceneAt (<[i := s]> scenes) i = s.
Proof.
  intros Hlt. unfold sceneAt. rewrite list_lookup_insert_eq by exact Hlt. reflexivity.
Qed.

(** Writing one field of the scene in slot [i] changes the field [k] of
    that slot at most. *)
Lemma getv_sceneAt_insert_setv (scenes : list (SceneParams F)) (i k : nat) (v : F)
    (j k' : nat) :
  j <> i \/ k' <> k ->
  getv (sceneAt (<[i := setv (sceneAt scenes i) k v]> scenes) j) k'
  = getv (sceneAt scenes j) k'.
Proof.
  intros Hne. destruct (decide (i = j)) as [<-|Hij].
  - destruct (decide (i < length scenes)%nat) as [Hlt|Hge].
    + rewrite sceneAt_insert_eq by exact Hlt. apply getv_setv_ne.
      destruct Hne as [Hne|Hne]; congruence.
    + rewrite list_insert_ge by lia. reflexivity.
  - rewrite sceneAt_insert_ne by exact Hij. reflexivity.
Qed.
End RestoreFacts.

(** X10.  A persisted scene element updates the fields it lists and no
    other: every other scene of the bank, and every field of the
    addressed scene whose attribute is missing, keeps the value it had
    before; a field whose attribute is present takes the value of the
    attribute. *)
Theorem restoreScene_partial {F : Type} `{FloatArith F}
    (scenes : list (SceneParams F)) (x : SceneXml F) :
  (forall j k,
      Some (Z.of_nat j) <> sceneIndexAttr x
      \/ sceneAttr x (SceneParam.id (SceneParam.infoAt (F:=F) k)) = None
      \/ (nCount <= k)%nat ->
      getv (sceneAt (restoreScene scenes x) j) k = getv (sceneAt scenes j) k)
  /\
  (forall j k v,
      bankShape scenes = true ->
      sceneIndexAttr x = Some (Z.of_nat j) -> (j < Z.to_nat kNumScenes)%nat ->
      (k < nCount)%nat ->
      sceneAttr x (SceneParam.id (SceneParam.infoAt (F:=F) k)) = Some v ->
      getv (sceneAt (restoreScene scenes x) j) k = v).
Proof.
  split.
  - intros j k Hjk. unfold restoreScene.
    destruct ((default (-1) (sceneIndexAttr x) <? 0)
              || (kNumScenes <=? default (-1) (sceneIndexAttr x))) eqn:Hg;
      [reflexivity|].
    apply orb_false_iff in Hg. destruct Hg as [Hg0 Hg1].
    apply Z.ltb_ge in Hg0.
    apply (forLoop_invariant
             (fun n acc =>
                (nCount <= k -> n <= nCount)%nat /\
                getv (sceneAt acc j) k = getv (sceneAt scenes j) k)).
    + split; [lia|reflexivity].
    + intros n acc Hn [_ Hacc]. split; [lia|].
      destruct (sceneAttr x (SceneParam.id (SceneParam.infoAt n))) as [v|] eqn:Hattr;
        [|exact Hacc].
      rewrite getv_sceneAt_insert_setv; [exact Hacc|].
      destruct Hjk as [Hj|[Hk|Hk]].
      * left. intros ->. apply Hj.
        destruct (sceneIndexAttr x) as [idx|]; simpl in *; [|lia].
        rewrite Z2Nat.id by lia. reflexivity.
      * right. intros ->. congruence.
      * right. lia.
  - intros j k v Hb Hidx Hj Hk Hattr. unfold restoreScene. rewrite Hidx. simpl default.
    change (Z.to_nat kNumScenes) with 8%nat in Hj. unfold kNumScenes.
    destruct (Z.ltb_spec (Z.of_nat j) 0); [lia|].
    destruct (Z.leb_spec 8 (Z.of_nat j)); [lia|]. simpl orb. cbv iota.
    rewrite Nat2Z.id.
    apply bankShape_spec in Hb. destruct Hb as [Hlen Hshape].
    change (Z.to_nat kNumScenes) with 8%nat in Hlen.
    assert (Hinv :
      forall n, (n <= nCount)%nat ->
        let acc := forLoop n
                     (fun k0 scenes0 =>
                        match sceneAttr x (SceneParam.id (SceneParam.infoAt k0)) with
                        | Some v0 => <[j := setv (sceneAt scenes0 j) k0 v0]> scenes0
                        | None => scenes0
                        end) scenes in
        length acc = 8%nat /\ length (values (sceneAt acc j)) = nCount /\
        ((k < n)%nat -> getv (sceneAt acc j) k = v)).
    { induction n as [|n IH]; intros Hn.
      - cbv zeta. unfold forLoop. simpl. split; [exact Hlen|]. split; [|lia].
        unfold sceneAt.
        assert (Hl : (j < length scenes)%nat) by lia.
        apply lookup_lt_is_Some_2 in Hl. destruct Hl as [s Hs]. rewrite Hs. simpl.
        eapply Hshape. exact Hs.
      - cbv zeta. rewrite forLoop_S.
        destruct (IH ltac:(lia)) as (Hl & Hsh & Hval).
        set (acc := forLoop n _ scenes) in *.
        destruct (sceneAttr x (SceneParam.id (SceneParam.infoAt n))) as [v0|] eqn:Hn0.
        + rewrite length_insert. split; [exact Hl|].
          rewrite sceneAt_insert_eq by lia. rewrite setv_length.
          split; [exact Hsh|]. intros Hkn.
          destruct (decide (k = n)) as [->|Hne].
          * rewrite getv_setv_eq by (rewrite Hsh; lia). congruence.
          * rewrite getv_setv_ne by congruence. apply Hval. lia.
        + split; [exact Hl|]. split; [exact Hsh|]. intros Hkn.
          destruct (decide (k = n)) as [->|Hne]; [congruence|]. apply Hval. lia. }
    apply (Hinv nCount (Nat.le_refl _)). exact Hk.
Qed.

Lemma restoreScene_partial_witness :
  let scenes : list (SceneParams float) := defaultBank in
  let x : SceneXml float :=
    mkSceneXml (Some 2)
      (fun name => if decide (name = ID_filtReso) then Some (flit 9 10) else None) in
  (bankShape scenes = true /\ sceneIndexAttr x = Some (Z.of_nat 2) /\
   (2 < Z.to_nat kNumScenes)%nat /\ (2 < nCount)%nat /\
   sceneAttr x (SceneParam.id (SceneParam.infoAt (F:=float) 2)) = Some (flit 9 10) /\
   sceneAttr x (SceneParam.id (SceneParam.infoAt (F:=float) 1)) = None) /\
  getv (sceneAt (restoreScene scenes x) 2) 2 = flit 9 10 /\
  getv (sceneAt (restoreScene scenes x) 2) 1 = fofZ 8000.
Proof.
  intros scenes x.
  assert (Hb : bankShape scenes = true) by reflexivity.
  assert (Hidx : sceneIndexAttr x = Some (Z.of_nat 2)) by reflexivity.
  assert (Hj : (2 < Z.to_nat kNumScenes)%nat) by (vm_compute; lia).
  assert (Hk : (2 < nCount)%nat) by (vm_compute; lia).
  assert (Ha : sceneAttr x (SceneParam.id (SceneParam.infoAt (F:=float) 2))
               = Some (flit 9 10)) by reflexivity.
  assert (Hn : sceneAttr x (SceneParam.id (SceneParam.infoAt (F:=float) 1)) = None)
    by reflexivity.
  split; [repeat split; assumption|]. split.
  - exact (proj2 (restoreScene_partial scenes x) 2%nat 2%nat _ Hb Hidx Hj Hk Ha).
  - rewrite (proj1 (restoreScene_partial scenes x) 2%nat 1%nat (or_intror (or_introl Hn))).
    reflexivity.
Defined.

(** X11.  Restoring a document decides the macro mappings section by
    section: a preset document with a mappings section leaves a macro
    that no element of the section names without any target, whatever it
    had before; a preset document without the section, a legacy
    document, an unknown document and no document at all leave every
    mapping, and the scenes too in the last three cases, as they
    were. *)
Theorem restore_mappings_section {F : Type} `{FloatArith F} (p : Processor F) :
  (forall a s l m,
      (forall x, In x l -> macroIndexAttr x <> Some (Z.of_nat m)) ->
      getMappings (macroEngine_ (setStateInformation (Some (PresetDoc a s (Some l))) p)) m
      = [])
  /\
  (forall a s,
      macroEngine_ (setStateInformation (Some (PresetDoc a s None)) p) = macroEngine_ p)
  /\
  (forall a,
      setStateInformation (Some (LegacyDoc a)) p
      = mkProcessor a (scenes_ p) (macroEngine_ p))
  /\
  setStateInformation (Some OtherDoc) p = p
  /\
  setStateInformation None p = p.
Proof.
  split; [|repeat split; reflexivity].
  intros a s l m Hl. simpl.
  assert (Hinv : forall e, getMappings e m = [] ->
                           getMappings (fold_left restoreMacro l e) m = []).
  { induction l as [|x l IH]; intros e He; [exact He|].
    simpl. apply IH.
    - intros y Hy. apply Hl. right. exact Hy.
    - unfold restoreMacro.
      destruct ((default (-1) (macroIndexAttr x) <? 0)
                || (kNumMacros <=? default (-1) (macroIndexAttr x))) eqn:Hg;
        [exact He|].
      apply orb_false_iff in Hg. destruct Hg as [Hg0 _]. apply Z.ltb_ge in Hg0.
      rewrite getMappings_setMappings_ne; [exact He|].
      intros ->. apply (Hl x); [left; reflexivity|].
      destruct (macroIndexAttr x) as [idx|]; simpl in *; [|lia].
      rewrite Z2Nat.id by lia. reflexivity. }
  apply Hinv. apply getMappings_clearAllMappings.
Qed.

Lemma restore_mappings_section_witness :
  let p : Processor float := defaultProcessor in
  let l : list (MacroXml float) :=
    [mkMacroXml (Some 0) [mkTargetXml (Some ID_revSize) (flit 1 2) (Some 1)]] in
  (forall x, In x l -> macroIndexAttr x <> Some (Z.of_nat 2)) /\
  getMappings (macroEngine_ p) 2 <> [] /\
  getMappings (macroEngine_ (setStateInformation (Some (PresetDoc None None (Some l))) p)) 2
  = [] /\
  getMappings (macroEngine_ (setStateInformation (Some (PresetDoc None None (Some l))) p)) 0
  = [mkTarget SceneParam.revSize (flit 1 2) exponential].
Proof.
  intros p l.
  assert (Hl : forall x, In x l -> macroIndexAttr x <> Some (Z.of_nat 2)).
  { intros x [<-|[]]. discriminate. }
  split; [exact Hl|]. split; [discriminate|]. split.
  - exact (proj1 (restore_mappings_section p) None None l 2%nat Hl).
  - reflexivity.
Defined.

(** X12.  [storeScene] on a scene index within 0 .. 7 copies the
    fourteen host parameter values, each into the field of its row, and
    leaves the other seven scenes, the host parameters and the macro
    mappings as they were. *)
Theorem storeScene_captures_host_values {F : Type} `{FloatArith F}
    (p : Processor F) (sceneIndex : Z) :
  bankShape (scenes_ p) = true ->
  0 <= sceneIndex < kNumScenes ->
  let p' := storeScene p sceneIndex in
  (forall k, (k < nCount)%nat ->
     getv (sceneAt (scenes_ p') (Z.to_nat sceneIndex)) k
     = getRawParam p (SceneParam.id (SceneParam.infoAt (F:=F) k))) /\
  (forall j, j <> Z.to_nat sceneIndex -> sceneAt (scenes_ p') j = sceneAt (scenes_ p) j) /\
  apvts p' = apvts p /\ macroEngine_ p' = macroEngine_ p.
Proof.
  intros Hb Hidx p'. unfold p', storeScene.
  apply bankShape_spec in Hb. destruct Hb as [Hlen Hshape].
  change (Z.to_nat kNumScenes) with 8%nat in Hlen. unfold kNumScenes in *.
  destruct (Z.ltb_spec sceneIndex 0); [lia|].
  destruct (Z.leb_spec 8 sceneIndex); [lia|]. simpl.
  assert (Hi : (Z.to_nat sceneIndex < length (scenes_ p))%nat) by lia.
  split; [|split; [|split; reflexivity]].
  - intros k Hk. rewrite sceneAt_insert_eq by exact Hi.
    assert (Hinv :
      forall n, (n <= nCount)%nat ->
        let acc := forLoop n
                     (fun k0 scene =>
                        setv scene k0 (getRawParam p (SceneParam.id (SceneParam.infoAt k0))))
                     (sceneAt (scenes_ p) (Z.to_nat sceneIndex)) in
        length (values acc) = nCount /\
        ((k < n)%nat ->
         getv acc k = getRawParam p (SceneParam.id (SceneParam.infoAt (F:=F) k)))).
    { induction n as [|n IH]; intros Hn.
      - cbv zeta. unfold forLoop. simpl. split; [|lia].
        unfold sceneAt. apply lookup_lt_is_Some_2 in Hi. destruct Hi as [s Hs].
        rewrite Hs. simpl. eapply Hshape. exact Hs.
      - cbv zeta. rewrite forLoop_S. destruct (IH ltac:(lia)) as [Hl Hval].
        set (acc := forLoop n _ _) in *. rewrite setv_length.
        split; [exact Hl|]. intros Hkn.
        destruct (decide (k = n)) as [->|Hne].
        + apply getv_setv_eq. rewrite Hl. lia.
        + rewrite getv_setv_ne by congruence. apply Hval. lia. }
    apply (Hinv nCount (Nat.le_refl _)). exact Hk.
  - intros j Hj. apply sceneAt_insert_ne. congruence.
Qed.

Lemma storeScene_captures_host_values_witness :
  let p : Processor float :=
    mkProcessor (fun name => match name with
                             | ID_filtCutoff => fofZ 440
                             | _ => fofZ 0
                             end)
                defaultBank initDefaultMappings in
  (bankShape (scenes_ p) = true /\ 0 <= 3 < kNumScenes /\ (1 < nCount)%nat) /\
  getv (sceneAt (scenes_ (storeScene p 3)) 3) 1 = fofZ 440.
Proof.
  intros p.
  assert (Hb : bankShape (scenes_ p) = true) by reflexivity.
  assert (Hidx : 0 <= 3 < kNumScenes) by (unfold kNumScenes; lia).
  assert (Hk : (1 < nCount)%nat) by (vm_compute; lia).
  split; [repeat split; try assumption; apply Hidx|].
  exact (proj1 (storeScene_captures_host_values p 3 Hb Hidx) 1%nat Hk).
Defined.

(** X13.  [setSceneParam] changes one value: every field of every other
    scene, and every other field of the addressed scene, reads as
    before, and so do the host parameters and the macro mappings. *)
Theorem setSceneParam_changes_one_value {F : Type} `{FloatArith F}
    (p : Processor F) (sceneIndex paramIndex : Z) (value : F) :
  let p' := setSceneParam p sceneIndex paramIndex value in
  (forall j k,
      j <> Z.to_nat sceneIndex \/ k <> Z.to_nat paramIndex ->
      getv (sceneAt (scenes_ p') j) k = getv (sceneAt (scenes_ p) j) k) /\
  apvts p' = apvts p /\ macroEngine_ p' = macroEngine_ p.
Proof.
  intros p'. unfold p', setSceneParam.
  destruct ((0 <=? sceneIndex) && (sceneIndex <? kNumScenes) && (0 <=? paramIndex)
            && (paramIndex <? SceneParam.kCount));
    [|repeat split; reflexivity].
  split; [|split; reflexivity].
  intros j k Hjk. simpl. apply getv_sceneAt_insert_setv. exact Hjk.
Qed.

Lemma setSceneParam_changes_one_value_witness :
  let p : Processor float := defaultProcessor in
  (2%nat <> Z.to_nat 3 \/ 1%nat <> Z.to_nat 1) /\
  getv (sceneAt (scenes_ (setSceneParam p 3 1 (fofZ 440))) 2) 1 = fofZ 8000 /\
  getv (sceneAt (scenes_ (setSceneParam p 3 1 (fofZ 440))) 3) 1 = fofZ 440.
Proof.
  intros p.
  assert (Hjk : 2%nat <> Z.to_nat 3 \/ 1%nat <> Z.to_nat 1) by (left; vm_compute; lia).
  split; [exact Hjk|]. split.
  - rewrite (proj1 (setSceneParam_changes_one_value p 3 1 (fofZ 440)) 2%nat 1%nat Hjk).
    reflexivity.
  - reflexivity.
Defined.

(** ** Factory presets and the scene pipeline *)

(** X14.  Every factory preset is well formed in single precision:
    loading any of the eight presets into a processor leaves a bank of
    eight scenes that are all within the ranges of the info table, and
    four macro mappings whose targets all address a continuous field of
    the table with one of the four curves; the host parameters are not
    touched.  An index outside 0 .. 7 loads nothing. *)
Theorem factory_presets_well_formed (p : Processor float) (index : Z) :
  (engineShape (macroEngine_ p) = true ->
   0 <= index < kNumFactoryPresets ->
   let p' := loadFactoryPresetData p index in
   bankInRange (scenes_ p') = true /\
   engineValid (macroEngine_ p') = true /\
   forallb (forallb (fun tg : MacroTarget float =>
                       negb (SceneParam.isDiscrete
                               (SceneParam.infoAt (F:=float)
                                  (Z.to_nat (sceneParamIndex tg))))))
           (mappings_ (macroEngine_ p')) = true /\
   apvts p' = apvts p) /\
  (index < 0 \/ kNumFactoryPresets <= index -> loadFactoryPresetData p index = p).
Proof.
  split.
  - intros Hshape Hidx p'. unfold p'. clear p'.
    destruct p as [a s [m]]. unfold engineShape in Hshape. simpl in Hshape.
    apply Nat.eqb_eq in Hshape.
    destruct m as [|m0 [|m1 [|m2 [|m3 [|m4 m]]]]]; try discriminate Hshape.
    unfold kNumFactoryPresets in Hidx.
    assert (Hcases : index = 0 \/ index = 1 \/ index = 2 \/ index = 3 \/
                     index = 4 \/ index = 5 \/ index = 6 \/ index = 7) by lia.
    destruct Hcases as [-> |[-> |[-> |[-> |[-> |[-> |[-> | ->]]]]]]];
      vm_compute; repeat split; reflexivity.
  - intros Hidx. unfold loadFactoryPresetData, kNumFactoryPresets in *.
    destruct (Z.ltb_spec index 0); [reflexivity|].
    destruct (Z.leb_spec 8 index); [reflexivity|]. lia.
Qed.

Lemma factory_presets_well_formed_witness :
  let p : Processor float := defaultProcessor in
  (engineShape (macroEngine_ p) = true /\ 0 <= 5 < kNumFactoryPresets) /\
  bankInRange (scenes_ (loadFactoryPresetData p 5)) = true /\
  getv (sceneAt (scenes_ (loadFactoryPresetData p 5)) 2) 6 = flit 85 100.
Proof.
  intros p.
  assert (Hs : engineShape (macroEngine_ p) = true) by reflexivity.
  assert (Hi : 0 <= 5 < kNumFactoryPresets) by (unfold kNumFactoryPresets; lia).
  split; [split; assumption|]. split.
  - exact (proj1 (proj1 (factory_presets_well_formed p 5) Hs Hi)).
  - vm_compute. reflexivity.
Defined.

(** X15.  The Init preset agrees with the defaults of the engine and of
    the scene data, in any arithmetic: loading preset 0 installs exactly
    the mappings of [initDefaultMappings] and puts the default snapshot
    of [createDefault] in the first scene, and the constructor of the
    processor leaves the base scenes with the default mappings. *)
Theorem init_preset_is_default {F : Type} `{FloatArith F} (p : Processor F) :
  engineShape (macroEngine_ p) = true ->
  macroEngine_ (loadFactoryPresetData p 0) = initDefaultMappings /\
  sceneAt (scenes_ (loadFactoryPresetData p 0)) 0 = createDefault /\
  (forall hostParams,
      newProcessor hostParams = mkProcessor hostParams makeBaseScenes initDefaultMappings).
Proof.
  intros Hshape. destruct p as [a s [m]]. unfold engineShape in Hshape.
  simpl in Hshape. apply Nat.eqb_eq in Hshape.
  destruct m as [|m0 [|m1 [|m2 [|m3 [|m4 m]]]]]; try discriminate Hshape.
  repeat split; reflexivity.
Qed.

Lemma init_preset_is_default_witness :
  let p : Processor float :=
    mkProcessor (fun _ => fofZ 0) defaultBank (mkEngine [[]; []; []; []]) in
  engineShape (macroEngine_ p) = true /\
  macroEngine_ (loadFactoryPresetData p 0) = initDefaultMappings.
Proof.
  intros p.
  assert (Hs : engineShape (macroEngine_ p) = true) by reflexivity.
  split; [exact Hs|].
  exact (proj1 (init_preset_is_default p Hs)).
Defined.

(** X16.  After [loadFactoryPreset], in single precision and taking each
    host parameter to hold the raw value [setParam] hands it, the sound
    the scene pipeline computes is the first scene of the preset, bit
    for bit: the selectors read 0 and 1, the morph factor and the four
    macros are zero, the mix is 1 and the bypass is off. *)
Theorem loadFactoryPreset_plays_first_scene (p : Processor float) (index : Z) :
  engineShape (macroEngine_ p) = true ->
  0 <= index < kNumFactoryPresets ->
  let p' := loadFactoryPreset p index in
  morphAndMacros p' = getScene p' 0 /\
  sceneAIdx p' = 0 /\ sceneBIdx p' = 1 /\
  getRawParam p' ID_mix = fofZ 1 /\ getRawParam p' ID_bypass = fofZ 0.
Proof.
  intros Hshape Hidx p'. unfold p'. clear p'.
  destruct p as [a s [m]]. unfold engineShape in Hshape. simpl in Hshape.
  apply Nat.eqb_eq in Hshape.
  destruct m as [|m0 [|m1 [|m2 [|m3 [|m4 m]]]]]; try discriminate Hshape.
  unfold kNumFactoryPresets in Hidx.
  assert (Hcases : index = 0 \/ index = 1 \/ index = 2 \/ index = 3 \/
                   index = 4 \/ index = 5 \/ index = 6 \/ index = 7) by lia.
  destruct Hcases as [-> |[-> |[-> |[-> |[-> |[-> |[-> | ->]]]]]]];
    vm_compute; repeat split; reflexivity.
Qed.

Lemma loadFactoryPreset_plays_first_scene_witness :
  let p : Processor float :=
    mkProcessor (fun _ => flit 1 2) defaultBank initDefaultMappings in
  (engineShape (macroEngine_ p) = true /\ 0 <= 4 < kNumFactoryPresets) /\
  morphAndMacros (loadFactoryPreset p 4) = getScene (loadFactoryPreset p 4) 0 /\
  getv (morphAndMacros (loadFactoryPreset p 4)) 1 = fofZ 12000.
Proof.
  intros p.
  assert (Hs : engineShape (macroEngine_ p) = true) by reflexivity.
  assert (Hi : 0 <= 4 < kNumFactoryPresets) by (unfold kNumFactoryPresets; lia).
  split; [split; assumption|]. split.
  - exact (proj1 (loadFactoryPreset_plays_first_scene p 4 Hs Hi)).
  - vm_compute. reflexivity.
Defined.

(** X17.  The smoothing time of a scene field is zero exactly when the
    info table marks the field discrete: the three discrete fields jump,
    each of the eleven continuous fields is ramped; an index outside the
    table has time zero; and no time is negative or above 0.1 s. *)
Theorem smoothing_time_zero_iff_discrete (paramIndex : Z) :
  (0 <= paramIndex < SceneParam.kCount ->
   (getSceneParamSmoothTimeSec paramIndex = B64.ofZ 0 <->
    SceneParam.isDiscrete (SceneParam.infoAt (F:=float) (Z.to_nat paramIndex)) = true)) /\
  (paramIndex < 0 \/ SceneParam.kCount <= paramIndex ->
   getSceneParamSmoothTimeSec paramIndex = B64.ofZ 0) /\
  SFleb (B64.ofZ 0) (getSceneParamSmoothTimeSec paramIndex) = true /\
  SFleb (getSceneParamSmoothTimeSec paramIndex) (dlit 100 1000) = true.
Proof.
  unfold SceneParam.kCount.
  destruct (Z.lt_ge_cases paramIndex 0) as [Hneg|Hpos].
  - destruct paramIndex as [|q|q]; try lia.
    split; [lia|]. repeat split; reflexivity.
  - destruct (Z.lt_ge_cases paramIndex 14) as [Hlt|Hge].
    + assert (Hcases : paramIndex = 0 \/ paramIndex = 1 \/ paramIndex = 2 \/
                       paramIndex = 3 \/ paramIndex = 4 \/ paramIndex = 5 \/
                       paramIndex = 6 \/ paramIndex = 7 \/ paramIndex = 8 \/
                       paramIndex = 9 \/ paramIndex = 10 \/ paramIndex = 11 \/
                       paramIndex = 12 \/ paramIndex = 13) by lia.
      repeat (destruct Hcases as [-> | Hcases]); try subst paramIndex;
        (split; [intros _; split; intros Heq; first [reflexivity | discriminate Heq]
                | split; [intros; lia | split; reflexivity]]).
    + assert (Hz : getSceneParamSmoothTimeSec paramIndex = B64.ofZ 0).
      { destruct paramIndex as [|q|q]; try lia.
        do 4 (destruct q as [q|q|]; try reflexivity; try lia). }
      rewrite Hz. split; [lia|]. repeat split; reflexivity.
Qed.

Lemma smoothing_time_zero_iff_discrete_witness :
  (0 <= 9 < SceneParam.kCount /\ (14 < 0 \/ SceneParam.kCount <= 14)) /\
  getSceneParamSmoothTimeSec 9 = B64.ofZ 0 /\
  getSceneParamSmoothTimeSec 14 = B64.ofZ 0.
Proof.
  assert (H9 : 0 <= 9 < SceneParam.kCount) by (unfold SceneParam.kCount; lia).
  assert (H14 : 14 < 0 \/ SceneParam.kCount <= 14)
    by (right; unfold SceneParam.kCount; lia).
  split; [split; assumption|]. split.
  - apply (proj1 (smoothing_time_zero_iff_discrete 9) H9). reflexivity.
  - exact (proj1 (proj2 (smoothing_time_zero_iff_discrete 14)) H14).
Defined.

(** X18.  What the scene pipeline of [processBlock] hands on, for any
    mappings and macro values: in any arithmetic a discrete field is the
    value stored in scene A when the morph factor is below 0.5 and the
    value stored in scene B otherwise, never a blend and never moved by
    a macro; in exact arithmetic, with the bank within range and the
    morph factor in [0, 1], all fourteen values are within their
    ranges. *)
Theorem pipeline_output :
  (forall (F : Type) (A : FloatArith F) (p : Processor F) (i : nat),
      (i < nCount)%nat ->
      SceneParam.isDiscrete (SceneParam.infoAt (F:=F) i) = true ->
      getv (morphAndMacros p) i
      = if getRawParam p ID_morph <. flit 5 10
        then getv (sceneAt (scenes_ p) (Z.to_nat (sceneAIdx p))) i
        else getv (sceneAt (scenes_ p) (Z.to_nat (sceneBIdx p))) i)
  /\
  (forall p : Processor R,
      bankInRange (scenes_ p) = true ->
      (0 <= getRawParam p ID_morph <= 1)%R ->
      sceneInRange (morphAndMacros p) = true).
Proof.
  split.
  - intros F A p i Hi Hd. unfold morphAndMacros.
    rewrite apply_other by (intros; right; exact Hd).
    rewrite morph_getv by exact Hi. rewrite Hd. reflexivity.
  - intros p Hb Ht. unfold morphAndMacros.
    apply R_apply_inRange. apply R_morph_inRange.
    + apply bankInRange_sceneAt; [exact Hb|].
      pose proof (clampZ_bounds (ftoInt (getRawParam p ID_sceneA)) 0 (kNumScenes - 1)) as Hc.
      unfold sceneAIdx. unfold kNumScenes in Hc |- *.
      apply Z2Nat.inj_lt; lia.
    + apply bankInRange_sceneAt; [exact Hb|].
      pose proof (clampZ_bounds (ftoInt (getRawParam p ID_sceneB)) 0 (kNumScenes - 1)) as Hc.
      unfold sceneBIdx. unfold kNumScenes in Hc |- *.
      apply Z2Nat.inj_lt; lia.
    + exact Ht.
Qed.

Lemma pipeline_output_witness :
  let p : Processor R :=
    mkProcessor (fun name => match name with
                             | ID_morph => (3 / 4)%R
                             | ID_macro3 => 1%R
                             | _ => 0%R
                             end)
                defaultBank initDefaultMappings in
  (bankInRange (scenes_ p) = true /\ (0 <= getRawParam p ID_morph <= 1)%R) /\
  sceneInRange (morphAndMacros p) = true.
Proof.
  intros p.
  assert (Hb : bankInRange (scenes_ p) = true) by exact R_defaultBank_inRange.
  assert (Ht : (0 <= getRawParam p ID_morph <= 1)%R) by (simpl; lra).
  split; [split; assumption|].
  exact (proj2 pipeline_output p Hb Ht).
Defined.

(** ** The buffer steps of [processBlock] *)

Section BufferFacts.
Context {F : Type} `{FloatArith F}.

Lemma setSample_length (buffer : list (list F)) (ch s : nat) (v : F) (ch' : nat) :
  length (default [] (setSample buffer ch s v !! ch'))
  = length (default [] (buffer !! ch')).
Proof.
  unfold setSample. destruct (buffer !! ch) as [data|] eqn:Hd; [|reflexivity].
  destruct (decide (ch = ch')) as [<-|Hne].
  - rewrite list_lookup_insert_eq by (apply lookup_lt_Some with data; exact Hd).
    rewrite Hd. simpl. apply length_insert.
  - rewrite list_lookup_insert_ne by exact Hne. reflexivity.
Qed.

(** Assigning a sample changes that sample, when it exists, and no
    other. *)
Lemma sampleAt_setSample (buffer : list (list F)) (ch s : nat) (v : F) (ch' s' : nat) :
  sampleAt (setSample buffer ch s v) ch' s'
  = if (ch' =? ch)%nat && (s' =? s)%nat
       && (s <? length (default [] (buffer !! ch)))%nat
    then v else sampleAt buffer ch' s'.
Proof.
  unfold sampleAt, setSample.
  destruct (buffer !! ch) as [data|] eqn:Hd.
  - simpl. destruct (Nat.eqb_spec ch' ch) as [->|Hne]; simpl.
    + rewrite list_lookup_insert_eq by (apply lookup_lt_Some with data; exact Hd).
      rewrite Hd. simpl. unfold at_.
      destruct (Nat.eqb_spec s' s) as [->|Hns]; simpl.
      * destruct (Nat.ltb_spec s (length data)) as [Hlt|Hge].
        -- rewrite list_lookup_insert_eq by exact Hlt. reflexivity.
        -- rewrite list_insert_ge by exact Hge. reflexivity.
      * rewrite list_lookup_insert_ne by congruence. reflexivity.
    + rewrite list_lookup_insert_ne by congruence. reflexivity.
  - simpl. rewrite andb_false_r. reflexivity.
Qed.

(** A loop that replaces each sample of the first [numSamples] positions
    of one channel by a function of that sample. *)
Lemma sample_loop (g : nat -> F -> F) (ch numSamples : nat) (buffer : list (list F)) :
  let r := forLoop numSamples
             (fun s buf => setSample buf ch s (g s (sampleAt buf ch s))) buffer in
  (forall ch', length (default [] (r !! ch')) = length (default [] (buffer !! ch'))) /\
  (forall ch' s',
      sampleAt r ch' s'
      = if (ch' =? ch)%nat && (s' <? numSamples)%nat
           && (s' <? length (default [] (buffer !! ch)))%nat
        then g s' (sampleAt buffer ch s') else sampleAt buffer ch' s').
Proof.
  induction numSamples as [|n IH]; cbv zeta.
  - unfold forLoop. simpl. split; [reflexivity|].
    intros ch' s'. rewrite andb_false_r. reflexivity.
  - rewrite forLoop_S. cbv zeta in IH. destruct IH as [Hlen Hval].
    set (acc := forLoop n _ buffer) in *. split.
    + intros ch'. rewrite setSample_length. apply Hlen.
    + intros ch' s'. rewrite sampleAt_setSample, Hlen.
      rewrite (Hval ch n), Nat.ltb_irrefl, andb_false_r. simpl.
      rewrite (Hval ch' s').
      destruct (Nat.eqb_spec ch' ch) as [->|Hne]; simpl; [|reflexivity].
      destruct (Nat.eqb_spec s' n) as [->|Hns]; simpl.
      * rewrite Nat.ltb_irrefl. simpl.
        replace (n <? Datatypes.S n)%nat with true by (symmetry; apply Nat.ltb_lt; lia).
        simpl. destruct (n <? length (default [] (buffer !! ch)))%nat; reflexivity.
      * replace (s' <? Datatypes.S n)%nat with (s' <? n)%nat; [reflexivity|].
        destruct (Nat.ltb_spec s' n), (Nat.ltb_spec s' (Datatypes.S n));
          try reflexivity; lia.
Qed.

(** The same over the first [numChannels] channels. *)
Lemma channel_sample_loop (g : nat -> nat -> F -> F) (numChannels numSamples : nat)
    (buffer : list (list F)) :
  let r := forLoop numChannels
             (fun ch buf =>
                forLoop numSamples
                  (fun s buf => setSample buf ch s (g ch s (sampleAt buf ch s))) buf)
             buffer in
  (forall ch', length (default [] (r !! ch')) = length (default [] (buffer !! ch'))) /\
  (forall ch' s',
      sampleAt r ch' s'
      = if (ch' <? numChannels)%nat && (s' <? numSamples)%nat
           && (s' <? length (default [] (buffer !! ch')))%nat
        then g ch' s' (sampleAt buffer ch' s') else sampleAt buffer ch' s').
Proof.
  induction numChannels as [|n IH]; cbv zeta.
  - unfold forLoop at 1 2. simpl. split; reflexivity.
  - rewrite forLoop_S. cbv zeta in IH. destruct IH as [Hlen Hval].
    set (acc := forLoop n _ buffer) in *.
    destruct (sample_loop (g n) n numSamples acc) as [Hl Hv]. cbv zeta in Hl, Hv.
    split.
    + intros ch'. rewrite Hl. apply Hlen.
    + intros ch' s'. rewrite Hv, Hlen, !Hval.
      rewrite Nat.ltb_irrefl. simpl.
      destruct (Nat.eqb_spec ch' n) as [->|Hne]; simpl.
      * rewrite Nat.ltb_irrefl. simpl.
        replace (n <? Datatypes.S n)%nat with true by (symmetry; apply Nat.ltb_lt; lia).
        reflexivity.
      * replace (ch' <? Datatypes.S n)%nat with (ch' <? n)%nat; [reflexivity|].
        destruct (Nat.ltb_spec ch' n), (Nat.ltb_spec ch' (Datatypes.S n));
          try reflexivity; lia.
Qed.

Lemma safetyClamp_sample (numChannels numSamples : nat) (buffer : list (list F))
    (ch s : nat) :
  sampleAt (safetyClamp numChannels numSamples buffer) ch s
  = if (ch <? numChannels)%nat && (s <? numSamples)%nat
       && (s <? length (default [] (buffer !! ch)))%nat
    then clamp (sampleAt buffer ch s) (fofZ (-4)) (fofZ 4)
    else sampleAt buffer ch s.
Proof.
  unfold safetyClamp.
  exact (proj2 (channel_sample_loop (fun _ _ x => clamp x (fofZ (-4)) (fofZ 4))
                  numChannels numSamples buffer) ch s).
Qed.

Lemma mixStage_sample (mixAmount : F) (numChannels numSamples : nat)
    (dryBuffer buffer : list (list F)) (ch s : nat) :
  (mixAmount <. fofZ 1) = true ->
  sampleAt (mixStage mixAmount numChannels numSamples dryBuffer buffer) ch s
  = if (ch <? numChannels)%nat && (s <? numSamples)%nat
       && (s <? length (default [] (buffer !! ch)))%nat
    then sampleAt dryBuffer ch s
         ⊕ mixAmount ⊗ (sampleAt buffer ch s ⊖ sampleAt dryBuffer ch s)
    else sampleAt buffer ch s.
Proof.
  intros Hlt. unfold mixStage. rewrite Hlt.
  exact (proj2 (channel_sample_loop
                  (fun ch s x => sampleAt dryBuffer ch s
                                 ⊕ mixAmount ⊗ (x ⊖ sampleAt dryBuffer ch s))
                  numChannels numSamples buffer) ch s).
Qed.
End BufferFacts.

(** X19.  The output safety clamp loop, step 9 of [processBlock], in
    single precision, as a function of the buffer that reaches it: every
    sample within the given channel and sample counts comes out of the
    loop neither below -4 nor above 4, and within [-4, 4] when it was a
    number; a sample already within [-4, 4] is not changed; a NaN sample
    stays NaN, the clamp does not stop it; and the samples outside the
    counts are not touched.  The statement is about the loop: a call of
    [processBlock] that returns at its head because the bypass has
    settled never runs it. *)
Theorem safetyClamp_bounds (numChannels numSamples : nat) (buffer : list (list float))
    (ch s : nat) :
  let x := sampleAt buffer ch s in
  let y := sampleAt (safetyClamp numChannels numSamples buffer) ch s in
  ((ch < numChannels)%nat -> (s < numSamples)%nat ->
   (s < length (default [] (buffer !! ch)))%nat ->
   SFltb y (fofZ (-4)) = false /\ SFltb (fofZ 4) y = false /\
   (isNaN x = false -> SFleb (fofZ (-4)) y = true /\ SFleb y (fofZ 4) = true) /\
   (SFleb (fofZ (-4)) x = true -> SFleb x (fofZ 4) = true -> y = x) /\
   (isNaN x = true -> isNaN y = true)) /\
  ((numChannels <= ch)%nat \/ (numSamples <= s)%nat -> y = x).
Proof.
  intros x y. unfold y. rewrite safetyClamp_sample. split.
  - intros Hch Hs Hin.
    apply Nat.ltb_lt in Hch, Hs, Hin. rewrite Hch, Hs, Hin. simpl andb. cbv iota.
    fold x.
    assert (Hle : SFltb (fofZ 4) (fofZ (-4)) = false) by reflexivity.
    pose proof (b32_clamp_not_outside x _ _ Hle) as [Hlo Hhi].
    split; [exact Hlo|]. split; [exact Hhi|]. split; [|split].
    + intros Hn.
      assert (Hnc : isNaN (clamp x (fofZ (-4)) (fofZ 4)) = false)
        by (apply b32_clamp_isNaN; [exact Hn | reflexivity | reflexivity]).
      split; apply SFltb_false_leb; try assumption; reflexivity.
    + intros H1 H2. apply b32_clamp_id; assumption.
    + intros Hn. destruct x; try discriminate Hn. reflexivity.
  - intros Hout.
    destruct (Nat.ltb_spec ch numChannels), (Nat.ltb_spec s numSamples);
      simpl; try reflexivity. lia.
Qed.

Lemma safetyClamp_bounds_witness :
  let buffer : list (list float) := [[fofZ 9; flit 1 2]; [fofZ (-7); S754_nan]] in
  ((0 < 2)%nat /\ (0 < 2)%nat /\ (0 < length (default [] (buffer !! 0%nat)))%nat /\
   isNaN (sampleAt buffer 0 0) = false) /\
  SFleb (sampleAt (safetyClamp 2 2 buffer) 0 0) (fofZ 4) = true /\
  safetyClamp 2 2 buffer = [[fofZ 4; flit 1 2]; [fofZ (-4); S754_nan]].
Proof.
  intros buffer.
  assert (Hch : (0 < 2)%nat) by lia.
  assert (Hin : (0 < length (default [] (buffer !! 0%nat)))%nat) by (simpl; lia).
  assert (Hn : isNaN (sampleAt buffer 0 0) = false) by reflexivity.
  split; [repeat split; assumption|]. split.
  - exact (proj2 (proj1 (proj2 (proj2 (proj1 (safetyClamp_bounds 2 2 buffer 0 0)
                                          Hch Hch Hin))) Hn)).
  - vm_compute. reflexivity.
Defined.

(** X20.  The dry/wet mix, step 6 of [processBlock], as a function of
    the buffers that reach it.  With a mix of 1 or more (or NaN) the
    processed block passes unchanged.  With a mix below 1, negative
    values included, and in any arithmetic, single precision among
    them, every sample within the given channel and sample counts
    becomes [dry + mix * (wet - dry)], each operation as the arithmetic
    has it, and every other sample is left as it is.  In exact
    arithmetic, for a mix in [0, 1), this is [(1 - mix) dry + mix wet]
    and lies between the dry and the wet sample.  In single precision
    at mix 0 it compares equal to the dry sample when the dry sample and
    the difference are numbers. *)
Theorem mixStage_blend :
  (forall (F : Type) (A : FloatArith F) (mixAmount : F) (nCh nS : nat)
          (dryBuffer buffer : list (list F)),
      (mixAmount <. fofZ 1) = false ->
      mixStage mixAmount nCh nS dryBuffer buffer = buffer)
  /\
  (forall (F : Type) (A : FloatArith F) (mixAmount : F) (nCh nS : nat)
          (dryBuffer buffer : list (list F)) (ch s : nat),
      (mixAmount <. fofZ 1) = true ->
      sampleAt (mixStage mixAmount nCh nS dryBuffer buffer) ch s
      = if (ch <? nCh)%nat && (s <? nS)%nat
           && (s <? length (default [] (buffer !! ch)))%nat
        then sampleAt dryBuffer ch s
             ⊕ mixAmount ⊗ (sampleAt buffer ch s ⊖ sampleAt dryBuffer ch s)
        else sampleAt buffer ch s)
  /\
  (forall (mixAmount : float) (nCh nS : nat) (dryBuffer buffer : list (list float))
          (ch s : nat),
      SFltb mixAmount (fofZ 1) = true ->
      (ch < nCh)%nat -> (s < nS)%nat -> (s < length (default [] (buffer !! ch)))%nat ->
      sampleAt (mixStage mixAmount nCh nS dryBuffer buffer) ch s
      = SFadd B32.prec B32.emax (sampleAt dryBuffer ch s)
          (SFmul B32.prec B32.emax mixAmount
             (SFsub B32.prec B32.emax (sampleAt buffer ch s) (sampleAt dryBuffer ch s))))
  /\
  (forall (mixAmount : R) (nCh nS : nat) (dryBuffer buffer : list (list R))
          (ch s : nat),
      (0 <= mixAmount < 1)%R ->
      (ch < nCh)%nat -> (s < nS)%nat -> (s < length (default [] (buffer !! ch)))%nat ->
      let dry := sampleAt dryBuffer ch s in
      let wet := sampleAt buffer ch s in
      let y := sampleAt (mixStage mixAmount nCh nS dryBuffer buffer) ch s in
      y = ((1 - mixAmount) * dry + mixAmount * wet)%R /\
      (Rmin dry wet <= y <= Rmax dry wet)%R)
  /\
  (forall (nCh nS : nat) (dryBuffer buffer : list (list float)) (ch s : nat),
      (ch < nCh)%nat -> (s < nS)%nat -> (s < length (default [] (buffer !! ch)))%nat ->
      isFiniteF (sampleAt dryBuffer ch s) = true ->
      isFiniteF (sampleAt buffer ch s ⊖ sampleAt dryBuffer ch s) = true ->
      SFeqb (sampleAt (mixStage (fofZ 0) nCh nS dryBuffer buffer) ch s)
            (sampleAt dryBuffer ch s) = true).
Proof.
  split; [|split; [|split; [|split]]].
  - intros F A mixAmount nCh nS dryBuffer buffer Hge. unfold mixStage.
    rewrite Hge. reflexivity.
  - intros F A mixAmount nCh nS dryBuffer buffer ch s Hlt.
    apply mixStage_sample. exact Hlt.
  - intros mixAmount nCh nS dryBuffer buffer ch s Hlt Hch Hs Hin.
    rewrite mixStage_sample by exact Hlt.
    apply Nat.ltb_lt in Hch, Hs, Hin. rewrite Hch, Hs, Hin. reflexivity.
  - intros mixAmount nCh nS dryBuffer buffer ch s Hm Hch Hs Hin dry wet y.
    unfold y. rewrite mixStage_sample by (apply Rltb_true; simpl; lra).
    apply Nat.ltb_lt in Hch, Hs, Hin. rewrite Hch, Hs, Hin. simpl andb. cbv iota.
    fold dry. fold wet. simpl.
    split; [ring|].
    unfold Rmin, Rmax. destruct (Rle_dec dry wet); split; nra.
  - intros nCh nS dryBuffer buffer ch s Hch Hs Hin Hd Hw.
    rewrite mixStage_sample by reflexivity.
    apply Nat.ltb_lt in Hch, Hs, Hin. rewrite Hch, Hs, Hin. simpl andb. cbv iota.
    apply b32_add_zero_times; assumption.
Qed.

Lemma mixStage_blend_witness :
  let dryBuffer : list (list R) := [[1%R; 2%R]] in
  let buffer : list (list R) := [[3%R; (-2)%R]] in
  let dryF : list (list float) := [[fofZ 1; fofZ 2]] in
  let wetF : list (list float) := [[fofZ 3; fofZ (-2)]] in
  ((0 <= 1 / 4 < 1)%R /\ (0 < 1)%nat /\ (1 < 2)%nat /\
   (1 < length (default [] (buffer !! 0%nat)))%nat /\
   SFltb (fofZ (-1)) (fofZ 1) = true /\
   (1 < length (default [] (wetF !! 0%nat)))%nat) /\
  sampleAt (mixStage (1 / 4)%R 1 2 dryBuffer buffer) 0 1 = 1%R /\
  sampleAt (mixStage (fofZ (-1) : float) 1 2 dryF wetF) 0 1 = fofZ 6.
Proof.
  intros dryBuffer buffer dryF wetF.
  assert (Hm : (0 <= 1 / 4 < 1)%R) by lra.
  assert (Hch : (0 < 1)%nat) by lia.
  assert (Hs : (1 < 2)%nat) by lia.
  assert (Hin : (1 < length (default [] (buffer !! 0%nat)))%nat) by (simpl; lia).
  assert (Hneg : SFltb (fofZ (-1)) (fofZ 1) = true) by reflexivity.
  assert (HinF : (1 < length (default [] (wetF !! 0%nat)))%nat) by (simpl; lia).
  split; [repeat split; try assumption; apply Hm|]. split.
  - rewrite (proj1 (proj1 (proj2 (proj2 (proj2 mixStage_blend))) (1 / 4)%R 1%nat 2%nat
                      dryBuffer buffer 0%nat 1%nat Hm Hch Hs Hin)).
    unfold sampleAt, at_. simpl. lra.
  - rewrite (proj1 (proj2 (proj2 mixStage_blend)) (fofZ (-1)) 1%nat 2%nat dryF wetF
               0%nat 1%nat Hneg Hch Hs HinF).
    vm_compute. reflexivity.
Defined.

(** ** Further properties of the delay stage *)

Section DelayShapeFacts.
Context `{JuceDsp}.

(** What one pass of the second channel loop changes. *)
Lemma processChannel_spec (delayed : list float) (channels : Z) (s ch : nat)
    (d : DelayModule) (buffer : list (list float)) :
  (toneLPF d !! ch = None /\
   processChannel delayed channels s ch (d, buffer) = (d, buffer)) \/
  (exists lpf' x y,
     processChannel delayed channels s ch (d, buffer)
     = (mkDelay (sampleRate d) (numChannels d) (bufSize_ d)
                (<[ch := <[Z.to_nat (atZ (writePos d) ch) := x]>
                           (default [] (delayLine d !! ch))]> (delayLine d))
                (<[ch := if bufSize_ d <=? atZ (writePos d) ch + 1 then 0
                         else atZ (writePos d) ch + 1]> (writePos d))
                (fb d) (width d) (isPingPong d)
                (<[ch := lpf']> (toneLPF d))
                (smoothDelay_ d),
        <[ch := <[s := y]> (default [] (buffer !! ch))]> buffer)).
Proof.
  unfold processChannel.
  destruct (toneLPF d !! ch) as [lpf|]; [right|left; split; reflexivity].
  destruct (feedbackOf d delayed channels ch lpf) as [fs lpf'].
  eexists _, _, _. reflexivity.
Qed.

Lemma sameLayout_insert (buffer : list (list float)) (ch s : nat) (y : float) :
  sameLayout buffer (<[ch := <[s := y]> (default [] (buffer !! ch))]> buffer).
Proof.
  split; [apply length_insert|]. intros ch'.
  destruct (decide (ch = ch')) as [<-|Hne].
  - destruct (buffer !! ch) as [data|] eqn:Hd.
    + rewrite list_lookup_insert_eq by (apply lookup_lt_Some with data; exact Hd).
      simpl. apply length_insert.
    + apply lookup_ge_None in Hd. rewrite list_insert_ge by exact Hd.
      apply lookup_ge_None in Hd. rewrite Hd. reflexivity.
  - rewrite list_lookup_insert_ne by exact Hne. reflexivity.
Qed.

Lemma sameLayout_trans (b1 b2 b3 : list (list float)) :
  sameLayout b1 b2 -> sameLayout b2 b3 -> sameLayout b1 b3.
Proof.
  intros [Hl1 Hc1] [Hl2 Hc2]. split; [congruence|].
  intros ch. rewrite Hc2. apply Hc1.
Qed.

Lemma sameSettings_trans (d1 d2 d3 : DelayModule) :
  sameSettings d1 d2 -> sameSettings d2 d3 -> sameSettings d1 d3.
Proof.
  unfold sameSettings. intros (?&?&?&?&?&?) (?&?&?&?&?&?).
  repeat split; congruence.
Qed.

(** One channel of one sample keeps the shape of the module and the
    layout of the buffer, and advances the write cursor of that channel
    by one position, wrapping at the end of the line. *)
Lemma processChannel_step (delayed : list float) (channels : Z) (s ch : nat)
    (d : DelayModule) (buffer : list (list float)) :
  delayShape d -> (ch < 2)%nat ->
  let st := processChannel delayed channels s ch (d, buffer) in
  delayShape (fst st) /\ sameSettings d (fst st) /\ sameLayout buffer (snd st) /\
  (forall ch', (2 <= ch')%nat -> snd st !! ch' = buffer !! ch') /\
  (forall ch',
      atZ (writePos (fst st)) ch'
      = if (ch' =? ch)%nat
        then (if bufSize_ d <=? atZ (writePos d) ch + 1 then 0
              else atZ (writePos d) ch + 1)
        else atZ (writePos d) ch').
Proof.
  intros (Hpos & Hll & Hwl & Htl & Hline & Hwp) Hch st. unfold st. clear st.
  destruct (processChannel_spec delayed channels s ch d buffer)
    as [[Hnone _]|(lpf' & x & y & ->)].
  { apply lookup_ge_None in Hnone. lia. }
  simpl fst. simpl snd.
  assert (Hw : exists w, writePos d !! ch = Some w).
  { apply lookup_lt_is_Some_2. lia. }
  destruct Hw as [w Hw]. pose proof (Hwp ch w Hw) as Hwb.
  assert (Haw : atZ (writePos d) ch = w) by (unfold atZ; rewrite Hw; reflexivity).
  rewrite Haw.
  assert (Hl : exists l0, delayLine d !! ch = Some l0).
  { apply lookup_lt_is_Some_2. lia. }
  destruct Hl as [l0 Hl0]. rewrite Hl0. simpl default.
  split; [|split; [|split; [|split]]].
  - unfold delayShape. simpl. rewrite !length_insert.
    split; [exact Hpos|]. split; [exact Hll|]. split; [exact Hwl|].
    split; [exact Htl|]. split.
    + intros ch' line Hlk. apply list_lookup_insert_Some in Hlk.
      destruct Hlk as [(_ & <- & _)|[_ Hlk]].
      * rewrite length_insert. eapply Hline. exact Hl0.
      * eapply Hline. exact Hlk.
    + intros ch' wp Hlk. apply list_lookup_insert_Some in Hlk.
      destruct Hlk as [(_ & <- & _)|[_ Hlk]].
      * destruct (Z.leb_spec (bufSize_ d) (w + 1)); lia.
      * apply (Hwp _ _ Hlk).
  - repeat split; reflexivity.
  - apply sameLayout_insert.
  - intros ch' Hch'. apply list_lookup_insert_ne. lia.
  - intros ch'. unfold atZ. simpl.
    destruct (Nat.eqb_spec ch' ch) as [->|Hne].
    + rewrite list_lookup_insert_eq by lia. reflexivity.
    + rewrite list_lookup_insert_ne by congruence. reflexivity.
Qed.

Lemma processChannels_loop (delayed : list float) (channels : Z) (s n : nat)
    (d : DelayModule) (buffer : list (list float)) :
  delayShape d -> (n <= 2)%nat ->
  let st := forLoop n (processChannel delayed channels s) (d, buffer) in
  delayShape (fst st) /\ sameSettings d (fst st) /\ sameLayout buffer (snd st) /\
  (forall ch', (2 <= ch')%nat -> snd st !! ch' = buffer !! ch') /\
  (forall ch',
      atZ (writePos (fst st)) ch'
      = if (ch' <? n)%nat
        then (if bufSize_ d <=? atZ (writePos d) ch' + 1 then 0
              else atZ (writePos d) ch' + 1)
        else atZ (writePos d) ch').
Proof.
  intros Hd. induction n as [|n IH]; intros Hn; cbv zeta.
  - unfold forLoop. simpl. split; [exact Hd|].
    split; [repeat split; reflexivity|]. split; [split; reflexivity|].
    split; [reflexivity|]. intros ch'. reflexivity.
  - rewrite forLoop_S. specialize (IH ltac:(lia)). cbv zeta in IH.
    destruct (forLoop n (processChannel delayed channels s) (d, buffer))
      as [dn bn] eqn:Hst.
    simpl fst in IH. simpl snd in IH.
    destruct IH as (Hshape & Hset & Hlay & Hrest & Hcur).
    pose proof (processChannel_step delayed channels s n dn bn Hshape ltac:(lia))
      as Hstep.
    cbv zeta in Hstep. destruct Hstep as (Hshape' & Hset' & Hlay' & Hrest' & Hcur').
    split; [exact Hshape'|].
    split; [exact (sameSettings_trans _ _ _ Hset Hset')|].
    split; [exact (sameLayout_trans _ _ _ Hlay Hlay')|].
    split.
    + intros ch' Hch'. rewrite Hrest' by exact Hch'. apply Hrest. exact Hch'.
    + intros ch'. rewrite Hcur'.
      destruct Hset as (_ & _ & HB & _). rewrite HB.
      destruct (Nat.eqb_spec ch' n) as [->|Hne].
      * rewrite Hcur, Nat.ltb_irrefl.
        replace (n <? Datatypes.S n)%nat with true by (symmetry; apply Nat.ltb_lt; lia).
        reflexivity.
      * rewrite Hcur.
        replace (ch' <? Datatypes.S n)%nat with (ch' <? n)%nat; [reflexivity|].
        destruct (Nat.ltb_spec ch' n), (Nat.ltb_spec ch' (Datatypes.S n));
          try reflexivity; lia.
Qed.

Lemma delayChannels_le (buffer : list (list float)) : (delayChannels buffer <= 2)%nat.
Proof. unfold delayChannels. lia. Qed.

Lemma processSampleAt_step (s : nat) (d : DelayModule) (buffer : list (list float)) :
  delayShape d ->
  let st := processSampleAt s (d, buffer) in
  delayShape (fst st) /\ sameSettings d (fst st) /\ sameLayout buffer (snd st) /\
  (forall ch', (2 <= ch')%nat -> snd st !! ch' = buffer !! ch') /\
  (forall ch',
      atZ (writePos (fst st)) ch'
      = if (ch' <? delayChannels buffer)%nat
        then (atZ (writePos d) ch' + 1) mod bufSize_ d
        else atZ (writePos d) ch').
Proof.
  intros Hd st. unfold st, processSampleAt. clear st.
  destruct (getNextValue (smoothDelay_ d)) as [currentDelay smooth'].
  set (d1 := mkDelay (sampleRate d) (numChannels d) (bufSize_ d) (delayLine d)
                     (writePos d) (fb d) (width d) (isPingPong d) (toneLPF d) smooth').
  assert (Hd1 : delayShape d1) by exact Hd.
  match goal with
  | |- context [forLoop ?n (processChannel ?del ?chs s) (d1, buffer)] =>
      pose proof (processChannels_loop del chs s n d1 buffer Hd1
                    (delayChannels_le buffer)) as Hloop
  end.
  cbv zeta in Hloop. destruct Hloop as (Hshape & Hset & Hlay & Hrest & Hcur).
  split; [exact Hshape|]. split; [exact Hset|]. split; [exact Hlay|].
  split; [exact Hrest|].
  intros ch'. rewrite Hcur. fold (delayChannels buffer).
  destruct (ch' <? delayChannels buffer)%nat eqn:Hlt; [|reflexivity].
  apply Nat.ltb_lt in Hlt. pose proof (delayChannels_le buffer) as Hle.
  destruct Hd as (Hpos & _ & Hwl & _ & _ & Hwp).
  assert (Hw : exists w, writePos d !! ch' = Some w).
  { apply lookup_lt_is_Some_2. lia. }
  destruct Hw as [w Hw]. pose proof (Hwp ch' w Hw) as Hwb.
  change (writePos d1) with (writePos d). change (bufSize_ d1) with (bufSize_ d).
  unfold atZ. rewrite Hw. simpl.
  destruct (Z.leb_spec (bufSize_ d) (w + 1)).
  - replace (w + 1) with (bufSize_ d) by lia. rewrite Z.mod_same by lia. reflexivity.
  - rewrite Z.mod_small by lia. reflexivity.
Qed.

Lemma process_loop (n : nat) (d : DelayModule) (buffer : list (list float)) :
  delayShape d ->
  let st := forLoop n processSampleAt (d, buffer) in
  delayShape (fst st) /\ sameSettings d (fst st) /\ sameLayout buffer (snd st) /\
  (forall ch', (2 <= ch')%nat -> snd st !! ch' = buffer !! ch') /\
  (forall ch',
      atZ (writePos (fst st)) ch'
      = if (ch' <? delayChannels buffer)%nat
        then (atZ (writePos d) ch' + Z.of_nat n) mod bufSize_ d
        else atZ (writePos d) ch').
Proof.
  intros Hd. induction n as [|n IH]; cbv zeta.
  - unfold forLoop. simpl. split; [exact Hd|].
    split; [repeat split; reflexivity|]. split; [split; reflexivity|].
    split; [reflexivity|].
    intros ch'. destruct (ch' <? delayChannels buffer)%nat eqn:Hlt; [|reflexivity].
    apply Nat.ltb_lt in Hlt. pose proof (delayChannels_le buffer) as Hle.
    destruct Hd as (Hpos & _ & Hwl & _ & _ & Hwp).
    assert (Hw : exists w, writePos d !! ch' = Some w).
    { apply lookup_lt_is_Some_2. lia. }
    destruct Hw as [w Hw]. pose proof (Hwp ch' w Hw) as Hwb.
    unfold atZ. rewrite Hw. simpl. rewrite Z.add_0_r, Z.mod_small by lia. reflexivity.
  - rewrite forLoop_S. cbv zeta in IH.
    destruct (forLoop n processSampleAt (d, buffer)) as [dn bn] eqn:Hst.
    simpl fst in IH. simpl snd in IH.
    destruct IH as (Hshape & Hset & Hlay & Hrest & Hcur).
    pose proof (processSampleAt_step n dn bn Hshape) as Hstep.
    cbv zeta in Hstep. destruct Hstep as (Hshape' & Hset' & Hlay' & Hrest' & Hcur').
    split; [exact Hshape'|].
    split; [exact (sameSettings_trans _ _ _ Hset Hset')|].
    split; [exact (sameLayout_trans _ _ _ Hlay Hlay')|].
    split.
    + intros ch' Hch'. rewrite Hrest' by exact Hch'. apply Hrest. exact Hch'.
    + intros ch'. rewrite Hcur'.
      assert (Hdc : delayChannels bn = delayChannels buffer).
      { unfold delayChannels. destruct Hlay as [-> _]. reflexivity. }
      rewrite Hdc. destruct Hset as (_ & _ & HB & _). rewrite HB.
      rewrite Hcur.
      destruct (ch' <? delayChannels buffer)%nat; [|reflexivity].
      rewrite Z.add_mod_idemp_l by (destruct Hd as [Hpos _]; lia).
      f_equal. lia.
Qed.

Lemma setParameters_tone_length (lpf : list ToneFilter) (c : float) :
  length (forLoop 2 (fun ch lpf =>
                       match lpf !! ch with
                       | Some f => <[ch := setCutoffFrequency f c]> lpf
                       | None => lpf
                       end) lpf) = length lpf.
Proof.
  apply (forLoop_invariant (fun _ acc => length acc = length lpf)); [reflexivity|].
  intros i acc _ Hacc. destruct (acc !! i); [rewrite length_insert|]; exact Hacc.
Qed.

Lemma prepare_shape (specSampleRate : float) (specNumChannels : Z) :
  0 < castToInt (B64.mul specSampleRate (B64.ofZ 2)) ->
  delayShape (prepare specSampleRate specNumChannels).
Proof.
  revert specSampleRate specNumChannels.
  intros sr nch Hpos. unfold prepare.
  set (B := castToInt (B64.mul sr (B64.ofZ 2))) in *.
  unfold delayShape. cbn [bufSize_ delayLine writePos toneLPF].
  split; [exact Hpos|]. split; [reflexivity|]. split; [reflexivity|].
  split; [reflexivity|]. split.
  + intros ch line Hl.
    destruct ch as [|[|ch]]; simpl in Hl; try discriminate Hl;
      injection Hl as <-; rewrite length_replicate; lia.
  + intros ch wp Hl.
    destruct ch as [|[|ch]]; simpl in Hl; try discriminate Hl;
      injection Hl as <-; lia.
Qed.

Lemma setParameters_shape (d : DelayModule) (syncIndex : Z)
    (feedback tone01 width01 : float) (pingPong : bool) (bpm : float) :
  delayShape d ->
  delayShape (setParameters d syncIndex feedback tone01 width01 pingPong bpm).
Proof.
  revert d syncIndex feedback tone01 width01 pingPong bpm.
  intros d syncIndex feedback tone01 width01 pingPong bpm
         (Hpos & Hll & Hwl & Htl & Hline & Hwp).
  unfold delayShape, setParameters.
  cbn [bufSize_ delayLine writePos toneLPF].
  rewrite setParameters_tone_length.
  split; [exact Hpos|]. split; [exact Hll|]. split; [exact Hwl|].
  split; [exact Htl|]. split; assumption.
Qed.

Lemma reset_shape (d : DelayModule) : delayShape d -> delayShape (reset d).
Proof.
  revert d.
  intros d (Hpos & Hll & Hwl & Htl & Hline & Hwp).
  destruct d as [sr nc B lines wps f w pp lpfs sm]. simpl in *.
  destruct lines as [|l0 [|l1 [|l2 lines]]]; try discriminate Hll.
  destruct wps as [|w0 [|w1 [|w2 wps]]]; try discriminate Hwl.
  destruct lpfs as [|f0 [|f1 [|f2 lpfs]]]; try discriminate Htl.
  unfold delayShape, reset. simpl.
  split; [exact Hpos|]. split; [reflexivity|]. split; [reflexivity|].
  split; [reflexivity|]. split.
  + intros ch line Hl.
    destruct ch as [|[|ch]]; simpl in Hl; try discriminate Hl;
      injection Hl as <-; rewrite length_replicate.
    * apply (Hline 0%nat). reflexivity.
    * apply (Hline 1%nat). reflexivity.
  + intros ch wp Hl.
    destruct ch as [|[|ch]]; simpl in Hl; try discriminate Hl;
      injection Hl as <-; lia.
Qed.

Lemma process_shape (d : DelayModule) (buffer : list (list float)) :
  delayShape d ->
  delayShape (fst (process d buffer)) /\
  sameSettings d (fst (process d buffer)) /\
  sameLayout buffer (snd (process d buffer)) /\
  (forall ch, (2 <= ch)%nat -> snd (process d buffer) !! ch = buffer !! ch).
Proof.
  revert d buffer.
  intros d buffer Hd. unfold process.
  pose proof (process_loop (length (default [] (buffer !! 0%nat))) d buffer Hd)
    as Hloop.
  cbv zeta in Hloop. destruct Hloop as (H1 & H2 & H3 & H4 & _).
  split; [exact H1|]. split; [exact H2|]. split; [exact H3|exact H4].
Qed.

(** X21.  The shape of the delay module is an invariant.  [prepare]
    establishes it whenever two seconds at the sample rate are at least
    one sample: both delay lines hold [bufSize_] samples, both write
    cursors lie in 0 .. [bufSize_ - 1].  [setParameters], [reset] and
    [process] keep it; [process] moreover changes neither the buffer
    size nor the stored feedback, width and ping-pong settings, returns
    an audio buffer of the layout it was given, and leaves every channel
    after the second untouched. *)
Theorem delay_shape_invariant :
  (forall (specSampleRate : float) (specNumChannels : Z),
      0 < castToInt (B64.mul specSampleRate (B64.ofZ 2)) ->
      delayShape (prepare specSampleRate specNumChannels))
  /\
  (forall (d : DelayModule) (syncIndex : Z) (feedback tone01 width01 : float)
          (pingPong : bool) (bpm : float),
      delayShape d ->
      delayShape (setParameters d syncIndex feedback tone01 width01 pingPong bpm))
  /\
  (forall d : DelayModule, delayShape d -> delayShape (reset d))
  /\
  (forall (d : DelayModule) (buffer : list (list float)),
      delayShape d ->
      delayShape (fst (process d buffer)) /\
      sameSettings d (fst (process d buffer)) /\
      sameLayout buffer (snd (process d buffer)) /\
      (forall ch, (2 <= ch)%nat -> snd (process d buffer) !! ch = buffer !! ch)).
Proof.
  split; [exact prepare_shape|]. split; [exact setParameters_shape|].
  split; [exact reset_shape|exact process_shape].
Qed.

(** X22.  [process] on a block of [n] samples advances the write
    cursor of each processed channel by [n] positions around the delay
    line: the cursor ends at [(cursor + n) mod bufSize_]; the cursor of
    a channel the buffer does not have stays where it is. *)
Theorem process_advances_cursor (d : DelayModule) (buffer : list (list float))
    (ch : nat) :
  delayShape d ->
  let n := length (default [] (buffer !! 0%nat)) in
  atZ (writePos (fst (process d buffer))) ch
  = if (ch <? delayChannels buffer)%nat
    then (atZ (writePos d) ch + Z.of_nat n) mod bufSize_ d
    else atZ (writePos d) ch.
Proof.
  intros Hd n. unfold process.
  pose proof (process_loop n d buffer Hd) as Hloop.
  cbv zeta in Hloop. destruct Hloop as (_ & _ & _ & _ & Hcur). apply Hcur.
Qed.

(** X23.  [reset] silences the module and nothing else: under the shape
    invariant both delay lines keep their length and hold zeros, both
    write cursors are 0 and both tone filters are reset, while the
    feedback, width, ping-pong and buffer size settings and the
    delay-time smoother are as before. *)
Theorem reset_clears (d : DelayModule) :
  delayShape d ->
  let d' := reset d in
  (forall ch line, delayLine d !! ch = Some line ->
     delayLine d' !! ch = Some (replicate (length line) (fofZ 0))) /\
  writePos d' = [0; 0] /\
  (forall ch lpf, toneLPF d !! ch = Some lpf ->
     toneLPF d' !! ch = Some (resetTone lpf)) /\
  sameSettings d d' /\ smoothDelay_ d' = smoothDelay_ d.
Proof.
  intros (Hpos & Hll & Hwl & Htl & Hline & Hwp) d'. unfold d'. clear d'.
  destruct d as [sr nc B lines wps f w pp lpfs sm]. simpl in *.
  destruct lines as [|l0 [|l1 [|l2 lines]]]; try discriminate Hll.
  destruct wps as [|w0 [|w1 [|w2 wps]]]; try discriminate Hwl.
  destruct lpfs as [|f0 [|f1 [|f2 lpfs]]]; try discriminate Htl.
  unfold reset, sameSettings. simpl.
  split; [|split; [reflexivity|split; [|split; [repeat split; reflexivity|reflexivity]]]].
  - intros ch line Hl.
    destruct ch as [|[|ch]]; simpl in Hl; try discriminate Hl;
      injection Hl as <-; reflexivity.
  - intros ch lpf Hl.
    destruct ch as [|[|ch]]; simpl in Hl; try discriminate Hl;
      injection Hl as <-; reflexivity.
Qed.
End DelayShapeFacts.

Lemma delay_shape_invariant_witness :
  let d := @prepare onePoleDsp (B64.ofZ 8) 2 in
  let buffer : list (list float) :=
    [[fofZ 1; fofZ 0; fofZ 0]; [fofZ 0; fofZ 0; fofZ 0]] in
  0 < castToInt (B64.mul (B64.ofZ 8) (B64.ofZ 2)) /\
  @delayShape onePoleDsp d /\
  @delayShape onePoleDsp (fst (@process onePoleDsp d buffer)).
Proof.
  intros d buffer.
  assert (Hpos : 0 < castToInt (B64.mul (B64.ofZ 8) (B64.ofZ 2)))
    by (vm_compute; reflexivity).
  pose proof (proj1 (@delay_shape_invariant onePoleDsp) (B64.ofZ 8) 2 Hpos) as Hd.
  split; [exact Hpos|]. split; [exact Hd|].
  exact (proj1 (proj2 (proj2 (proj2 (@delay_shape_invariant onePoleDsp))) d buffer Hd)).
Defined.

Lemma process_advances_cursor_witness :
  let d := @prepare onePoleDsp (B64.ofZ 2) 2 in
  let buffer : list (list float) :=
    [[fofZ 1; fofZ 0; fofZ 0; fofZ 0; fofZ 0; fofZ 0];
     [fofZ 0; fofZ 0; fofZ 0; fofZ 0; fofZ 0; fofZ 0]] in
  @delayShape onePoleDsp d /\
  @bufSize_ onePoleDsp d = 4 /\
  atZ (@writePos onePoleDsp (fst (@process onePoleDsp d buffer))) 0 = 2.
Proof.
  intros d buffer.
  assert (Hd : @delayShape onePoleDsp d)
    by (apply (@prepare_shape onePoleDsp); vm_compute; reflexivity).
  split; [exact Hd|]. split; [reflexivity|].
  rewrite (@process_advances_cursor onePoleDsp d buffer 0 Hd). reflexivity.
Defined.

Lemma reset_clears_witness :
  let d := fst (@process onePoleDsp (@prepare onePoleDsp (B64.ofZ 2) 2)
                  [[fofZ 1; fofZ 1]; [fofZ 1; fofZ 1]]) in
  @delayShape onePoleDsp d /\
  @delayLine onePoleDsp d <> @delayLine onePoleDsp (@reset onePoleDsp d) /\
  @writePos onePoleDsp (@reset onePoleDsp d) = [0; 0].
Proof.
  intros d.
  assert (Hd : @delayShape onePoleDsp d).
  { apply (@process_shape onePoleDsp).
    apply (@prepare_shape onePoleDsp). vm_compute. reflexivity. }
  split; [exact Hd|]. split; [vm_compute; discriminate|].
  exact (proj1 (proj2 (@reset_clears onePoleDsp d Hd))).
Defined.

(** Single-precision addition is commutative. *)
Lemma b32_add_comm (x y : float) : x ⊕ y = y ⊕ x.
Proof.
  destruct x as [sx|sx| |sx mx ex], y as [sy|sy| |sy my ey]; simpl;
    try reflexivity; try (destruct sx, sy; reflexivity).
  unfold SFadd. rewrite (Z.min_comm ey ex). f_equal. apply Z.add_comm.
Qed.

(** X24.  The fractional read of [process] takes its two samples at the
    indices computed by the wrap of the source; whenever the integer
    part of the read position lies within one buffer length of the
    buffer, that is in [-bufSize, 2 bufSize), the first index is that
    integer modulo the buffer size and the second its successor modulo
    the buffer size, so both reads fall inside the delay line. *)
Theorem read_indices_wrap `{JuceDsp} :
  (forall (d : DelayModule) (currentDelay : float) (ch : nat),
      readDelayed d currentDelay ch
      = let line := default [] (delayLine d !! ch) in
        let readPosF := fofZ (atZ (writePos d) ch) ⊖ currentDelay in
        let readPosF :=
          if readPosF <. fofZ 0 then readPosF ⊕ fofZ (bufSize_ d) else readPosF in
        let idx := readIndices (bufSize_ d) (castToInt (floorF readPosF)) in
        let frac := readPosF ⊖ floorF readPosF in
        at_ line (Z.to_nat (fst idx)) ⊗ (fofZ 1 ⊖ frac)
        ⊕ at_ line (Z.to_nat (snd idx)) ⊗ frac)
  /\
  (forall bufSize idx0 : Z,
      0 < bufSize -> - bufSize <= idx0 < 2 * bufSize ->
      readIndices bufSize idx0 = (idx0 mod bufSize, (idx0 + 1) mod bufSize) /\
      0 <= fst (readIndices bufSize idx0) < bufSize /\
      0 <= snd (readIndices bufSize idx0) < bufSize).
Proof.
  split; [reflexivity|].
  intros B i HB Hi.
  assert (Heq : readIndices B i = (i mod B, (i + 1) mod B)).
  { unfold readIndices.
    destruct (Z.ltb_spec i 0) as [Hneg|Hnn].
    - destruct (Z.leb_spec B (i + B)) as [?|_]; [lia|].
      assert (H0 : i mod B = i + B).
      { symmetry. apply (Z.mod_unique i B (-1)); lia. }
      rewrite H0.
      destruct (Z.leb_spec B (i + B + 1)) as [Hw|Hw]; f_equal.
      + apply (Z.mod_unique (i + 1) B 0); lia.
      + apply (Z.mod_unique (i + 1) B (-1)); lia.
    - destruct (Z.leb_spec B i) as [Hge|Hlt].
      + assert (H0 : i mod B = i - B).
        { symmetry. apply (Z.mod_unique i B 1); lia. }
        rewrite H0.
        destruct (Z.leb_spec B (i - B + 1)) as [Hw|Hw]; f_equal.
        * apply (Z.mod_unique (i + 1) B 2); lia.
        * apply (Z.mod_unique (i + 1) B 1); lia.
      + rewrite (Z.mod_small i B) by lia.
        destruct (Z.leb_spec B (i + 1)) as [Hw|Hw]; f_equal.
        * apply (Z.mod_unique (i + 1) B 1); lia.
        * symmetry. apply Z.mod_small. lia. }
  split; [exact Heq|]. rewrite Heq. simpl.
  split; apply Z.mod_pos_bound; exact HB.
Qed.

Lemma read_indices_wrap_witness :
  (0 < 16 /\ - 16 <= -3 < 2 * 16) /\
  readIndices 16 (-3) = (13, 14) /\ readIndices 16 15 = (15, 0).
Proof.
  assert (HB : 0 < 16) by lia.
  assert (Hi : - 16 <= -3 < 2 * 16) by lia.
  split; [split; assumption|]. split.
  - rewrite (proj1 (proj2 (@read_indices_wrap onePoleDsp) 16 (-3) HB Hi)). reflexivity.
  - reflexivity.
Defined.

(** X25.  The width control of the delay.  Each output sample is the
    input sample plus the wet sample of its channel.  With two channels
    and a width of zero the wet samples of both channels compare equal
    to one value, the mean [(left + right) * 0.5] of the two delayed
    samples, whenever the mean and the two differences from it are
    numbers: the delay is mono.  With a width of 1 or more, or with a
    single channel, the wet sample is the delayed sample of the channel
    itself. *)
Theorem delay_width_blend `{JuceDsp} (d : DelayModule) (delayed : list float) :
  (forall (channels : Z) (s ch : nat) (buffer : list (list float))
          (lpf : ToneFilter) (data : list float),
      toneLPF d !! ch = Some lpf -> buffer !! ch = Some data ->
      (s < length data)%nat ->
      at_ (default [] (snd (processChannel delayed channels s ch (d, buffer)) !! ch)) s
      = at_ data s ⊕ wetSampleOf d delayed channels ch)
  /\
  (width d = fofZ 0 ->
   let mono := (at_ delayed 0 ⊕ at_ delayed 1) ⊗ flit 5 10 in
   isFiniteF mono = true ->
   isFiniteF (at_ delayed 0 ⊖ mono) = true ->
   isFiniteF (at_ delayed 1 ⊖ mono) = true ->
   SFeqb (wetSampleOf d delayed 2 0) mono = true /\
   SFeqb (wetSampleOf d delayed 2 1) mono = true)
  /\
  ((width d <. fofZ 1) = false ->
   forall (channels : Z) (ch : nat), wetSampleOf d delayed channels ch = at_ delayed ch)
  /\
  (forall ch : nat, wetSampleOf d delayed 1 ch = at_ delayed ch).
Proof.
  split; [|split; [|split]].
  - intros channels s ch buffer lpf data Hlpf Hdata Hs.
    unfold processChannel. rewrite Hlpf.
    destruct (feedbackOf d delayed channels ch lpf) as [fs lpf'].
    simpl snd. rewrite Hdata. simpl default.
    rewrite list_lookup_insert_eq by (apply lookup_lt_Some with data; exact Hdata).
    simpl default. unfold at_ at 1.
    rewrite list_lookup_insert_eq by exact Hs. reflexivity.
  - intros Hw mono Hm H0 H1. unfold wetSampleOf. rewrite Hw.
    replace ((fofZ 0 : float) <. fofZ 1) with true by reflexivity.
    simpl andb. cbv iota. cbv zeta.
    change (1 - 0)%nat with 1%nat. change (1 - 1)%nat with 0%nat.
    rewrite (b32_add_comm (at_ delayed 1) (at_ delayed 0)). fold mono.
    split; apply b32_add_zero_times; assumption.
  - intros Hw channels ch. unfold wetSampleOf. rewrite Hw. reflexivity.
  - intros ch. unfold wetSampleOf. rewrite andb_false_r. reflexivity.
Qed.

Lemma delay_width_blend_witness :
  let d := @setParameters onePoleDsp (@prepare onePoleDsp (B64.ofZ 8) 2) 0
             (flit 1 2) (flit 1 2) (fofZ 0) false (B64.ofZ 120) in
  let delayed : list float := [fofZ 3; fofZ 1] in
  (@width onePoleDsp d = fofZ 0 /\
   isFiniteF ((at_ delayed 0 ⊕ at_ delayed 1) ⊗ flit 5 10) = true /\
   isFiniteF (at_ delayed 0 ⊖ (at_ delayed 0 ⊕ at_ delayed 1) ⊗ flit 5 10) = true /\
   isFiniteF (at_ delayed 1 ⊖ (at_ delayed 0 ⊕ at_ delayed 1) ⊗ flit 5 10) = true) /\
  SFeqb (@wetSampleOf onePoleDsp d delayed 2 1) (fofZ 2) = true.
Proof.
  intros d delayed.
  assert (Hw : @width onePoleDsp d = fofZ 0) by reflexivity.
  assert (Hm : isFiniteF ((at_ delayed 0 ⊕ at_ delayed 1) ⊗ flit 5 10) = true)
    by reflexivity.
  assert (H0 : isFiniteF (at_ delayed 0 ⊖ (at_ delayed 0 ⊕ at_ delayed 1) ⊗ flit 5 10)
               = true) by reflexivity.
  assert (H1 : isFiniteF (at_ delayed 1 ⊖ (at_ delayed 0 ⊕ at_ delayed 1) ⊗ flit 5 10)
               = true) by reflexivity.
  split; [repeat split; assumption|].
  exact (proj2 (proj1 (proj2 (@delay_width_blend onePoleDsp d delayed)) Hw Hm H0 H1)).
Defined.

(** X30.  [setParameters] of the delay guards its inputs.  A sync index
    below 0 is treated as 0 and one above 7 as 7; a tempo that is NaN is
    treated as 120 BPM, like one of 20 or less.  The width and the
    ping-pong flag are stored as given, both tone filters receive the
    cutoff [500 * pow (40, tone)], and the delay lines, the write
    cursors and the buffer size are not touched. *)
Theorem delay_setParameters_guards `{JuceDsp} (d : DelayModule) (syncIndex : Z)
    (feedback tone01 width01 : float) (pingPong : bool) (bpm : float) :
  let d' := setParameters d syncIndex feedback tone01 width01 pingPong bpm in
  (syncIndex < 0 -> newDelayOf d syncIndex bpm = newDelayOf d 0 bpm) /\
  (7 < syncIndex -> newDelayOf d syncIndex bpm = newDelayOf d 7 bpm) /\
  (isNaN bpm = true -> newDelayOf d syncIndex bpm = newDelayOf d syncIndex (B64.ofZ 120)) /\
  width d' = width01 /\ isPingPong d' = pingPong /\
  (forall ch lpf, (ch < 2)%nat -> toneLPF d !! ch = Some lpf ->
     toneLPF d' !! ch
     = Some (setCutoffFrequency lpf (fofZ 500 ⊗ powf (fofZ 40) tone01))) /\
  delayLine d' = delayLine d /\ writePos d' = writePos d /\ bufSize_ d' = bufSize_ d.
Proof.
  intros d'. split; [|split; [|split; [|split; [|split; [|split]]]]].
  - intros Hneg. unfold newDelayOf.
    replace (clampZ syncIndex 0 7) with (clampZ 0 0 7); [reflexivity|].
    unfold clampZ. destruct (Z.ltb_spec syncIndex 0); [reflexivity|lia].
  - intros Hbig. unfold newDelayOf.
    replace (clampZ syncIndex 0 7) with (clampZ 7 0 7); [reflexivity|].
    unfold clampZ. destruct (Z.ltb_spec syncIndex 0); [lia|].
    destruct (Z.ltb_spec 7 syncIndex); [reflexivity|lia].
  - intros Hn. destruct bpm; try discriminate Hn. reflexivity.
  - reflexivity.
  - reflexivity.
  - intros ch lpf Hch Hl. unfold d', setParameters. cbn [toneLPF].
    unfold forLoop. simpl fold_left.
    destruct (toneLPF d) as [|f0 [|f1 rest]] eqn:Ht.
    + destruct ch; discriminate Hl.
    + destruct ch as [|[|ch]]; simpl in Hl; try discriminate Hl; try lia.
      injection Hl as <-. reflexivity.
    + destruct ch as [|[|ch]]; simpl in Hl; try lia; injection Hl as <-; reflexivity.
  - repeat split; reflexivity.
Qed.

Lemma delay_setParameters_guards_witness :
  let d := @prepare onePoleDsp (B64.ofZ 48000) 2 in
  (-4 < 0 /\ isNaN S754_nan = true) /\
  @newDelayOf onePoleDsp d (-4) (B64.ofZ 120) = fofZ 3000 /\
  @newDelayOf onePoleDsp d 3 S754_nan = fofZ 24000.
Proof.
  intros d.
  assert (Hneg : -4 < 0) by lia.
  assert (Hn : isNaN S754_nan = true) by reflexivity.
  split; [split; assumption|]. split.
  - rewrite (proj1 (@delay_setParameters_guards onePoleDsp d (-4) (fofZ 0) (fofZ 0)
                      (fofZ 0) false (B64.ofZ 120)) Hneg).
    vm_compute. reflexivity.
  - rewrite (proj1 (proj2 (proj2 (@delay_setParameters_guards onePoleDsp d 3 (fofZ 0)
                                    (fofZ 0) (fofZ 0) false S754_nan))) Hn).
    vm_compute. reflexivity.
Defined.

(** ** The pre-delay of the reverb stage *)

Lemma mod_add_distinct (N a t k : Z) :
  0 < N -> t < k -> k - t < N -> (a + t) mod N <> (a + k) mod N.
Proof.
  intros HN Htk Hd Heq.
  assert (H0 : (k - t) mod N = 0).
  { replace (k - t) with ((a + k) - (a + t)) by lia.
    rewrite Zminus_mod, Heq, Z.sub_diag. apply Z.mod_0_l. lia. }
  rewrite Z.mod_small in H0 by lia. lia.
Qed.

Lemma preDelayChannel_S (D : Z) (k : nat) (st : list float * Z * list float) :
  preDelayChannel D (S k) st
  = (let '(buf, wp, data) := preDelayChannel D k st in
     let buf' := <[Z.to_nat wp := at_ data k]> buf in
     let readPos := wp - D in
     let readPos := if readPos <? 0 then readPos + Z.of_nat (length buf') else readPos in
     let data' := <[k := at_ buf' (Z.to_nat readPos)]> data in
     let wp' := wp + 1 in
     let wp' := if Z.of_nat (length buf') <=? wp' then 0 else wp' in
     (buf', wp', data')).
Proof. unfold preDelayChannel. rewrite forLoop_S. reflexivity. Qed.

Lemma preDelayChannel_inv (D : Z) (buf : list float) (wp : Z) (data : list float)
    (k : nat) :
  0 < D < Z.of_nat (length buf) -> 0 <= wp < Z.of_nat (length buf) ->
  (k <= length data)%nat ->
  let N := Z.of_nat (length buf) in
  let st := preDelayChannel D k (buf, wp, data) in
  length (fst (fst st)) = length buf /\
  length (snd st) = length data /\
  snd (fst st) = (wp + Z.of_nat k) mod N /\
  (forall t, Z.of_nat k - N <= t < Z.of_nat k ->
     at_ (fst (fst st)) (Z.to_nat ((wp + t) mod N)) = preDelayHistory buf wp data t) /\
  (forall s, (s < k)%nat ->
     at_ (snd st) s = preDelayHistory buf wp data (Z.of_nat s - D)) /\
  (forall s, (k <= s)%nat -> snd st !! s = data !! s).
Proof.
  intros HD Hwp. induction k as [|k IH]; intros Hk N st.
  - unfold st, preDelayChannel, forLoop. simpl.
    split; [reflexivity|]. split; [reflexivity|].
    split; [rewrite Z.add_0_r, Z.mod_small by exact Hwp; reflexivity|].
    split; [|split; [intros s Hs; lia | reflexivity]].
    intros t Ht. unfold preDelayHistory.
    destruct (Z.leb_spec 0 t) as [?|_]; [lia|]. reflexivity.
  - specialize (IH ltac:(lia)). cbv zeta in IH.
    unfold st. rewrite preDelayChannel_S.
    destruct (preDelayChannel D k (buf, wp, data)) as [[bufk wpk] datak].
    simpl fst in IH. simpl snd in IH.
    destruct IH as (Hlb & Hld & Hw & Hbuf & Hout & Hrest).
    cbv zeta. simpl fst. simpl snd.
    rewrite !length_insert, Hlb. subst N. set (N := Z.of_nat (length buf)) in *.
    assert (HN : 0 < N) by (unfold N; lia).
    assert (Hwk : 0 <= wpk < N) by (rewrite Hw; apply Z.mod_pos_bound; exact HN).
    assert (Hdk : at_ datak k = preDelayHistory buf wp data (Z.of_nat k)).
    { unfold at_ at 1. rewrite Hrest by lia. unfold preDelayHistory.
      destruct (Z.leb_spec 0 (Z.of_nat k)); [|lia]. rewrite Nat2Z.id. reflexivity. }
    assert (Hread : (if wpk - D <? 0 then wpk - D + N else wpk - D)
                    = (wp + (Z.of_nat k - D)) mod N).
    { replace (wp + (Z.of_nat k - D)) with ((wp + Z.of_nat k) - D) by lia.
      rewrite Zminus_mod, <- Hw. rewrite (Z.mod_small D N) by lia.
      destruct (Z.ltb_spec (wpk - D) 0).
      - apply (Z.mod_unique (wpk - D) N (-1)); lia.
      - symmetry. apply Z.mod_small. lia. }
    rewrite Hread.
    assert (Hnew : forall t, Z.of_nat k - N < t <= Z.of_nat k ->
              at_ (<[Z.to_nat wpk := at_ datak k]> bufk) (Z.to_nat ((wp + t) mod N))
              = preDelayHistory buf wp data t).
    { intros t Ht. destruct (Z.eq_dec t (Z.of_nat k)) as [->|Hne].
      - rewrite <- Hw. unfold at_ at 1.
        rewrite list_lookup_insert_eq by (rewrite Hlb; fold N; lia).
        exact Hdk.
      - unfold at_ at 1. rewrite list_lookup_insert_ne.
        + apply Hbuf. lia.
        + rewrite Hw. intros Heq. apply Z2Nat.inj in Heq;
            try (apply Z.mod_pos_bound; exact HN).
          symmetry in Heq. revert Heq. apply mod_add_distinct; lia. }
    split; [reflexivity|]. split; [exact Hld|]. split; [|split; [|split]].
    + rewrite Hw. replace (wp + Z.of_nat (S k)) with ((wp + Z.of_nat k) + 1) by lia.
      destruct (Z.leb_spec N ((wp + Z.of_nat k) mod N + 1)) as [Hge|Hlt].
      * apply (Z.mod_unique _ N ((wp + Z.of_nat k) / N + 1)); [lia|].
        pose proof (Z.div_mod (wp + Z.of_nat k) N ltac:(lia)) as Hdm.
        pose proof (Z.mod_pos_bound (wp + Z.of_nat k) N HN) as Hb. nia.
      * apply (Z.mod_unique _ N ((wp + Z.of_nat k) / N)); [lia|].
        pose proof (Z.div_mod (wp + Z.of_nat k) N ltac:(lia)) as Hdm. lia.
    + intros t Ht. apply Hnew. lia.
    + intros s Hs. destruct (decide (s = k)) as [->|Hne].
      * unfold at_ at 1. rewrite list_lookup_insert_eq by (rewrite Hld; lia).
        simpl. apply Hnew. lia.
      * unfold at_ at 1. rewrite list_lookup_insert_ne by congruence.
        apply Hout. lia.
    + intros s Hs. rewrite list_lookup_insert_ne by lia. apply Hrest. lia.
Qed.

Section ReverbFacts.
Context `{JuceReverb}.

(** The channel loop of the pre-delay runs the sample loop on each
    channel's own buffer, cursor and samples. *)
Lemma preDelayStage_loop (r : ReverbModule) (block : list (list float))
    (numSamples n : nat) :
  length (preDelayBuffer r) = 2%nat -> length (preDelayWritePos r) = 2%nat ->
  (n <= Nat.min (length block) 2)%nat ->
  let chan := fun ch =>
    preDelayChannel (preDelaySamples r) numSamples
      (default [] (preDelayBuffer r !! ch),
       default 0 (preDelayWritePos r !! ch),
       default [] (block !! ch)) in
  let st :=
    forLoop n
      (fun ch st =>
         let '(r, block) := st in
         let '(buf', wp', data') :=
           preDelayChannel (preDelaySamples r) numSamples
             (default [] (preDelayBuffer r !! ch),
              default 0 (preDelayWritePos r !! ch),
              default [] (block !! ch)) in
         (mkReverb (reverbSampleRate r) (reverbNumChannels r) (reverb r)
                   (<[ch := buf']> (preDelayBuffer r))
                   (<[ch := wp']> (preDelayWritePos r))
                   (preDelaySamples r),
          <[ch := data']> block))
      (r, block) in
  preDelaySamples (fst st) = preDelaySamples r /\
  reverb (fst st) = reverb r /\
  length (preDelayBuffer (fst st)) = 2%nat /\
  length (preDelayWritePos (fst st)) = 2%nat /\
  length (snd st) = length block /\
  (forall ch, preDelayBuffer (fst st) !! ch
              = if (ch <? n)%nat then Some (fst (fst (chan ch)))
                else preDelayBuffer r !! ch) /\
  (forall ch, preDelayWritePos (fst st) !! ch
              = if (ch <? n)%nat then Some (snd (fst (chan ch)))
                else preDelayWritePos r !! ch) /\
  (forall ch, snd st !! ch
              = if (ch <? n)%nat then Some (snd (chan ch)) else block !! ch).
Proof.
  intros Hbl Hwl. induction n as [|n IH]; intros Hn chan st.
  - unfold st, forLoop. simpl. repeat split; try reflexivity; assumption.
  - specialize (IH ltac:(lia)). cbv zeta in IH. fold chan in IH.
    unfold st. rewrite forLoop_S.
    match type of IH with
    | context [forLoop n ?body (r, block)] =>
        destruct (forLoop n body (r, block)) as [rn bn]
    end.
    simpl fst in IH. simpl snd in IH.
    destruct IH as (HD & Hrev & Hbl' & Hwl' & Hlen & Hbuf & Hwp & Hblk).
    rewrite HD, (Hbuf n), (Hwp n), (Hblk n), Nat.ltb_irrefl. fold (chan n).
    destruct (chan n) as [[b w] dd] eqn:Hchan.
    cbn [fst snd preDelaySamples reverb preDelayBuffer preDelayWritePos].
    rewrite !length_insert.
    split; [reflexivity|]. split; [exact Hrev|]. split; [exact Hbl'|].
    split; [exact Hwl'|]. split; [exact Hlen|].
    assert (Hcase : forall ch, (ch <? S n)%nat = (ch =? n)%nat || (ch <? n)%nat).
    { intros ch. destruct (Nat.eqb_spec ch n), (Nat.ltb_spec ch n),
        (Nat.ltb_spec ch (S n)); simpl; try reflexivity; lia. }
    split; [|split]; intros ch; rewrite Hcase;
      (destruct (Nat.eqb_spec ch n) as [->|Hne]; simpl;
       [ rewrite list_lookup_insert_eq by lia; rewrite Hchan; reflexivity
       | rewrite list_lookup_insert_ne by congruence ]).
    + apply Hbuf.
    + apply Hwp.
    + apply Hblk.
Qed.
End ReverbFacts.

(** X26.  The pre-delay of the reverb delays each channel by
    [preDelaySamples] samples, across blocks.  With a pre-delay between
    1 and the buffer length less one and the write cursor inside the
    buffer, every output sample of a processed channel is the sample of
    the channel's history [preDelaySamples] positions earlier: the input
    sample of this block at [s - preDelaySamples] when that lies in the
    block, and otherwise what the circular buffer held that far behind
    the cursor.  Afterwards the cursor has advanced by the block length
    around the buffer and the buffer holds the most recent part of the
    history, so the next block continues it.  With a pre-delay of zero
    or less the block and the buffers are not touched. *)
Theorem predelay_delays `{JuceReverb} (r : ReverbModule) (block : list (list float)) :
  (forall (ch : nat) (buf : list float) (wp : Z) (data : list float),
      length (preDelayBuffer r) = 2%nat -> length (preDelayWritePos r) = 2%nat ->
      (ch < Nat.min (length block) 2)%nat ->
      preDelayBuffer r !! ch = Some buf ->
      preDelayWritePos r !! ch = Some wp ->
      block !! ch = Some data ->
      length data = length (default [] (block !! 0%nat)) ->
      0 < preDelaySamples r < Z.of_nat (length buf) ->
      0 <= wp < Z.of_nat (length buf) ->
      let D := preDelaySamples r in
      let N := Z.of_nat (length buf) in
      let n := Z.of_nat (length data) in
      let r' := fst (preDelayStage r block) in
      let block' := snd (preDelayStage r block) in
      (forall s, (s < length data)%nat ->
         sampleAt block' ch s = preDelayHistory buf wp data (Z.of_nat s - D)) /\
      (forall s, (s < length data)%nat -> D <= Z.of_nat s ->
         sampleAt block' ch s = at_ data (s - Z.to_nat D)) /\
      atZ (preDelayWritePos r') ch = (wp + n) mod N /\
      (forall t, n - N <= t < n ->
         at_ (default [] (preDelayBuffer r' !! ch)) (Z.to_nat ((wp + t) mod N))
         = preDelayHistory buf wp data t) /\
      length (default [] (block' !! ch)) = length data /\
      length (default [] (preDelayBuffer r' !! ch)) = length buf)
  /\
  (preDelaySamples r <= 0 -> preDelayStage r block = (r, block)).
Proof.
  split.
  - intros ch buf wp data Hbl Hwl Hch Hbuf Hwp Hdata Hlen HD Hw D N n r' block'.
    unfold r', block', preDelayStage. clear r' block'.
    destruct (Z.ltb_spec 0 (preDelaySamples r)) as [_|?]; [|lia].
    pose proof (preDelayStage_loop r block (length (default [] (block !! 0%nat)))
                  (Nat.min (length block) 2) Hbl Hwl (Nat.le_refl _)) as Hloop.
    cbv zeta in Hloop.
    destruct Hloop as (_ & _ & _ & _ & _ & Hb' & Hw' & Hblk').
    specialize (Hb' ch). specialize (Hw' ch). specialize (Hblk' ch).
    apply Nat.ltb_lt in Hch. rewrite Hch in Hb', Hw', Hblk'.
    rewrite Hbuf, Hwp, Hdata in Hb', Hw', Hblk'. simpl default in Hb', Hw', Hblk'.
    unfold sampleAt, atZ. rewrite Hb', Hw', Hblk'. simpl default.
    rewrite <- Hlen.
    pose proof (preDelayChannel_inv (preDelaySamples r) buf wp data (length data)
                  HD Hw (Nat.le_refl _)) as Hinv.
    cbv zeta in Hinv. fold D in Hinv. fold N in Hinv. fold n in Hinv.
    destruct Hinv as (Hlb & Hld & Hcur & Hhist & Hout & _).
    split; [exact Hout|]. split; [|split; [exact Hcur|split; [exact Hhist|split; assumption]]].
    intros s Hs HDs. rewrite Hout by exact Hs. unfold preDelayHistory.
    destruct (Z.leb_spec 0 (Z.of_nat s - D)); [|lia].
    f_equal. lia.
  - intros HD. unfold preDelayStage.
    destruct (Z.ltb_spec 0 (preDelaySamples r)); [lia|reflexivity].
Qed.

Lemma predelay_delays_witness :
  let buf : list float := [fofZ 9; fofZ 8; fofZ 7; fofZ 6] in
  let data : list float := [fofZ 1; fofZ 2; fofZ 3] in
  let r := @mkReverb passThroughReverb (B64.ofZ 48000) 2 tt [buf; buf] [1; 1] 2 in
  let block : list (list float) := [data] in
  (length (@preDelayBuffer passThroughReverb r) = 2%nat /\
   length (@preDelayWritePos passThroughReverb r) = 2%nat /\
   (0 < Nat.min (length block) 2)%nat /\
   @preDelayBuffer passThroughReverb r !! 0%nat = Some buf /\
   @preDelayWritePos passThroughReverb r !! 0%nat = Some 1 /\
   block !! 0%nat = Some data /\
   length data = length (default [] (block !! 0%nat)) /\
   0 < @preDelaySamples passThroughReverb r < Z.of_nat (length buf) /\
   0 <= 1 < Z.of_nat (length buf) /\
   (2 < length data)%nat /\ @preDelaySamples passThroughReverb r <= Z.of_nat 2) /\
  sampleAt (snd (@preDelayStage passThroughReverb r block)) 0 2 = fofZ 1 /\
  snd (@preDelayStage passThroughReverb r block) = [[fofZ 6; fofZ 9; fofZ 1]].
Proof.
  intros buf data r block.
  assert (H1 : length (@preDelayBuffer passThroughReverb r) = 2%nat) by reflexivity.
  assert (H2 : length (@preDelayWritePos passThroughReverb r) = 2%nat) by reflexivity.
  assert (H3 : (0 < Nat.min (length block) 2)%nat) by (simpl; lia).
  assert (H4 : @preDelayBuffer passThroughReverb r !! 0%nat = Some buf) by reflexivity.
  assert (H5 : @preDelayWritePos passThroughReverb r !! 0%nat = Some 1) by reflexivity.
  assert (H6 : block !! 0%nat = Some data) by reflexivity.
  assert (H7 : length data = length (default [] (block !! 0%nat))) by reflexivity.
  assert (H8 : 0 < @preDelaySamples passThroughReverb r < Z.of_nat (length buf))
    by (simpl; lia).
  assert (H9 : 0 <= 1 < Z.of_nat (length buf)) by (simpl; lia).
  assert (H10 : (2 < length data)%nat) by (simpl; lia).
  assert (H11 : @preDelaySamples passThroughReverb r <= Z.of_nat 2) by (simpl; lia).
  split; [repeat split; try assumption; first [apply H8 | apply H9]|]. split.
  - rewrite (proj1 (proj2 (proj1 (@predelay_delays passThroughReverb r block)
                             0%nat buf 1 data H1 H2 H3 H4 H5 H6 H7 H8 H9))
               2%nat H10 H11).
    reflexivity.
  - vm_compute. reflexivity.
Defined.

(** X27.  [setParameters] of the reverb stage keeps the pre-delay
    inside the buffer whatever time is asked for, NaN and the infinities
    included: with a buffer of at least one sample the pre-delay lies
    between 0 and the buffer length less one, which is what the
    pre-delay of [process] relies on; it hands the library a fully wet
    setting (wet 1, dry 0, no freeze), and leaves buffers and cursors
    alone.  After [prepare] the buffers hold 200 ms plus one sample and
    the pre-delay is 0.  At 48 kHz the buffer is 9601 samples long and
    pre-delay times of 10 ms, 200 ms and 1000 ms give 480, 9600 and 9600
    samples. *)
Theorem reverb_predelay_within_buffer `{JuceReverb} :
  (forall (r : ReverbModule) (size01 damping01 preDelayMs width01 : float),
      let r' := reverbModuleSetParameters r size01 damping01 preDelayMs width01 in
      let N := Z.of_nat (length (default [] (preDelayBuffer r !! 0%nat))) in
      (0 < N -> 0 <= preDelaySamples r' < N) /\
      preDelayBuffer r' = preDelayBuffer r /\
      preDelayWritePos r' = preDelayWritePos r /\
      reverb r'
      = reverbSetParameters (reverb r)
          (mkReverbParameters size01 damping01 (fofZ 1) (fofZ 0) width01 (fofZ 0)))
  /\
  (forall (specSampleRate : float) (specNumChannels : Z),
      0 <= castToInt (B64.mul specSampleRate (dlit 2 10)) ->
      let r := reverbModulePrepare specSampleRate specNumChannels in
      let N := castToInt (B64.mul specSampleRate (dlit 2 10)) + 1 in
      (forall ch buf, preDelayBuffer r !! ch = Some buf -> Z.of_nat (length buf) = N) /\
      length (preDelayBuffer r) = 2%nat /\
      preDelayWritePos r = [0; 0] /\ preDelaySamples r = 0)
  /\
  (let r := reverbModulePrepare (B64.ofZ 48000) 2 in
   Z.of_nat (length (default [] (preDelayBuffer r !! 0%nat))) = 9601 /\
   map (fun ms => preDelaySamples
                    (reverbModuleSetParameters r (fofZ 0) (fofZ 0) ms (fofZ 0)))
       [fofZ 10; fofZ 200; fofZ 1000; fofZ (-5); S754_nan]
   = [480; 9600; 9600; 0; 0]).
Proof.
  split; [|split].
  - intros r size01 damping01 preDelayMs width01 r' N.
    split; [|repeat split; reflexivity].
    intros HN. unfold r', reverbModuleSetParameters. cbn [preDelaySamples]. fold N.
    pose proof (clampZ_bounds
                  (castToInt (B64.mul (B64.mul (B64.ofFloat preDelayMs) (dlit 1 1000))
                                      (reverbSampleRate r)))
                  0 (N - 1) ltac:(lia)) as Hb.
    lia.
  - intros sr nch Hpos r N. unfold r, reverbModulePrepare.
    cbn [preDelayBuffer preDelayWritePos preDelaySamples]. fold N.
    split; [|repeat split; reflexivity].
    intros ch buf Hl.
    destruct ch as [|[|ch]]; simpl in Hl; try discriminate Hl;
      injection Hl as <-; rewrite length_replicate; lia.
  - cbv zeta. split; vm_compute; reflexivity.
Qed.

Lemma reverb_predelay_within_buffer_witness :
  let r := @reverbModulePrepare passThroughReverb (B64.ofZ 1000) 2 in
  let r' := @reverbModuleSetParameters passThroughReverb r
              (flit 1 2) (flit 1 2) (fofZ 5000) (fofZ 1) in
  (0 <= castToInt (B64.mul (B64.ofZ 1000) (dlit 2 10)) /\
   0 < Z.of_nat (length (default [] (@preDelayBuffer passThroughReverb r !! 0%nat)))) /\
  @preDelaySamples passThroughReverb r = 0 /\
  0 <= @preDelaySamples passThroughReverb r'
    < Z.of_nat (length (default [] (@preDelayBuffer passThroughReverb r !! 0%nat))).
Proof.
  intros r r'.
  assert (Hpos : 0 <= castToInt (B64.mul (B64.ofZ 1000) (dlit 2 10)))
    by (vm_compute; discriminate).
  assert (HN : 0 < Z.of_nat (length (default []
                                       (@preDelayBuffer passThroughReverb r !! 0%nat))))
    by (vm_compute; reflexivity).
  split; [split; assumption|]. split.
  - exact (proj2 (proj2 (proj2 (proj1 (proj2 (@reverb_predelay_within_buffer
                                                passThroughReverb))
                                  (B64.ofZ 1000) 2 Hpos)))).
  - exact (proj1 (proj1 (@reverb_predelay_within_buffer passThroughReverb)
                    r (flit 1 2) (flit 1 2) (fofZ 5000) (fofZ 1)) HN).
Defined.

(** ** The filter stage and the macro rows of the editor *)

(** X28.  What [FilterModule::setParameters] hands to the library.  The
    type is band-pass for mode 1, high-pass for mode 2 and low-pass for
    every other mode, negative or large ones included; the cutoff is
    passed through.  In exact arithmetic the normalised resonance is
    mapped to [0.707 - 0.657 * reso], which for a resonance in [0, 1]
    lies in [0.05, 0.707] and decreases as the resonance grows.  In
    single precision a resonance of 0 gives exactly 0.707f, and a
    resonance of 1 gives a value three units in the last place above
    0.05f. *)
Theorem filter_parameter_mapping :
  (forall (F : Type) (A : FloatArith F) (mode : Z) (cutoffHz reso01 : F),
      let s := filterSetParameters mode cutoffHz reso01 in
      filterCutoff s = cutoffHz /\
      (mode = 1 -> filterType s = bandpass) /\
      (mode = 2 -> filterType s = highpass) /\
      (mode <> 1 -> mode <> 2 -> filterType s = lowpass))
  /\
  (forall (mode : Z) (cutoffHz reso01 : R),
      (0 <= reso01 <= 1)%R ->
      let q := filterResonance (filterSetParameters mode cutoffHz reso01) in
      q = (707 / 1000 - 657 / 1000 * reso01)%R /\ (5 / 100 <= q <= 707 / 1000)%R)
  /\
  (forall (mode : Z) (cutoffHz r1 r2 : R),
      (r1 <= r2)%R ->
      (filterResonance (filterSetParameters mode cutoffHz r2)
       <= filterResonance (filterSetParameters mode cutoffHz r1))%R)
  /\
  (forall (mode : Z) (cutoffHz : float),
      filterResonance (filterSetParameters mode cutoffHz (fofZ 0)) = flit 707 1000 /\
      filterResonance (filterSetParameters mode cutoffHz (fofZ 1))
      = S754_finite false 13421776 (-28) /\
      (flit 5 100 : float) = S754_finite false 13421773 (-28)).
Proof.
  split; [|split; [|split]].
  - intros F A mode cutoffHz reso01 s. unfold s, filterSetParameters. simpl.
    split; [reflexivity|]. split; [intros ->; reflexivity|].
    split; [intros ->; reflexivity|].
    intros H1 H2. destruct mode as [|p|p]; try reflexivity.
    destruct p as [[p|p|]|[p|p|]|]; try reflexivity; congruence.
  - intros mode cutoffHz reso01 Hr q. unfold q, filterSetParameters. simpl.
    unfold resoFlat, resoMax, flit. simpl. split; [field|]. split; lra.
  - intros mode cutoffHz r1 r2 Hr. unfold filterSetParameters. simpl.
    unfold resoFlat, resoMax, flit. simpl. lra.
  - intros mode cutoffHz. repeat split; vm_compute; reflexivity.
Qed.

Lemma filter_parameter_mapping_witness :
  ((0 <= 1 / 2 <= 1)%R /\ 7 <> 1 /\ 7 <> 2) /\
  filterResonance (filterSetParameters 0 1000%R (1 / 2)%R) = (757 / 2000)%R /\
  filterType (filterSetParameters 7 (fofZ 1000 : float) (fofZ 0)) = lowpass.
Proof.
  assert (Hr : (0 <= 1 / 2 <= 1)%R) by lra.
  assert (H1 : 7 <> 1) by lia.
  assert (H2 : 7 <> 2) by lia.
  split; [repeat split; try assumption; apply Hr|]. split.
  - rewrite (proj1 (proj1 (proj2 filter_parameter_mapping) 0 1000%R (1 / 2)%R Hr)).
    lra.
  - exact (proj2 (proj2 (proj2 (proj1 filter_parameter_mapping float binary32 7
                                       (fofZ 1000) (fofZ 0)))) H1 H2).
Defined.

Lemma curve_not_kCount_valid (c : MacroCurve) :
  c <> curve_kCount -> negb (curveToInt c =? curveCount) = true.
Proof. destruct c; intros Hc; try reflexivity. congruence. Qed.

(** A row of the editor that contributes a target. *)
Lemma slotTarget_valid {F : Type} `{FloatArith F} (selectedId : Z) (amt : F)
    (curveId : Z) (tg : MacroTarget F) :
  slotTarget selectedId amt curveId = Some tg ->
  2 <= selectedId <= 12 /\
  targetValid tg = true /\
  SceneParam.isDiscrete (SceneParam.infoAt (F:=F) (Z.to_nat (sceneParamIndex tg)))
  = false /\
  amount tg = amt.
Proof.
  unfold slotTarget, kNumMacroTargetOptions.
  destruct (Z.leb_spec 2 selectedId) as [H2|?]; [|discriminate].
  destruct (Z.leb_spec 0 (selectedId - 2)) as [H0|?]; [|discriminate].
  destruct (Z.ltb_spec (selectedId - 2) 11) as [H11|?]; [|discriminate].
  simpl andb. cbv iota. intros [= <-].
  split; [lia|].
  pose proof (curveOfInt_clamped (curveId - 1)) as Hc.
  apply curve_not_kCount_valid in Hc.
  unfold targetValid. cbn [sceneParamIndex curve amount]. rewrite Hc.
  assert (Hcases : selectedId - 2 = 0 \/ selectedId - 2 = 1 \/ selectedId - 2 = 2 \/
                   selectedId - 2 = 3 \/ selectedId - 2 = 4 \/ selectedId - 2 = 5 \/
                   selectedId - 2 = 6 \/ selectedId - 2 = 7 \/ selectedId - 2 = 8 \/
                   selectedId - 2 = 9 \/ selectedId - 2 = 10) by lia.
  repeat (destruct Hcases as [-> | Hcases]); try rewrite Hcases;
    repeat split; reflexivity.
Qed.

Lemma slots_fold_In {F : Type} (slots : list (Z * F * Z)) (acc : list (MacroTarget F))
    (tg : MacroTarget F) :
  In tg (fold_left
           (fun targets slot =>
              let '(selectedId, amount, curveId) := slot in
              match slotTarget selectedId amount curveId with
              | Some t => targets ++ [t]
              | None => targets
              end) slots acc) ->
  In tg acc \/ exists selectedId amt curveId, slotTarget selectedId amt curveId = Some tg.
Proof.
  revert acc. induction slots as [|[[sel a] c] slots IH]; intros acc Hin.
  - left. exact Hin.
  - simpl in Hin. apply IH in Hin. destruct Hin as [Hin|Hex]; [|right; exact Hex].
    destruct (slotTarget sel a c) as [t|] eqn:Ht; [|left; exact Hin].
    apply in_app_or in Hin. destruct Hin as [Hin|[<-|[]]]; [left; exact Hin|].
    right. exists sel, a, c. exact Ht.
Qed.

(** X29.  The macro rows of the editor create targets on continuous
    fields only.  A row contributes a target only when its parameter
    id is one of 2 .. 12, and the target then addresses one of the
    eleven continuous fields of the info table with one of the four
    curves, carrying the amount of the row.  A stored target on a
    continuous field with one of the four curves is shown with the ids
    from which the row gives the same target back; a stored target on a
    discrete field or outside the table is shown as "None" (id 1), and a
    row showing "None" contributes nothing.  Hence every target that
    [onMacroSlotChanged] installs addresses a continuous field of the
    table with one of the four curves. *)
Theorem editor_rows_target_continuous_fields {F : Type} `{FloatArith F} :
  (forall (selectedId : Z) (amt : F) (curveId : Z) (tg : MacroTarget F),
      slotTarget selectedId amt curveId = Some tg ->
      2 <= selectedId <= 12 /\
      targetValid tg = true /\
      SceneParam.isDiscrete (SceneParam.infoAt (F:=F) (Z.to_nat (sceneParamIndex tg)))
      = false /\
      amount tg = amt)
  /\
  (forall tg : MacroTarget F,
      targetValid tg = true ->
      SceneParam.isDiscrete (SceneParam.infoAt (F:=F) (Z.to_nat (sceneParamIndex tg)))
      = false ->
      slotTarget (sceneParamToComboId (sceneParamIndex tg)) (amount tg)
                 (curveToInt (curve tg) + 1) = Some tg)
  /\
  (forall (idx : Z) (amt : F) (curveId : Z),
      idx < 0 \/ SceneParam.kCount <= idx \/
      SceneParam.isDiscrete (SceneParam.infoAt (F:=F) (Z.to_nat idx)) = true ->
      sceneParamToComboId idx = 1 /\
      slotTarget (sceneParamToComboId idx) amt curveId = None)
  /\
  (forall (e : MacroEngine F) (macroIdx : Z) (slots : list (Z * F * Z))
          (tg : MacroTarget F),
      length (mappings_ e) = Z.to_nat kNumMacros -> 0 <= macroIdx < kNumMacros ->
      In tg (getMappings (onMacroSlotChanged e macroIdx slots) (Z.to_nat macroIdx)) ->
      targetValid tg = true /\
      SceneParam.isDiscrete (SceneParam.infoAt (F:=F) (Z.to_nat (sceneParamIndex tg)))
      = false).
Proof.
  split; [|split; [|split]].
  - intros selectedId amt curveId tg. apply slotTarget_valid.
  - intros [idx amt c]. unfold targetValid. cbn [sceneParamIndex curve amount].
    rewrite !andb_true_iff, negb_true_iff.
    intros [[Hlo Hhi] Hc] Hd. apply Z.leb_le in Hlo. apply Z.ltb_lt in Hhi.
    unfold SceneParam.kCount in Hhi.
    assert (Hcases : idx = 0 \/ idx = 1 \/ idx = 2 \/ idx = 3 \/ idx = 4 \/ idx = 5 \/
                     idx = 6 \/ idx = 7 \/ idx = 8 \/ idx = 9 \/ idx = 10 \/
                     idx = 11 \/ idx = 12 \/ idx = 13) by lia.
    repeat (destruct Hcases as [-> | Hcases]); try subst idx;
      try discriminate Hd;
      destruct c; try discriminate Hc; reflexivity.
  - intros idx amt curveId Hidx.
    assert (Hid : sceneParamToComboId idx = 1).
    { destruct Hidx as [Hneg|[Hbig|Hd]].
      - unfold sceneParamToComboId, kMacroTargetOptions. cbn.
        repeat case_decide; try reflexivity;
          unfold SceneParam.filtCutoff, SceneParam.filtReso, SceneParam.driveAmt,
            SceneParam.driveTone, SceneParam.delayFb, SceneParam.delayTone,
            SceneParam.delayWidth, SceneParam.revSize, SceneParam.revDamp,
            SceneParam.revPreDelay, SceneParam.revWidth in *; lia.
      - unfold sceneParamToComboId, kMacroTargetOptions. cbn.
        unfold SceneParam.kCount in Hbig.
        repeat case_decide; try reflexivity;
          unfold SceneParam.filtCutoff, SceneParam.filtReso, SceneParam.driveAmt,
            SceneParam.driveTone, SceneParam.delayFb, SceneParam.delayTone,
            SceneParam.delayWidth, SceneParam.revSize, SceneParam.revDamp,
            SceneParam.revPreDelay, SceneParam.revWidth in *; lia.
      - destruct (Z.lt_ge_cases idx 0) as [Hneg|Hnn];
          [|destruct (Z.lt_ge_cases idx 14) as [Hlt|Hge]].
        + unfold sceneParamToComboId, kMacroTargetOptions. cbn.
          repeat case_decide; try reflexivity;
            unfold SceneParam.filtCutoff, SceneParam.filtReso, SceneParam.driveAmt,
              SceneParam.driveTone, SceneParam.delayFb, SceneParam.delayTone,
              SceneParam.delayWidth, SceneParam.revSize, SceneParam.revDamp,
              SceneParam.revPreDelay, SceneParam.revWidth in *; lia.
        + assert (Hcases : idx = 0 \/ idx = 1 \/ idx = 2 \/ idx = 3 \/ idx = 4 \/
                           idx = 5 \/ idx = 6 \/ idx = 7 \/ idx = 8 \/ idx = 9 \/
                           idx = 10 \/ idx = 11 \/ idx = 12 \/ idx = 13) by lia.
          repeat (destruct Hcases as [-> | Hcases]); try subst idx;
            try discriminate Hd; reflexivity.
        + unfold sceneParamToComboId, kMacroTargetOptions. cbn.
          repeat case_decide; try reflexivity;
            unfold SceneParam.filtCutoff, SceneParam.filtReso, SceneParam.driveAmt,
              SceneParam.driveTone, SceneParam.delayFb, SceneParam.delayTone,
              SceneParam.delayWidth, SceneParam.revSize, SceneParam.revDamp,
              SceneParam.revPreDelay, SceneParam.revWidth in *; lia. }
    split; [exact Hid|]. rewrite Hid. reflexivity.
  - intros e macroIdx slots tg Hlen Hm Hin. unfold onMacroSlotChanged in Hin.
    rewrite getMappings_setMappings_eq in Hin by assumption.
    apply slots_fold_In in Hin. destruct Hin as [[]|(sel & a & c & Hs)].
    apply slotTarget_valid in Hs. destruct Hs as (_ & Hv & Hd & _).
    split; assumption.
Qed.

Lemma editor_rows_target_continuous_fields_witness :
  let tg : MacroTarget float := mkTarget SceneParam.revSize (flit 1 2) sCurve in
  (targetValid tg = true /\
   SceneParam.isDiscrete (SceneParam.infoAt (F:=float) (Z.to_nat (sceneParamIndex tg)))
   = false /\
   (SceneParam.delaySync < 0 \/ SceneParam.kCount <= SceneParam.delaySync \/
    SceneParam.isDiscrete (SceneParam.infoAt (F:=float) (Z.to_nat SceneParam.delaySync))
    = true)) /\
  sceneParamToComboId (sceneParamIndex tg) = 9 /\
  slotTarget 9 (flit 1 2 : float) 4 = Some tg /\
  sceneParamToComboId SceneParam.delaySync = 1.
Proof.
  intros tg.
  assert (Hv : targetValid tg = true) by reflexivity.
  assert (Hc : SceneParam.isDiscrete
                 (SceneParam.infoAt (F:=float) (Z.to_nat (sceneParamIndex tg))) = false)
    by reflexivity.
  assert (Hd : SceneParam.delaySync < 0 \/ SceneParam.kCount <= SceneParam.delaySync \/
               SceneParam.isDiscrete
                 (SceneParam.infoAt (F:=float) (Z.to_nat SceneParam.delaySync)) = true)
    by (right; right; reflexivity).
  split; [repeat split; assumption|]. split; [reflexivity|]. split.
  - exact (proj1 (proj2 (@editor_rows_target_continuous_fields float binary32)) tg Hv Hc).
  - exact (proj1 (proj1 (proj2 (proj2 (@editor_rows_target_continuous_fields float binary32)))
                    SceneParam.delaySync (flit 1 2) 1 Hd)).
Defined.
